(** * TreeNodeService of ngx-material-tree-extensions

    A shallow embedding of [tree-node.service.ts].  The service works on
    JavaScript objects that are compared with [===] and mutated in place, so
    the tree nodes and the flat nodes live in object stores addressed by
    references, and the same reference may occur in several places.  A node's
    [children] array is stored with the node that owns it, and [_data] with
    the service: two nodes never share one array object.  Recursive methods
    take a [fuel] that bounds their depth and answer [None] when it runs out,
    which is how a traversal of a cyclic structure, that never returns in
    JavaScript, shows in the model. *)

From stdpp Require Import gmap strings list fin_maps.

Open Scope Z_scope.

(** ** Object references *)

(** Reference to a tree node object ([TTreeNode]). *)
Abbreviation ref := nat.
(** Reference to a flat node object ([TreeFlatNode<TTreeNode>]). *)
Abbreviation fref := nat.

(** ** JavaScript array primitives used by the service *)

Module JsArray.
Section ops.
Context {A : Type} `{EqDecision A}.

(** [Array.prototype.indexOf]: index of the first [===] element, else -1. *)
Fixpoint indexOf (l : list A) (x : A) : Z :=
  match l with
  | [] => -1
  | y :: l' =>
      if decide (y = x) then 0
      else let i := indexOf l' x in if decide (i = -1) then -1 else i + 1
  end.

(** [Array.prototype.includes]. *)
Definition includes (l : list A) (x : A) : bool := bool_decide (x ∈ l).

(** Start position of [splice]: a negative start counts from the end and
    is clamped at 0, a start beyond the end is clamped to the length. *)
Definition relativeStart (l : list A) (start : Z) : nat :=
  if decide (start < 0) then Z.to_nat (Z.max (Z.of_nat (length l) + start) 0)
  else Z.to_nat (Z.min start (Z.of_nat (length l))).

(** [Array.prototype.splice(start, deleteCount, ...items)]; the result is
    the array after the call. *)
Definition splice (l : list A) (start : Z) (deleteCount : nat) (items : list A)
  : list A :=
  let k := relativeStart l start in
  take k l ++ items ++ drop (k + deleteCount) l.

(** [Array.prototype.push]. *)
Definition push (l : list A) (x : A) : list A := l ++ [x].
End ops.
End JsArray.

(** ** Data model *)

(** The test suite's [Node extends ITreeNode<Node>]: a [name] and the optional
    [children] array ([None] is [undefined]). *)
Record TreeNode := mkTreeNode {
  name : string;
  children : option (list ref)
}.

(** [TreeFlatNode]: the flat projection of a tree node. *)
Record TreeFlatNode := mkTreeFlatNode {
  node : ref;
  expandable : bool;
  level : Z
}.

(** Modelled from the spec: the expansion-state capability of the host
    framework ([FlatTreeControl]), which is not part of this repository.  It
    exposes the ordered [dataNodes] and a selection of expanded flat nodes
    driven by [expand], [collapse] and queried by [isExpanded]. *)
Record FlatTreeControl := mkFlatTreeControl {
  dataNodes : list fref;
  expansionModel : gset fref
}.

(** The service instance together with the objects it can reach. *)
Record TreeNodeService := mkService {
  objects : gmap ref TreeNode;          (* tree node objects *)
  flatObjects : gmap fref TreeFlatNode; (* flat node objects *)
  nodeMap : gmap ref fref;              (* private nodeMap *)
  treeControl : FlatTreeControl;
  _data : list ref;                     (* private _data *)
  dataSubject : list (list ref)         (* values emitted so far, latest first *)
}.

Definition set_objects (s : TreeNodeService) (h : gmap ref TreeNode) :=
  mkService h (flatObjects s) (nodeMap s) (treeControl s) (_data s) (dataSubject s).
Definition set__data (s : TreeNodeService) (d : list ref) :=
  mkService (objects s) (flatObjects s) (nodeMap s) (treeControl s) d (dataSubject s).
Definition set_treeControl (s : TreeNodeService) (c : FlatTreeControl) :=
  mkService (objects s) (flatObjects s) (nodeMap s) c (_data s) (dataSubject s).
Definition set_flat (s : TreeNodeService) (fo : gmap fref TreeFlatNode)
    (nm : gmap ref fref) :=
  mkService (objects s) fo nm (treeControl s) (_data s) (dataSubject s).
Definition emit (s : TreeNodeService) (d : list ref) :=
  mkService (objects s) (flatObjects s) (nodeMap s) (treeControl s) (_data s)
    (d :: dataSubject s).

(** [node.children] of the object behind a reference. *)
Definition children_of (h : gmap ref TreeNode) (r : ref) : option (list ref) :=
  h !! r ≫= children.

(** ** Structural queries *)

(** A [for ... of] loop that returns the first non-null result of its body;
    the outer [option] is [None] when the recursion budget is exhausted. *)
Fixpoint first_found (body : ref → option (option ref)) (l : list ref)
  : option (option ref) :=
  match l with
  | [] => Some None
  | x :: l' =>
      match body x with
      | None => None
      | Some (Some p) => Some (Some p)
      | Some None => first_found body l'
      end
  end.

(** [_getParent(node, parentNode)]; [fuel] bounds the recursion depth. *)
Fixpoint _getParent (fuel : nat) (h : gmap ref TreeNode) (node parentNode : ref)
  : option (option ref) :=
  match fuel with
  | O => None
  | S fuel' =>
      match children_of h parentNode with
      | Some cs =>
          first_found
            (λ childNode,
               if decide (childNode = node) then Some (Some parentNode)
               else _getParent fuel' h node childNode)
            cs
      | None => Some None
      end
  end.

(** [getParent(node)]. *)
Definition getParent (fuel : nat) (s : TreeNodeService) (node : ref)
  : option (option ref) :=
  first_found (_getParent fuel (objects s) node) (_data s).

(** The [while (parentNode !== null)] loop of [getNodePath]; [n] bounds the
    number of iterations. *)
Fixpoint getNodePath_loop (n : nat) (fuel : nat) (s : TreeNodeService)
    (nodePath : list ref) (parentNode : option ref) : option (list ref) :=
  match parentNode with
  | None => Some nodePath
  | Some p =>
      match n with
      | O => None
      | S n' =>
          next ← getParent fuel s p;
          getNodePath_loop n' fuel s (JsArray.push nodePath p) next
      end
  end.

(** [getNodePath(node)]. *)
Definition getNodePath (fuel : nat) (s : TreeNodeService) (node : ref)
  : option (list ref) :=
  parentNode ← getParent fuel s node;
  nodePath ← getNodePath_loop fuel fuel s [node] parentNode;
  Some (reverse nodePath).

(** [isSibling(node, sibling)]: [==] on two values that are objects or null. *)
Definition isSibling (fuel : nat) (s : TreeNodeService) (node sibling : ref)
  : option bool :=
  p ← getParent fuel s node;
  q ← getParent fuel s sibling;
  Some (bool_decide (p = q)).

(** ** Flat nodes and the host framework *)

(** [getFlatNode(node)]. *)
Definition getFlatNode (s : TreeNodeService) (n : ref) : option fref :=
  nodeMap s !! n.

(** [hasChildren(_, node)] and [isRoot(level, node)]. *)
Definition hasChildren (s : TreeNodeService) (flatNode : fref) : option bool :=
  expandable <$> flatObjects s !! flatNode.
Definition isRoot (s : TreeNodeService) (flatNode : fref) : option bool :=
  (λ fl, bool_decide (level fl = 0)) <$> flatObjects s !! flatNode.

(** [node.children != null && node.children.length > 0]. *)
Definition has_children (h : gmap ref TreeNode) (n : ref) : bool :=
  match children_of h n with
  | Some cs => bool_decide (0 < length cs)%nat
  | None => false
  end.

(** The [transformer] arrow function: reuse the flat node registered for
    [node] and update it in place, or create and register a new one. *)
Definition transformer (s : TreeNodeService) (n : ref) (lvl : Z)
  : TreeNodeService * fref :=
  match nodeMap s !! n with
  | Some existingNode =>
      let upd fl := mkTreeFlatNode (node fl) (has_children (objects s) n) lvl in
      (set_flat s (alter upd existingNode (flatObjects s))
                  (<[n := existingNode]> (nodeMap s)),
       existingNode)
  | None =>
      let flatNode := fresh (dom (flatObjects s)) in
      (set_flat s
         (<[flatNode := mkTreeFlatNode n (has_children (objects s) n) lvl]>
            (flatObjects s))
         (<[n := flatNode]> (nodeMap s)),
       flatNode)
  end.

(** A [for ... of] / [forEach] loop threading a state through its body. *)
Fixpoint for_each {St : Type} (body : St → ref → option St) (st : St)
    (l : list ref) : option St :=
  match l with
  | [] => Some st
  | x :: l' => st' ← body st x; for_each body st' l'
  end.

(** Modelled from the spec: the flattening capability of the host framework
    ([MatTreeFlattener]), which is not part of this repository.  Given the
    transformer, the level and expandable accessors and the children accessor
    it produces the flattened sequence in depth-first order, descending into
    the children of every node whose flat node is expandable. *)
Fixpoint _flattenNode (fuel : nat) (acc : TreeNodeService * list fref)
    (lvl : Z) (n : ref) : option (TreeNodeService * list fref) :=
  match fuel with
  | O => None
  | S fuel' =>
      let '(s1, flatNode) := transformer acc.1 n lvl in
      let resultNodes := JsArray.push acc.2 flatNode in
      match expandable <$> flatObjects s1 !! flatNode with
      | Some true =>
          match children_of (objects s1) n with
          | Some cs =>
              for_each (λ a c, _flattenNode fuel' a (lvl + 1) c)
                (s1, resultNodes) cs
          | None => Some (s1, resultNodes)
          end
      | _ => Some (s1, resultNodes)
      end
  end.

(** Modelled from the spec: [MatTreeFlattener.flattenNodes], the entry point of
    the flattening capability: every root is flattened at level 0. *)
Definition flattenNodes (fuel : nat) (s : TreeNodeService)
    (structuredData : list ref) : option (TreeNodeService * list fref) :=
  for_each (λ a n, _flattenNode fuel a 0 n) (s, []) structuredData.

(** [update()]: assigning [dataSource.data] flattens the data again and hands
    the result to the tree control (the data source is host-framework code,
    taken from the spec: "triggers re-flatten"), then the subject emits
    [_data]. *)
Definition update (fuel : nat) (s : TreeNodeService) : option TreeNodeService :=
  '(s1, flat) ← flattenNodes fuel s (_data s);
  Some (emit
          (set_treeControl s1
             (mkFlatTreeControl flat (expansionModel (treeControl s1))))
          (_data s1)).

(** The [data] setter. *)
Definition set_data (fuel : nat) (s : TreeNodeService) (treeTableNodes : list ref)
  : option TreeNodeService :=
  update fuel (set__data s treeTableNodes).

(** Modelled from the spec: [isExpanded], [expand] and [collapse] of the
    expansion-state capability ([FlatTreeControl]); flat nodes are tracked by
    reference. *)
Definition isExpanded (c : FlatTreeControl) (n : fref) : bool :=
  bool_decide (n ∈ expansionModel c).
Definition expand (c : FlatTreeControl) (n : fref) : FlatTreeControl :=
  mkFlatTreeControl (dataNodes c) ({[n]} ∪ expansionModel c).
Definition collapse (c : FlatTreeControl) (n : fref) : FlatTreeControl :=
  mkFlatTreeControl (dataNodes c) (expansionModel c ∖ {[n]}).

(** [isParentExpanded(node)]. *)
Definition isParentExpanded (fuel : nat) (s : TreeNodeService) (n : ref)
  : option bool :=
  parent ← getParent fuel s n;
  Some match parent with
       | Some p =>
           match nodeMap s !! p with
           | Some flatNode => isExpanded (treeControl s) flatNode
           | None => false
           end
       | None => false
       end.

(** ** Mutations *)

(** [insertChild(parentNode, node)]. *)
Definition insertChild (fuel : nat) (s : TreeNodeService) (parentNode n : ref)
  : option TreeNodeService :=
  let init p :=
    match children p with None => mkTreeNode (name p) (Some []) | Some _ => p end in
  let push p :=
    mkTreeNode (name p) (flip JsArray.push n <$> children p) in
  update fuel (set_objects s (alter push parentNode (alter init parentNode (objects s)))).

(** [_insertSibling(siblingNode, node, index)]. *)
Definition _insertSibling (fuel : nat) (s : TreeNodeService)
    (siblingNode n : ref) (index : Z) : option TreeNodeService :=
  parentNode ← getParent fuel s siblingNode;
  let s1 :=
    match parentNode with
    | Some p =>
        match children_of (objects s) p with
        | Some cs =>
            set_objects s
              (alter (λ nd, mkTreeNode (name nd)
                        (Some (JsArray.splice cs (JsArray.indexOf cs siblingNode + index) 0 [n])))
                 p (objects s))
        | None =>
            set__data s
              (JsArray.splice (_data s) (JsArray.indexOf (_data s) siblingNode + index) 0 [n])
        end
    | None =>
        set__data s
          (JsArray.splice (_data s) (JsArray.indexOf (_data s) siblingNode + index) 0 [n])
    end in
  update fuel s1.

(** [insertBefore(siblingNode, node)] and [insertAfter(siblingNode, node)]. *)
Definition insertBefore (fuel : nat) (s : TreeNodeService) (siblingNode n : ref) :=
  _insertSibling fuel s siblingNode n 0.
Definition insertAfter (fuel : nat) (s : TreeNodeService) (siblingNode n : ref) :=
  _insertSibling fuel s siblingNode n 1.

(** The array a call of [_delete] scans: [this._data] or a node's [children]. *)
Inductive array_loc := RootArray | ChildrenOf (r : ref).

Definition read_array (s : TreeNodeService) (a : array_loc) : option (list ref) :=
  match a with
  | RootArray => Some (_data s)
  | ChildrenOf r => children_of (objects s) r
  end.

Definition write_array (s : TreeNodeService) (a : array_loc) (l : list ref)
  : TreeNodeService :=
  match a with
  | RootArray => set__data s l
  | ChildrenOf r =>
      set_objects s (alter (λ nd, mkTreeNode (name nd) (Some l)) r (objects s))
  end.

(** [_delete(nodes, node)]; [fuel] bounds the recursion depth. *)
Fixpoint _delete (fuel : nat) (s : TreeNodeService) (nodes : array_loc) (n : ref)
  : option TreeNodeService :=
  match fuel with
  | O => None
  | S fuel' =>
      arr ← read_array s nodes;
      let index := JsArray.indexOf arr n in
      if decide (index > -1) then
        Some (write_array s nodes (JsArray.splice arr index 1 []))
      else
        for_each
          (λ s' _node,
             match children_of (objects s') _node with
             | Some cs =>
                 if decide (0 < length cs)%nat
                 then _delete fuel' s' (ChildrenOf _node) n
                 else Some s'
             | None => Some s'
             end)
          s arr
  end.

(** [delete(node)]; the root array is one level above the root nodes. *)
Definition delete (fuel : nat) (s : TreeNodeService) (n : ref)
  : option TreeNodeService :=
  s1 ← _delete (S fuel) s RootArray n;
  update fuel s1.

(** Modelled from the spec: the copy of the elements of an array by
    [cloneDeep], which threads the object store through them. *)
Fixpoint clone_all (rec : gmap ref TreeNode → ref → option (gmap ref TreeNode * ref))
    (h : gmap ref TreeNode) (l : list ref) : option (gmap ref TreeNode * list ref) :=
  match l with
  | [] => Some (h, [])
  | x :: l' =>
      '(h1, y) ← rec h x;
      '(h2, ys) ← clone_all rec h1 l';
      Some (h2, y :: ys)
  end.

(** Modelled from the spec: [cloneDeep] of lodash, which is not part of this
    repository: it produces a deep, fully independent copy of its argument
    (new ownership, no aliasing with the source subtree).  Every object of the
    subtree is copied into a newly allocated object; [name] is an immutable
    string and is copied as it is.  [fuel] bounds the nesting depth.  An
    object that occurs several times below [value] is copied here once for
    each occurrence, where lodash copies it once and keeps the sharing; the
    two agree on a subtree in which every object occurs once. *)
Fixpoint cloneDeep (fuel : nat) (h : gmap ref TreeNode) (value : ref)
  : option (gmap ref TreeNode * ref) :=
  match fuel with
  | O => None
  | S fuel' =>
      nd ← h !! value;
      '(h1, cs') ← match children nd with
                   | None => Some (h, None)
                   | Some cs =>
                       '(h1, cs') ← clone_all (cloneDeep fuel') h cs;
                       Some (h1, Some cs')
                   end;
      let result := fresh (dom h1) in
      Some (<[result := mkTreeNode (name nd) cs']> h1, result)
  end.

(** [cloneAsChild(originalNode, parentNode)]. *)
Definition cloneAsChild (fuel : nat) (s : TreeNodeService)
    (originalNode parentNode : ref) : option (TreeNodeService * ref) :=
  '(h1, clonedNode) ← cloneDeep fuel (objects s) originalNode;
  '(h2, inserted) ← cloneDeep fuel h1 originalNode;
  s' ← insertChild fuel (set_objects s h2) parentNode inserted;
  Some (s', clonedNode).

(** [cloneAsSiblingBefore(originalNode, siblingNode)]. *)
Definition cloneAsSiblingBefore (fuel : nat) (s : TreeNodeService)
    (originalNode siblingNode : ref) : option (TreeNodeService * ref) :=
  '(h1, clonedNode) ← cloneDeep fuel (objects s) originalNode;
  s' ← insertBefore fuel (set_objects s h1) siblingNode clonedNode;
  Some (s', clonedNode).

(** [cloneAsSiblingAfter(originalNode, siblingNode)]. *)
Definition cloneAsSiblingAfter (fuel : nat) (s : TreeNodeService)
    (originalNode siblingNode : ref) : option (TreeNodeService * ref) :=
  '(h1, clonedNode) ← cloneDeep fuel (objects s) originalNode;
  s' ← insertAfter fuel (set_objects s h1) siblingNode clonedNode;
  Some (s', clonedNode).

(** ** Expansion coordination *)

(** The [for] loop of [toggleNode] over [treeControl.dataNodes]. *)
Fixpoint toggle_loop (fo : gmap fref TreeFlatNode) (flatNode : fref)
    (nodePath : list ref) (c : FlatTreeControl) (l : list fref)
  : option FlatTreeControl :=
  match l with
  | [] => Some c
  | n :: l' =>
      if decide (n = flatNode) then toggle_loop fo flatNode nodePath (expand c n) l'
      else
        fl ← fo !! n;
        if JsArray.includes nodePath (node fl)
        then toggle_loop fo flatNode nodePath (expand c n) l'
        else toggle_loop fo flatNode nodePath (collapse c n) l'
  end.

(** [toggleNode(flatNode)]. *)
Definition toggleNode (fuel : nat) (s : TreeNodeService) (flatNode : fref)
  : option TreeNodeService :=
  if isExpanded (treeControl s) flatNode then
    Some (set_treeControl s (collapse (treeControl s) flatNode))
  else
    fl ← flatObjects s !! flatNode;
    nodePath ← getNodePath fuel s (node fl);
    c ← toggle_loop (flatObjects s) flatNode nodePath (treeControl s)
          (dataNodes (treeControl s));
    Some (set_treeControl s c).

(** [expandLevel(level)]. *)
Fixpoint expandLevel_loop (fo : gmap fref TreeFlatNode) (lvl : Z)
    (c : FlatTreeControl) (l : list fref) : option FlatTreeControl :=
  match l with
  | [] => Some c
  | n :: l' =>
      fl ← fo !! n;
      expandLevel_loop fo lvl (if decide (level fl = lvl) then expand c n else c) l'
  end.

Definition expandLevel (s : TreeNodeService) (lvl : Z) : option TreeNodeService :=
  c ← expandLevel_loop (flatObjects s) lvl (treeControl s) (dataNodes (treeControl s));
  Some (set_treeControl s c).

(** ** Tree shape *)

(** The elements of [node.children], none when the array is undefined. *)
Definition children_list (h : gmap ref TreeNode) (r : ref) : list ref :=
  default [] (children_of h r).

(** Depth-first listing of a sequence of subtrees. *)
Fixpoint gather (rec : ref → option (list ref)) (l : list ref) : option (list ref) :=
  match l with
  | [] => Some []
  | x :: l' => a ← rec x; b ← gather rec l'; Some (a ++ b)
  end.

(** The objects of the subtree below [r] in depth-first order, [r] first;
    [None] when the subtree is nested deeper than [fuel] or refers to a
    reference without object. *)
Fixpoint subtree (fuel : nat) (h : gmap ref TreeNode) (r : ref) : option (list ref) :=
  match fuel with
  | O => None
  | S fuel' =>
      nd ← h !! r;
      l ← gather (subtree fuel' h) (default [] (children nd));
      Some (r :: l)
  end.

(** All objects of the tree held by the service, in depth-first order. *)
Definition descendants (fuel : nat) (s : TreeNodeService) : option (list ref) :=
  gather (subtree fuel (objects s)) (_data s).

(** The service holds a tree: the traversal ends and meets every object once,
    which is the exclusive ownership of children by their parent. *)
Definition tree_shaped (fuel : nat) (s : TreeNodeService) (l : list ref) : Prop :=
  descendants fuel s = Some l ∧ NoDup l.

(** What a search below [r] answers. *)
Definition parent_answer (h : gmap ref TreeNode) (n : ref) (l : list ref)
    (res : option ref) : Prop :=
  match res with
  | Some p => p ∈ l ∧ n ∈ children_list h p
  | None => ∀ p, p ∈ l → n ∉ children_list h p
  end.

(** Each element of [p] is in the children array of its predecessor. *)
Definition linked (h : gmap ref TreeNode) (p : list ref) : Prop :=
  ∀ i a b, p !! i = Some a → p !! S i = Some b → b ∈ children_list h a.

(** What [update] never touches while it flattens. *)
Definition same_tree (s s' : TreeNodeService) : Prop :=
  objects s' = objects s ∧ _data s' = _data s ∧
  treeControl s' = treeControl s ∧ dataSubject s' = dataSubject s.

(** The service after the first [n] has been spliced out of the children
    array of [p]. *)
Definition remove_child (s : TreeNodeService) (p n : ref) : TreeNodeService :=
  let cs := children_list (objects s) p in
  write_array s (ChildrenOf p) (JsArray.splice cs (JsArray.indexOf cs n) 1 []).

(** The body of the [for ... of] loop of [_delete]. *)
Definition delete_body (fuel : nat) (n : ref) (s' : TreeNodeService) (_node : ref)
  : option TreeNodeService :=
  match children_of (objects s') _node with
  | Some cs =>
      if decide (0 < length cs)%nat
      then _delete fuel s' (ChildrenOf _node) n
      else Some s'
  | None => Some s'
  end.

(** What [_delete] does on the children array of the root of a subtree. *)
Definition delete_spec (fuel : nat) (n : ref) : Prop :=
  ∀ (s : TreeNodeService) (r : ref) (l cs : list ref),
    subtree fuel (objects s) r = Some l → NoDup l →
    children_of (objects s) r = Some cs →
    ((∀ p, p ∈ l → n ∉ children_list (objects s) p) →
     _delete fuel s (ChildrenOf r) n = Some s) ∧
    (∀ p, p ∈ l → n ∈ children_list (objects s) p →
          _delete fuel s (ChildrenOf r) n = Some (remove_child s p n)).

(** ** Content of a subtree *)

(** A node compared by content: its [name] and, recursively, its children;
    the references of the objects are left out. *)
#[warnings="-register-all"]
Inductive content := Content (nm : string) (cs : option (list content)).

(** The content of the subtree below [r], as a deep equality sees it. *)
Fixpoint content_of (fuel : nat) (h : gmap ref TreeNode) (r : ref) : option content :=
  match fuel with
  | O => None
  | S fuel' =>
      nd ← h !! r;
      match children nd with
      | None => Some (Content (name nd) None)
      | Some cs =>
          cts ← mapM (content_of fuel' h) cs;
          Some (Content (name nd) (Some cts))
      end
  end.

(** What a deep copy of the subtree below [o] gives: the store only grows,
    the copy [c] is the root of a subtree of objects that did not exist
    before, and this subtree has the content of the original. *)
Definition clone_spec (fuel : nat) (h : gmap ref TreeNode) (o : ref)
    (h' : gmap ref TreeNode) (c : ref) : Prop :=
  h ⊆ h' ∧
  (∃ lc, subtree fuel h' c = Some lc ∧ ∀ x, x ∈ lc → h !! x = None) ∧
  (∃ ct, content_of fuel h o = Some ct ∧ content_of fuel h' c = Some ct).


(** ** Flat nodes of the tree *)

(** Every flat node is the one registered for its tree node, and every entry
    of [nodeMap] leads to a flat node of its key: no two flat nodes stand for
    the same tree node. *)
Definition one_flat_per_node (s : TreeNodeService) : Prop :=
  (∀ f fl, flatObjects s !! f = Some fl → nodeMap s !! node fl = Some f) ∧
  (∀ n f, nodeMap s !! n = Some f →
          ∃ fl, flatObjects s !! f = Some fl ∧ node fl = n).

(** What an operation may do to the flat nodes: keep the invariant and keep
    every registration. *)
Definition flat_step (s s' : TreeNodeService) : Prop :=
  (one_flat_per_node s → one_flat_per_node s') ∧
  (∀ n f, nodeMap s !! n = Some f → nodeMap s' !! n = Some f).

(** The operations of the service. *)
Inductive operation :=
  | OpSetData (nodes : list ref)
  | OpUpdate
  | OpTransformer (n : ref) (lvl : Z)
  | OpInsertChild (parentNode n : ref)
  | OpInsertBefore (siblingNode n : ref)
  | OpInsertAfter (siblingNode n : ref)
  | OpDelete (n : ref)
  | OpCloneAsChild (originalNode parentNode : ref)
  | OpCloneAsSiblingBefore (originalNode siblingNode : ref)
  | OpCloneAsSiblingAfter (originalNode siblingNode : ref)
  | OpToggleNode (flatNode : fref)
  | OpExpandLevel (lvl : Z).

(** The service after an operation. *)
Definition run (fuel : nat) (s : TreeNodeService) (op : operation)
  : option TreeNodeService :=
  match op with
  | OpSetData nodes => set_data fuel s nodes
  | OpUpdate => update fuel s
  | OpTransformer n lvl => Some (transformer s n lvl).1
  | OpInsertChild p n => insertChild fuel s p n
  | OpInsertBefore sib n => insertBefore fuel s sib n
  | OpInsertAfter sib n => insertAfter fuel s sib n
  | OpDelete n => delete fuel s n
  | OpCloneAsChild o p => fst <$> cloneAsChild fuel s o p
  | OpCloneAsSiblingBefore o sib => fst <$> cloneAsSiblingBefore fuel s o sib
  | OpCloneAsSiblingAfter o sib => fst <$> cloneAsSiblingAfter fuel s o sib
  | OpToggleNode f => toggleNode fuel s f
  | OpExpandLevel lvl => expandLevel s lvl
  end.

(** The flat node [n] stands for the tree node [x]. *)
Definition stands_for (s : TreeNodeService) (n : fref) (x : ref) : Prop :=
  node <$> flatObjects s !! n = Some x.

(** [dataNodes] lists, in depth-first order, the flat nodes of the nodes [l]. *)
Definition flattened (s : TreeNodeService) (l : list ref) : Prop :=
  Forall2 (stands_for s) (dataNodes (treeControl s)) l.

(** Flat nodes keep the tree node they stand for. *)
Definition flat_stable (s s' : TreeNodeService) : Prop :=
  ∀ n x, stands_for s n x → stands_for s' n x.

(** What flattening a sequence of subtrees appends to the result. *)
Definition flatten_spec (fuel : nat) (lvl : Z) : Prop :=
  ∀ (acc : TreeNodeService * list fref) (n : ref) (ln : list ref)
    (acc' : TreeNodeService * list fref),
    one_flat_per_node acc.1 → subtree fuel (objects acc.1) n = Some ln →
    _flattenNode fuel acc lvl n = Some acc' →
    ∃ fs, acc'.2 = acc.2 ++ fs ∧ Forall2 (stands_for acc'.1) fs ln ∧
          flat_stable acc.1 acc'.1 ∧ one_flat_per_node acc'.1.

(** ** Levels of the flat nodes *)

(** The flat node [f] carries what the transformer computes for its node when
    it is called with the level [depth] gives to the node. *)
Definition up_to_date (depth : ref → Z) (s : TreeNodeService) (f : fref) : Prop :=
  ∃ fl, flatObjects s !! f = Some fl ∧ level fl = depth (node fl) ∧
        expandable fl = has_children (objects s) (node fl).

(** What flattening a subtree whose levels follow [depth] does to the flat
    nodes: those that were up to date stay so, and every flat node appended to
    the result is up to date. *)
Definition level_spec (depth : ref → Z) (fuel : nat) : Prop :=
  ∀ (acc : TreeNodeService * list fref) (n : ref) (ln : list ref)
    (acc' : TreeNodeService * list fref),
    one_flat_per_node acc.1 → subtree fuel (objects acc.1) n = Some ln →
    (∀ p c, p ∈ ln → c ∈ children_list (objects acc.1) p → depth c = depth p + 1) →
    _flattenNode fuel acc (depth n) n = Some acc' →
    (∀ f, up_to_date depth acc.1 f → up_to_date depth acc'.1 f) ∧
    (∀ f, f ∈ acc'.2 → f ∈ acc.2 ∨ up_to_date depth acc'.1 f).

(** ** Arrays after an insertion *)

(** The array [pre ++ sib :: post] after [n] has been put in front of [sib]
    (index 0) or behind it (index 1). *)
Definition inserted_at (index : Z) (pre : list ref) (sib : ref) (post : list ref)
    (n : ref) : list ref :=
  if decide (index = 0) then pre ++ n :: sib :: post else pre ++ sib :: n :: post.

(** ** The data of the test suite *)

Module Fixture.
(** Objects 1, 2, 3 are TestA, TestB, TestC of [beforeEach]; 4 and 5 are
    nodes that are not in the tree. *)
Definition A : ref := 1%nat.
Definition B : ref := 2%nat.
Definition C : ref := 3%nat.
Definition Z : ref := 4%nat.
Definition D : ref := 5%nat.

Definition store : gmap ref TreeNode :=
  <[A := mkTreeNode "TestA" (Some [B])]>
  (<[B := mkTreeNode "TestB" (Some [C])]>
  (<[C := mkTreeNode "TestC" None]>
  (<[Z := mkTreeNode "TestZ" None]>
  (<[D := mkTreeNode "TestD" None]> ∅)))).

(** The service as the constructor leaves it. *)
Definition created : TreeNodeService :=
  mkService store ∅ ∅ (mkFlatTreeControl [] ∅) [] [].

(** The service after [beforeEach] has assigned the data: the flat nodes
    0, 1, 2 stand for TestA, TestB, TestC. *)
Definition service : TreeNodeService :=
  mkService store
    (<[0%nat := mkTreeFlatNode A true 0]>
     (<[1%nat := mkTreeFlatNode B true 1]>
     (<[2%nat := mkTreeFlatNode C false 2]> ∅)))
    (<[A := 0%nat]> (<[B := 1%nat]> (<[C := 2%nat]> ∅)))
    (mkFlatTreeControl [0; 1; 2]%nat ∅)
    [A]
    [[A]].
End Fixture.

(** A structure that is not a tree: TestC is a child of TestA and of TestB. *)
Module SharedFixture.
Definition service : TreeNodeService :=
  set_objects Fixture.service
    (<[Fixture.A := mkTreeNode "TestA" (Some [Fixture.B; Fixture.C])]>
       Fixture.store).
End SharedFixture.

(** The test data with a second root: TestZ stands next to TestA in the root
    array, the flat nodes 0 to 3 stand for TestA, TestB, TestC and TestZ, and
    TestE (object 6) is one more node outside the tree. *)
Module RootsFixture.
Definition E : ref := 6%nat.

Definition store : gmap ref TreeNode :=
  <[E := mkTreeNode "TestE" None]> Fixture.store.

Definition created : TreeNodeService :=
  mkService store ∅ ∅ (mkFlatTreeControl [] ∅) [] [].

Definition service : TreeNodeService :=
  mkService store
    (<[0%nat := mkTreeFlatNode Fixture.A true 0]>
     (<[1%nat := mkTreeFlatNode Fixture.B true 1]>
     (<[2%nat := mkTreeFlatNode Fixture.C false 2]>
     (<[3%nat := mkTreeFlatNode Fixture.Z false 0]> ∅))))
    (<[Fixture.A := 0%nat]> (<[Fixture.B := 1%nat]> (<[Fixture.C := 2%nat]>
     (<[Fixture.Z := 3%nat]> ∅))))
    (mkFlatTreeControl [0; 1; 2; 3]%nat ∅)
    [Fixture.A; Fixture.Z]
    [[Fixture.A; Fixture.Z]].
End RootsFixture.

(** * Lemmas *)

(** ** Lemmas on the array primitives *)

Section array_lemmas.
Context {A : Type} `{EqDecision A}.
Implicit Types (l : list A) (x : A).

Lemma indexOf_ge l x : -1 ≤ JsArray.indexOf l x.
Proof.
  induction l as [|y l IH]; simpl; [lia|].
  repeat case_decide; lia.
Qed.

Lemma indexOf_absent l x : x ∉ l → JsArray.indexOf l x = -1.
Proof.
  induction l as [|y l IH]; simpl; [done|].
  intros Hx. apply not_elem_of_cons in Hx as [Hne Hx].
  rewrite IH by done. case_decide; [congruence|]. by case_decide.
Qed.

Lemma indexOf_present l x :
  x ∈ l →
  ∃ pre post, l = pre ++ x :: post ∧ (x ∉ pre) ∧
              JsArray.indexOf l x = Z.of_nat (length pre).
Proof.
  induction l as [|y l IH]; simpl; [by intros ?%elem_of_nil|].
  intros Hx. destruct (decide (y = x)) as [->|Hne].
  - exists [], l. split_and!; [done|apply not_elem_of_nil|done].
  - apply elem_of_cons in Hx as [?|Hx]; [congruence|].
    destruct (IH Hx) as (pre & post & -> & Hpre & Hi).
    exists (y :: pre), post. split_and!; [done| |].
    + apply not_elem_of_cons. split; [congruence|done].
    + rewrite Hi. case_decide; [lia|]. simpl. lia.
Qed.

Lemma indexOf_found l x : JsArray.indexOf l x > -1 ↔ x ∈ l.
Proof.
  split.
  - intros Hi. destruct (decide (x ∈ l)) as [|Hn]; [done|].
    apply indexOf_absent in Hn. lia.
  - intros (pre & post & _ & _ & ->)%indexOf_present. lia.
Qed.

(** [splice(indexOf(x), 1)] removes the first occurrence of [x]. *)
Lemma splice_remove_first pre post x :
  x ∉ pre →
  JsArray.splice (pre ++ x :: post) (JsArray.indexOf (pre ++ x :: post) x) 1 []
  = pre ++ post.
Proof.
  intros Hpre.
  assert (JsArray.indexOf (pre ++ x :: post) x = Z.of_nat (length pre)) as ->.
  { clear -Hpre. induction pre as [|y pre IH]; simpl.
    - by rewrite decide_True.
    - apply not_elem_of_cons in Hpre as [Hne Hpre].
      rewrite decide_False by congruence. rewrite IH by done.
      rewrite decide_False by lia. lia. }
  unfold JsArray.splice, JsArray.relativeStart.
  rewrite decide_False by lia. rewrite length_app. simpl.
  replace (Z.to_nat _) with (length pre) by lia.
  rewrite take_app_length. simpl.
  replace (length pre + 1)%nat with (length pre + 1)%nat by done.
  rewrite drop_app_add'; [|done]. done.
Qed.

(** [splice(-1, 0, x)] inserts before the last element. *)
Lemma splice_minus_one l x :
  JsArray.splice l (-1) 0 [x]
  = take (length l - 1) l ++ x :: drop (length l - 1) l.
Proof.
  unfold JsArray.splice, JsArray.relativeStart. rewrite decide_True by lia.
  replace (Z.to_nat _) with (length l - 1)%nat by lia.
  by rewrite Nat.add_0_r.
Qed.

(** [splice(0, 0, x)] inserts at the front. *)
Lemma splice_zero l x : JsArray.splice l 0 0 [x] = x :: l.
Proof.
  unfold JsArray.splice, JsArray.relativeStart. rewrite decide_False by lia.
  replace (Z.to_nat _) with 0%nat by lia. by rewrite take_0, drop_0.
Qed.

Lemma elem_of_splice_insert l k x y :
  y ∈ JsArray.splice l k 0 [x] ↔ y = x ∨ y ∈ l.
Proof.
  unfold JsArray.splice. rewrite Nat.add_0_r.
  rewrite !elem_of_app, list_elem_of_singleton.
  assert (y ∈ l ↔ y ∈ take (JsArray.relativeStart l k) l
                  ∨ y ∈ drop (JsArray.relativeStart l k) l) as Hl
    by (by rewrite <-elem_of_app, take_drop).
  tauto.
Qed.
End array_lemmas.

(** ** Lemmas on the tree shape *)

Section tree_lemmas.
Implicit Types (h : gmap ref TreeNode) (r x y : ref) (l cs : list ref).

Lemma children_list_lookup h r nd :
  h !! r = Some nd → default [] (children nd) = children_list h r.
Proof. intros Hr. unfold children_list, children_of. by rewrite Hr. Qed.

Lemma children_of_list h r cs : children_of h r = Some cs → children_list h r = cs.
Proof. unfold children_list. by intros ->. Qed.

Lemma gather_cons_Some rec x cs l :
  gather rec (x :: cs) = Some l ↔
  ∃ a b, rec x = Some a ∧ gather rec cs = Some b ∧ l = a ++ b.
Proof.
  simpl. split.
  - intros H. destruct (rec x) as [a|]; [|done]. simpl in H.
    destruct (gather rec cs) as [b|]; [|done]. simpl in H.
    exists a, b. by simplify_eq.
  - intros (a & b & -> & -> & ->). done.
Qed.

Lemma subtree_S_Some fuel h r l :
  subtree (S fuel) h r = Some l ↔
  ∃ t, is_Some (h !! r) ∧
       gather (subtree fuel h) (children_list h r) = Some t ∧ l = r :: t.
Proof.
  simpl. split.
  - intros H. destruct (h !! r) as [nd|] eqn:Hr; [|done]. simpl in H.
    rewrite (children_list_lookup _ _ _ Hr) in H.
    destruct (gather _ _) as [t|]; [|done]. simpl in H.
    exists t. split_and!; [by eexists|done|by simplify_eq].
  - intros (t & [nd Hr] & Ht & ->). rewrite Hr. simpl.
    rewrite (children_list_lookup _ _ _ Hr), Ht. done.
Qed.

Lemma subtree_O h r : subtree 0 h r = None.
Proof. done. Qed.

(** A traversal that ends lists the root first. *)
Lemma subtree_head fuel h r l : subtree fuel h r = Some l → ∃ t, l = r :: t.
Proof.
  destruct fuel; [done|]. intros (t & _ & _ & ->)%subtree_S_Some. by eexists.
Qed.

Lemma gather_ext rec1 rec2 cs :
  (∀ x, x ∈ cs → rec1 x = rec2 x) → gather rec1 cs = gather rec2 cs.
Proof.
  induction cs as [|c cs IH]; [done|]. intros Hext. simpl.
  rewrite Hext by left. rewrite IH; [done|].
  intros x Hx. apply Hext. by right.
Qed.

Lemma gather_elem rec cs l x :
  gather rec cs = Some l →
  x ∈ l ↔ ∃ c lc, c ∈ cs ∧ rec c = Some lc ∧ x ∈ lc.
Proof.
  revert l. induction cs as [|c cs IH]; intros l.
  - intros [= <-]. split; [by intros ?%elem_of_nil|].
    by intros (? & ? & ?%elem_of_nil & _).
  - intros (a & b & Ha & Hb & ->)%gather_cons_Some.
    rewrite elem_of_app, (IH _ Hb). split.
    + intros [Hx|(c' & lc & Hc & Hlc & Hx)].
      * exists c, a. split_and!; [left|done|done].
      * exists c', lc. split_and!; [by right|done|done].
    + intros (c' & lc & Hc & Hlc & Hx).
      apply elem_of_cons in Hc as [->|Hc].
      * left. congruence.
      * right. by exists c', lc.
Qed.

Lemma gather_roots rec cs l :
  (∀ c lc, rec c = Some lc → c ∈ lc) →
  gather rec cs = Some l → ∀ c, c ∈ cs → c ∈ l.
Proof.
  intros Hrec Hg c Hc.
  assert (is_Some (rec c)) as [lc Hlc].
  { clear -Hg Hc. revert l Hg. induction cs as [|c' cs IH]; intros l.
    - by apply elem_of_nil in Hc.
    - intros (a & b & Ha & Hb & ->)%gather_cons_Some.
      apply elem_of_cons in Hc as [->|Hc]; [by eexists|]. by eapply IH. }
  apply (gather_elem _ _ _ c Hg). exists c, lc. split_and!; eauto.
Qed.

Lemma subtree_root fuel h r l : subtree fuel h r = Some l → r ∈ l.
Proof. intros [t ->]%subtree_head. left. Qed.

(** More fuel never changes the result of a traversal. *)
Lemma subtree_mono fuel fuel' h r l :
  (fuel ≤ fuel')%nat → subtree fuel h r = Some l → subtree fuel' h r = Some l.
Proof.
  revert fuel' r l. induction fuel as [|fuel IH]; intros fuel' r l Hle; [done|].
  destruct fuel' as [|fuel']; [lia|].
  intros (t & Hr & Ht & ->)%subtree_S_Some. apply subtree_S_Some.
  exists t. split_and!; [done| |done].
  clear Hr. revert t Ht. generalize (children_list h r).
  induction l as [|c cs IHcs]; intros t; [done|].
  intros (a & b & Ha & Hb & ->)%gather_cons_Some. apply gather_cons_Some.
  exists a, b. split_and!; [apply IH; [lia|done]|by apply IHcs|done].
Qed.

Lemma gather_subtree_mono fuel fuel' h cs l :
  (fuel ≤ fuel')%nat →
  gather (subtree fuel h) cs = Some l → gather (subtree fuel' h) cs = Some l.
Proof.
  intros Hle. revert l. induction cs as [|c cs IH]; intros l; [done|].
  intros (a & b & Ha & Hb & ->)%gather_cons_Some. apply gather_cons_Some.
  exists a, b. split_and!; [by eapply subtree_mono|by apply IH|done].
Qed.

(** A traversal only depends on the children of the objects it meets. *)
Lemma subtree_frame fuel h h' r l :
  subtree fuel h r = Some l →
  (∀ x, x ∈ l → is_Some (h' !! x) ∧ children_list h' x = children_list h x) →
  subtree fuel h' r = Some l.
Proof.
  revert r l. induction fuel as [|fuel IH]; intros r l; [done|].
  intros (t & Hr & Ht & ->)%subtree_S_Some Hsame. apply subtree_S_Some.
  exists t. destruct (Hsame r) as [Hr' Hcr]; [left|].
  split_and!; [done| |done]. rewrite Hcr.
  assert (∀ x, x ∈ t → is_Some (h' !! x) ∧ children_list h' x = children_list h x)
    as Ht' by (intros x Hx; apply Hsame; by right).
  clear Hsame Hr Hr' Hcr. revert t Ht Ht'. generalize (children_list h r).
  induction l as [|c cs IHcs]; intros t; [done|].
  intros (a & b & Ha & Hb & ->)%gather_cons_Some Hsame.
  apply gather_cons_Some. exists a, b. split_and!; [|apply IHcs|done].
  - apply IH; [done|]. intros x Hx. apply Hsame, elem_of_app. by left.
  - done.
  - intros x Hx. apply Hsame, elem_of_app. by right.
Qed.

Lemma gather_subtree_frame fuel h h' cs l :
  gather (subtree fuel h) cs = Some l →
  (∀ x, x ∈ l → is_Some (h' !! x) ∧ children_list h' x = children_list h x) →
  gather (subtree fuel h') cs = Some l.
Proof.
  revert l. induction cs as [|c cs IH]; intros l; [done|].
  intros (a & b & Ha & Hb & ->)%gather_cons_Some Hsame.
  apply gather_cons_Some. exists a, b. split_and!; [|apply IH|done].
  - eapply subtree_frame; [done|]. intros x Hx. apply Hsame, elem_of_app. by left.
  - done.
  - intros x Hx. apply Hsame, elem_of_app. by right.
Qed.

(** The objects below the roots are, up to order, the elements of the
    children arrays of all objects of the tree. *)
Lemma gather_subtree_perm fuel h cs l :
  gather (subtree fuel h) cs = Some l →
  l ≡ₚ cs ++ mjoin (children_list h <$> l).
Proof.
  revert cs l. induction fuel as [|fuel IH]; intros cs l.
  - destruct cs as [|c cs]; [by intros [= <-]|done].
  - revert l. induction cs as [|c cs IHcs]; intros l; [by intros [= <-]|].
    intros (a & b & Ha & Hb & ->)%gather_cons_Some.
    apply subtree_S_Some in Ha as (t & _ & Ht & ->).
    apply IH in Ht. apply IHcs in Hb.
    rewrite fmap_app, join_app. simpl.
    rewrite Ht at 1. rewrite Hb at 1.
    constructor. change (list_fmap _ _ ?f ?k) with (f <$> k).
    apply Permutation_app_swap_app.
Qed.

(** Every object met by a traversal has an object behind it and is itself
    the root of a traversal that ends within the same budget. *)
Lemma subtree_inner fuel h r l x :
  subtree fuel h r = Some l → x ∈ l →
  ∃ lx, subtree fuel h x = Some lx ∧ lx ⊆ l.
Proof.
  revert r l. induction fuel as [|fuel IH]; intros r l; [done|].
  intros Hs Hx. pose proof Hs as Hs'.
  apply subtree_S_Some in Hs as (t & Hr & Ht & ->).
  apply elem_of_cons in Hx as [->|Hx]; [by exists (r :: t)|].
  apply (gather_elem _ _ _ x Ht) in Hx as (c & lc & Hc & Hlc & Hx).
  destruct (IH _ _ Hlc Hx) as (lx & Hlx & Hsub).
  exists lx. split; [eapply subtree_mono; [|done]; lia|].
  intros y Hy. right. apply (gather_elem _ _ _ y Ht).
  exists c, lc. split_and!; [done|done|by apply Hsub].
Qed.

Lemma gather_subtree_inner fuel h cs l x :
  gather (subtree fuel h) cs = Some l → x ∈ l →
  ∃ lx, subtree fuel h x = Some lx ∧ lx ⊆ l.
Proof.
  intros Hg Hx. pose proof Hx as Hx'.
  apply (gather_elem _ _ _ x Hg) in Hx as (c & lc & Hc & Hlc & Hx).
  destruct (subtree_inner _ _ _ _ _ Hlc Hx) as (lx & Hlx & Hsub).
  exists lx. split; [done|]. intros y Hy.
  apply (gather_elem _ _ _ y Hg). exists c, lc. split_and!; [done|done|by apply Hsub].
Qed.

Lemma subtree_allocated fuel h r l : subtree fuel h r = Some l → is_Some (h !! r).
Proof. destruct fuel; [done|]. by intros (t & Hr & _)%subtree_S_Some. Qed.

(** The children of an object of the tree are objects of the tree. *)
Lemma gather_subtree_child fuel h cs l p x :
  gather (subtree fuel h) cs = Some l → p ∈ l → x ∈ children_list h p → x ∈ l.
Proof.
  intros Hg Hp Hx. rewrite (gather_subtree_perm _ _ _ _ Hg).
  apply elem_of_app. right. apply list_elem_of_join.
  exists (children_list h p). split; [done|]. by apply list_elem_of_fmap_2.
Qed.
End tree_lemmas.

(** ** Parents in a tree *)

Section parent_lemmas.
Implicit Types (h : gmap ref TreeNode) (r x y : ref) (l cs : list ref).

Lemma NoDup_join_unique {A B : Type} (f : A → list B) (k : list A) a b z :
  NoDup (mjoin (f <$> k)) → a ∈ k → b ∈ k → z ∈ f a → z ∈ f b →
  NoDup k → a = b.
Proof.
  induction k as [|c k IH]; [by intros _ ?%elem_of_nil|].
  rewrite fmap_cons. simpl. intros (Hc & Hdisj & Hk)%NoDup_app.
  intros Ha Hb Hza Hzb (Hck & Hnd)%NoDup_cons.
  apply elem_of_cons in Ha as [->|Ha]; apply elem_of_cons in Hb as [->|Hb].
  - done.
  - exfalso. apply (Hdisj z Hza). apply list_elem_of_join.
    exists (f b). split; [done|]. by apply list_elem_of_fmap_2.
  - exfalso. apply (Hdisj z Hzb). apply list_elem_of_join.
    exists (f a). split; [done|]. by apply list_elem_of_fmap_2.
  - by apply IH.
Qed.

(** In a tree an object is in the children array of one object at most. *)
Lemma tree_parent_unique fuel h cs l p q x :
  gather (subtree fuel h) cs = Some l → NoDup l →
  p ∈ l → q ∈ l → x ∈ children_list h p → x ∈ children_list h q → p = q.
Proof.
  intros Hg Hnd Hp Hq Hxp Hxq.
  pose proof Hnd as Hnd'. rewrite (gather_subtree_perm _ _ _ _ Hg) in Hnd'.
  apply NoDup_app in Hnd' as (_ & _ & Hj).
  by eapply (NoDup_join_unique (children_list h) l p q x).
Qed.

(** In a tree a root is in no children array. *)
Lemma tree_root_no_parent fuel h cs l p x :
  gather (subtree fuel h) cs = Some l → NoDup l →
  x ∈ cs → p ∈ l → x ∉ children_list h p.
Proof.
  intros Hg Hnd Hx Hp Hxp.
  rewrite (gather_subtree_perm _ _ _ _ Hg) in Hnd.
  apply NoDup_app in Hnd as (_ & Hdisj & _).
  apply (Hdisj x Hx). apply list_elem_of_join.
  exists (children_list h p). split; [done|]. by apply list_elem_of_fmap_2.
Qed.

Lemma first_found_children fuel h n r cs t :
  (∀ c lc, subtree fuel h c = Some lc →
           ∃ res, _getParent fuel h n c = Some res ∧ parent_answer h n lc res) →
  gather (subtree fuel h) cs = Some t →
  ∃ res,
    first_found
      (λ childNode,
         if decide (childNode = n) then Some (Some r)
         else _getParent fuel h n childNode) cs = Some res ∧
    match res with
    | Some p => (p = r ∧ n ∈ cs) ∨ (p ∈ t ∧ n ∈ children_list h p)
    | None => (n ∉ cs) ∧ ∀ p, p ∈ t → n ∉ children_list h p
    end.
Proof.
  intros IH. revert t. induction cs as [|c cs IHcs]; intros t.
  - intros [= <-]. exists None. split; [done|].
    split; [apply not_elem_of_nil|by intros ? ?%elem_of_nil].
  - intros (a & b & Ha & Hb & ->)%gather_cons_Some. simpl.
    destruct (decide (c = n)) as [->|Hne].
    { exists (Some r). split; [done|]. left. split; [done|left]. }
    destruct (IH _ _ Ha) as (res & -> & Hres).
    destruct res as [p|]; simpl in Hres.
    { exists (Some p). split; [done|]. right. destruct Hres.
      split; [apply elem_of_app; by left|done]. }
    destruct (IHcs _ Hb) as (res & -> & Hres').
    exists res. split; [done|]. destruct res as [p|].
    + destruct Hres' as [[-> ?]|[? ?]]; [left|right].
      * split; [done|by right].
      * split; [apply elem_of_app; by right|done].
    + destruct Hres' as [? Hnone]. split.
      * apply not_elem_of_cons. split; [congruence|done].
      * intros p [Hp|Hp]%elem_of_app; [by apply Hres|by apply Hnone].
Qed.

(** [_getParent] answers for every subtree whose traversal ends. *)
Lemma _getParent_subtree fuel h n r l :
  subtree fuel h r = Some l →
  ∃ res, _getParent fuel h n r = Some res ∧ parent_answer h n l res.
Proof.
  revert r l. induction fuel as [|fuel IH]; intros r l; [done|].
  intros (t & Hr & Ht & ->)%subtree_S_Some. simpl.
  destruct (children_of h r) as [cs|] eqn:Hcs.
  - rewrite (children_of_list _ _ _ Hcs) in Ht.
    destruct (first_found_children fuel h n r cs t IH Ht) as (res & -> & Hres).
    exists res. split; [done|]. destruct res as [p|]; simpl.
    + destruct Hres as [[-> ?]|[? ?]].
      * split; [left|]. by rewrite (children_of_list _ _ _ Hcs).
      * split; [by right|done].
    + destruct Hres as [? Hnone].
      intros p [->|Hp]%elem_of_cons; [|by apply Hnone].
      by rewrite (children_of_list _ _ _ Hcs).
  - exists None. split; [done|]. simpl.
    unfold children_list in Ht. rewrite Hcs in Ht. simpl in Ht.
    injection Ht as <-. intros p ->%list_elem_of_singleton.
    unfold children_list. rewrite Hcs. apply not_elem_of_nil.
Qed.

Lemma first_found_roots fuel h n cs l :
  gather (subtree fuel h) cs = Some l →
  ∃ res, first_found (_getParent fuel h n) cs = Some res ∧ parent_answer h n l res.
Proof.
  revert l. induction cs as [|c cs IH]; intros l.
  - intros [= <-]. exists None. split; [done|]. by intros ? ?%elem_of_nil.
  - intros (a & b & Ha & Hb & ->)%gather_cons_Some. simpl.
    destruct (_getParent_subtree _ _ n _ _ Ha) as (res & -> & Hres).
    destruct res as [p|]; simpl in Hres.
    { exists (Some p). split; [done|]. destruct Hres.
      split; [apply elem_of_app; by left|done]. }
    destruct (IH _ Hb) as (res & -> & Hres').
    exists res. split; [done|]. destruct res as [p|]; simpl in *.
    + destruct Hres'. split; [apply elem_of_app; by right|done].
    + intros p [Hp|Hp]%elem_of_app; [by apply Hres|by apply Hres'].
Qed.

(** [getParent] answers on every tree. *)
Lemma getParent_answer fuel s l n :
  descendants fuel s = Some l →
  ∃ res, getParent fuel s n = Some res ∧ parent_answer (objects s) n l res.
Proof. apply first_found_roots. Qed.

Lemma getParent_child fuel s l n p :
  tree_shaped fuel s l → p ∈ l → n ∈ children_list (objects s) p →
  getParent fuel s n = Some (Some p).
Proof.
  intros [Hd Hnd] Hp Hn.
  destruct (getParent_answer fuel s l n Hd) as (res & -> & Hres).
  destruct res as [q|]; simpl in Hres.
  - destruct Hres as [Hq Hnq]. do 2 f_equal.
    by eapply (tree_parent_unique fuel (objects s) (_data s) l q p n).
  - by destruct (Hres p Hp).
Qed.

Lemma getParent_null fuel s l n :
  descendants fuel s = Some l →
  (∀ p, p ∈ l → n ∉ children_list (objects s) p) →
  getParent fuel s n = Some None.
Proof.
  intros Hd Hn.
  destruct (getParent_answer fuel s l n Hd) as (res & -> & Hres).
  destruct res as [q|]; simpl in Hres; [|done].
  destruct Hres as [Hq Hnq]. by destruct (Hn q Hq).
Qed.

Lemma getParent_root fuel s l n :
  tree_shaped fuel s l → n ∈ _data s → getParent fuel s n = Some None.
Proof.
  intros [Hd Hnd] Hn. apply (getParent_null fuel s l n Hd).
  intros p Hp. by eapply tree_root_no_parent.
Qed.

Lemma getParent_absent fuel s l n :
  descendants fuel s = Some l → n ∉ l → getParent fuel s n = Some None.
Proof.
  intros Hd Hn. apply (getParent_null fuel s l n Hd).
  intros p Hp Hnp. apply Hn. by eapply gather_subtree_child.
Qed.

(** An object of the tree is a root or a child of an object of the tree. *)
Lemma tree_root_or_child fuel h cs l x :
  gather (subtree fuel h) cs = Some l → x ∈ l →
  x ∈ cs ∨ ∃ p, p ∈ l ∧ x ∈ children_list h p.
Proof.
  intros Hg Hx. rewrite (gather_subtree_perm _ _ _ _ Hg) in Hx.
  apply elem_of_app in Hx as [Hx|Hx]; [by left|right].
  apply list_elem_of_join in Hx as (k & Hx & Hk).
  apply list_elem_of_fmap in Hk as (p & -> & Hp). by exists p.
Qed.
End parent_lemmas.

(** ** Paths in a tree *)

Section path_lemmas.
Implicit Types (h : gmap ref TreeNode) (r x y : ref) (l cs p : list ref).

Lemma getNodePath_loop_None n fuel s p :
  getNodePath_loop n fuel s p None = Some p.
Proof. by destruct n. Qed.

Lemma linked_cons h r c p :
  c ∈ children_list h r → head p = Some c → linked h p → linked h (r :: p).
Proof.
  intros Hc Hhd Hp [|i] a b; simpl.
  - intros [= <-] Hb. destruct p; simplify_eq/=. done.
  - apply Hp.
Qed.

Lemma linked_snoc_inv h p b a :
  linked h ((p ++ [b]) ++ [a]) → linked h (p ++ [b]) ∧ a ∈ children_list h b.
Proof.
  intros Hl. split.
  - intros i x y Hx Hy. apply (Hl i x y).
    + apply lookup_app_l_Some. done.
    + apply lookup_app_l_Some. done.
  - apply (Hl (length p) b a).
    + rewrite <-(assoc_L (++)). by apply list_lookup_middle.
    + rewrite lookup_app_r; rewrite length_app; simpl; [|lia].
      by replace (S (length p) - (length p + 1))%nat with 0%nat by lia.
Qed.

(** Every object of a subtree is linked to its root by a path that is not
    longer than the depth of the traversal. *)
Lemma subtree_chain fuel h r l x :
  subtree fuel h r = Some l → x ∈ l →
  ∃ p, head p = Some r ∧ last p = Some x ∧ linked h p ∧
       (length p ≤ fuel)%nat ∧ ∀ y, y ∈ p → y ∈ l.
Proof.
  revert r l. induction fuel as [|fuel IH]; intros r l; [done|].
  intros (t & Hr & Ht & ->)%subtree_S_Some Hx.
  apply elem_of_cons in Hx as [->|Hx].
  - exists [r]. split_and!; [done|done| |simpl; lia|].
    + intros [|i] a b; simpl; [done|]. by rewrite lookup_nil.
    + intros y ->%list_elem_of_singleton. left.
  - apply (gather_elem _ _ _ x Ht) in Hx as (c & lc & Hc & Hlc & Hx).
    destruct (IH _ _ Hlc Hx) as (p & Hhd & Hlast & Hlink & Hlen & Hsub).
    exists (r :: p). split_and!; [done| |by eapply linked_cons|simpl; lia|].
    + destruct p; simplify_eq/=. done.
    + intros y [->|Hy]%elem_of_cons; [left|right].
      apply (gather_elem _ _ _ y Ht). exists c, lc. eauto.
Qed.

(** The loop of [getNodePath] climbs a path of the tree up to its root. *)
Lemma getNodePath_loop_climb fuel s l :
  tree_shaped fuel s l →
  ∀ p a acc n r0,
    linked (objects s) (p ++ [a]) → (∀ y, y ∈ p ++ [a] → y ∈ l) →
    head (p ++ [a]) = Some r0 → r0 ∈ _data s → (length p < n)%nat →
    getNodePath_loop n fuel s acc (Some a) = Some (acc ++ a :: reverse p).
Proof.
  intros Htree p. induction p as [|b p IH] using rev_ind;
    intros a acc n r0 Hlink Hin Hhd Hroot Hlen.
  - simpl in Hhd. injection Hhd as <-.
    destruct n as [|n]; [simpl in Hlen; lia|]. simpl.
    rewrite (getParent_root fuel s l a Htree Hroot). simpl. by destruct n.
  - apply linked_snoc_inv in Hlink as [Hlink Hab].
    rewrite length_app in Hlen. simpl in Hlen.
    destruct n as [|n]; [lia|]. simpl.
    assert (b ∈ l) as Hb.
    { apply Hin. apply elem_of_app. left. apply elem_of_app. right. left. }
    rewrite (getParent_child fuel s l a b Htree Hb Hab). simpl.
    rewrite (IH b (JsArray.push acc a) n r0).
    + unfold JsArray.push. by rewrite reverse_app, <-(assoc_L (++)).
    + done.
    + intros y Hy. apply Hin. apply elem_of_app. by left.
    + destruct p; done.
    + done.
    + lia.
Qed.

(** [getNodePath] of an object of the tree is the path from a root to it. *)
Lemma getNodePath_chain fuel s l x :
  tree_shaped fuel s l → x ∈ l →
  ∃ p r0, getNodePath fuel s x = Some p ∧ last p = Some x ∧
          linked (objects s) p ∧ head p = Some r0 ∧ r0 ∈ _data s ∧
          ∀ y, y ∈ p → y ∈ l.
Proof.
  intros Htree Hx. pose proof Htree as [Hd Hnd].
  apply (gather_elem _ _ _ x Hd) in Hx as (c & lc & Hc & Hlc & Hx).
  destruct (subtree_chain _ _ _ _ _ Hlc Hx) as (p & Hhd & Hlast & Hlink & Hlen & Hsub).
  assert (∀ y, y ∈ p → y ∈ l) as Hsub'.
  { intros y Hy. apply (gather_elem _ _ _ y Hd). exists c, lc. eauto. }
  exists p, c. split_and!; try done.
  destruct p as [|z p _] using rev_ind; [done|].
  rewrite last_snoc in Hlast. injection Hlast as ->.
  unfold getNodePath. destruct p as [|b p _] using rev_ind.
  - simpl in Hhd. injection Hhd as ->.
    rewrite (getParent_root fuel s l c Htree Hc). simpl.
    by rewrite getNodePath_loop_None.
  - pose proof Hlink as Hlink'. apply linked_snoc_inv in Hlink' as [Hlink' Hbx].
    assert (b ∈ l) as Hb.
    { apply Hsub'. apply elem_of_app. left. apply elem_of_app. right. left. }
    rewrite (getParent_child fuel s l x b Htree Hb Hbx). simpl.
    rewrite (getNodePath_loop_climb fuel s l Htree p b [x] fuel c).
    + simpl. rewrite reverse_cons, reverse_cons, reverse_involutive. done.
    + done.
    + intros y Hy. apply Hsub'. apply elem_of_app. by left.
    + destruct p; done.
    + done.
    + rewrite !length_app in Hlen. simpl in Hlen. lia.
Qed.
End path_lemmas.

(** ** Flattening leaves the tree alone *)

Section flatten_lemmas.
Implicit Types (s : TreeNodeService) (acc : TreeNodeService * list fref).

Lemma same_tree_refl s : same_tree s s.
Proof. done. Qed.

Lemma same_tree_trans s1 s2 s3 : same_tree s1 s2 → same_tree s2 s3 → same_tree s1 s3.
Proof. unfold same_tree. intros (?&?&?&?) (?&?&?&?). split_and!; congruence. Qed.

Lemma transformer_same_tree s n lvl : same_tree s (transformer s n lvl).1.
Proof. unfold transformer. by destruct (nodeMap s !! n). Qed.

Lemma for_each_invariant {St : Type} (I : St → St → Prop) body (st st' : St) l :
  (∀ a, I a a) → (∀ a b c, I a b → I b c → I a c) →
  (∀ a x a', x ∈ l → body a x = Some a' → I a a') →
  for_each body st l = Some st' → I st st'.
Proof.
  intros Hrefl Htrans. revert st. induction l as [|x l IH]; intros st Hbody.
  - intros [= <-]. apply Hrefl.
  - simpl. destruct (body st x) as [st1|] eqn:Hst1; [|done]. simpl. intros Hrest.
    apply (Htrans _ st1).
    + eapply Hbody; [left|done].
    + apply IH; [|done]. intros a y a' Hy. apply Hbody. by right.
Qed.

Lemma _flattenNode_same_tree fuel acc lvl n acc' :
  _flattenNode fuel acc lvl n = Some acc' → same_tree acc.1 acc'.1.
Proof.
  revert acc lvl n acc'. induction fuel as [|fuel IH]; intros acc lvl n acc'; [done|].
  simpl. pose proof (transformer_same_tree acc.1 n lvl) as Ht.
  destruct (transformer acc.1 n lvl) as [s1 flatNode]. simpl in Ht.
  destruct (expandable <$> flatObjects s1 !! flatNode) as [[|]|];
    [|by intros [= <-]..].
  destruct (children_of (objects s1) n) as [cs|]; [|by intros [= <-]].
  intros Hloop. apply (same_tree_trans _ s1); [done|].
  change s1 with (s1, JsArray.push acc.2 flatNode).1 at 1.
  revert Hloop.
  apply (for_each_invariant (λ a b, same_tree a.1 b.1)).
  - intros. apply same_tree_refl.
  - intros ???. apply same_tree_trans.
  - intros a x a' _. apply IH.
Qed.

Lemma flattenNodes_same_tree fuel s ns s' flat :
  flattenNodes fuel s ns = Some (s', flat) → same_tree s s'.
Proof.
  unfold flattenNodes. intros Hloop.
  change s with (s, @nil fref).1. change s' with (s', flat).1. revert Hloop.
  apply (for_each_invariant (λ a b, same_tree a.1 b.1)).
  - intros. apply same_tree_refl.
  - intros ???. apply same_tree_trans.
  - intros a x a' _. apply _flattenNode_same_tree.
Qed.

Lemma for_each_flatten_total fuel lvl cs :
  (∀ acc c lc, subtree fuel (objects acc.1) c = Some lc →
               is_Some (_flattenNode fuel acc lvl c)) →
  ∀ acc t, gather (subtree fuel (objects acc.1)) cs = Some t →
           is_Some (for_each (λ a c, _flattenNode fuel a lvl c) acc cs).
Proof.
  intros IH. induction cs as [|c cs IHcs]; intros acc t; [by eexists|].
  intros (a & b & Ha & Hb & ->)%gather_cons_Some. simpl.
  destruct (IH acc c a Ha) as [acc1 Hacc1]. rewrite Hacc1. simpl.
  apply (IHcs acc1 b).
  apply _flattenNode_same_tree in Hacc1 as (-> & _). done.
Qed.

(** Flattening ends on every subtree whose traversal ends. *)
Lemma _flattenNode_total fuel acc lvl n l :
  subtree fuel (objects acc.1) n = Some l →
  is_Some (_flattenNode fuel acc lvl n).
Proof.
  revert acc lvl n l. induction fuel as [|fuel IH]; intros acc lvl n l; [done|].
  intros (t & Hr & Ht & ->)%subtree_S_Some. simpl.
  pose proof (transformer_same_tree acc.1 n lvl) as (Hobj & _).
  destruct (transformer acc.1 n lvl) as [s1 flatNode]. simpl in Hobj.
  destruct (expandable <$> flatObjects s1 !! flatNode) as [[|]|]; [|by eexists..].
  destruct (children_of (objects s1) n) as [cs|] eqn:Hcs; [|by eexists].
  apply (for_each_flatten_total fuel (lvl + 1) cs) with (t := t).
  - intros acc0 c lc. apply IH.
  - simpl. rewrite Hobj. rewrite Hobj in Hcs.
    by rewrite <-(children_of_list _ _ _ Hcs).
Qed.

Lemma update_same_tree fuel s s' :
  update fuel s = Some s' →
  objects s' = objects s ∧ _data s' = _data s ∧
  expansionModel (treeControl s') = expansionModel (treeControl s) ∧
  dataSubject s' = _data s :: dataSubject s.
Proof.
  unfold update. destruct (flattenNodes fuel s (_data s)) as [[s1 flat]|] eqn:Hf;
    [|done].
  simpl. intros [= <-]. apply flattenNodes_same_tree in Hf as (?&?&?&?).
  simpl. split_and!; congruence.
Qed.

(** [update] ends on every tree whose traversal ends. *)
Lemma update_total fuel s l :
  descendants fuel s = Some l → is_Some (update fuel s).
Proof.
  intros Hd. unfold update, flattenNodes.
  destruct (for_each_flatten_total fuel 0 (_data s)) with (acc := (s, @nil fref)) (t := l)
    as [[s1 flat] Hf]; [|done|].
  - intros acc c lc. apply _flattenNode_total.
  - rewrite Hf. by eexists.
Qed.
End flatten_lemmas.

(** ** Traversals after a mutation *)

Section grow_lemmas.
Implicit Types (h : gmap ref TreeNode) (r x y : ref) (l cs : list ref).

Lemma gather_is_Some rec cs :
  (∀ y, y ∈ cs → is_Some (rec y)) → is_Some (gather rec cs).
Proof.
  induction cs as [|c cs IH]; intros Hrec; [by eexists|]. simpl.
  destruct (Hrec c) as [a ->]; [left|]. simpl.
  destruct IH as [b ->]; [|by eexists]. intros y Hy. apply Hrec. by right.
Qed.

Lemma gather_Some_elem rec cs t y :
  gather rec cs = Some t → y ∈ cs → ∃ ly, rec y = Some ly ∧ ly ⊆ t.
Proof.
  revert t. induction cs as [|c cs IH]; intros t; [by intros _ ?%elem_of_nil|].
  intros (a & b & Ha & Hb & ->)%gather_cons_Some [->|Hy]%elem_of_cons.
  - exists a. split; [done|]. intros z Hz. apply elem_of_app. by left.
  - destruct (IH _ Hb Hy) as (ly & Hly & Hsub). exists ly. split; [done|].
    intros z Hz. apply elem_of_app. right. by apply Hsub.
Qed.

(** A traversal still ends after the children arrays of the tree have
    lost elements or gained roots of subtrees of depth [g]. *)
Lemma subtree_grow fuel g h h' r l :
  subtree fuel h r = Some l →
  (∀ x, x ∈ l → is_Some (h' !! x)) →
  (∀ x y, x ∈ l → y ∈ children_list h' x →
          y ∈ children_list h x ∨ is_Some (subtree g h' y)) →
  is_Some (subtree (fuel + g) h' r).
Proof.
  revert r l. induction fuel as [|fuel IH]; intros r l; [done|].
  intros (t & Hr & Ht & ->)%subtree_S_Some Halloc Hch.
  assert (is_Some (gather (subtree (fuel + g) h') (children_list h' r))) as [t' Ht'].
  { apply gather_is_Some. intros y Hy.
    destruct (Hch r y) as [Hold|[ly Hly]]; [left|done| |].
    - destruct (gather_Some_elem _ _ _ _ Ht Hold) as (ly & Hly & Hsub).
      apply (IH _ _ Hly).
      + intros x Hx. apply Halloc. right. by apply Hsub.
      + intros x z Hx. apply Hch. right. by apply Hsub.
    - exists ly. eapply subtree_mono; [|done]. lia. }
  exists (r :: t'). apply subtree_S_Some. exists t'.
  split_and!; [apply Halloc; left|done|done].
Qed.

Lemma gather_subtree_grow fuel g h h' cs cs' l :
  gather (subtree fuel h) cs = Some l →
  (∀ x, x ∈ l → is_Some (h' !! x)) →
  (∀ x y, x ∈ l → y ∈ children_list h' x →
          y ∈ children_list h x ∨ is_Some (subtree g h' y)) →
  (∀ y, y ∈ cs' → y ∈ cs ∨ is_Some (subtree g h' y)) →
  is_Some (gather (subtree (fuel + g) h') cs').
Proof.
  intros Hg Halloc Hch Hroots. apply gather_is_Some. intros y Hy.
  destruct (Hroots y Hy) as [Hold|[ly Hly]].
  - destruct (gather_Some_elem _ _ _ _ Hg Hold) as (ly & Hly & Hsub).
    apply (subtree_grow _ _ _ _ _ _ Hly).
    + intros x Hx. by apply Halloc, Hsub.
    + intros x z Hx. by apply Hch, Hsub.
  - exists ly. eapply subtree_mono; [|done]. lia.
Qed.

Lemma subtree_as_gather fuel h r l :
  subtree fuel h r = Some l → gather (subtree fuel h) [r] = Some l.
Proof. intros Hs. simpl. rewrite Hs. simpl. by rewrite app_nil_r. Qed.
End grow_lemmas.

(** ** Deleting from a tree *)

Section delete_lemmas.
Implicit Types (s : TreeNodeService) (r x y p n : ref) (l cs : list ref).

Lemma _delete_S fuel s a n :
  _delete (S fuel) s a n =
  arr ← read_array s a;
  if decide (JsArray.indexOf arr n > -1) then
    Some (write_array s a (JsArray.splice arr (JsArray.indexOf arr n) 1 []))
  else for_each (delete_body fuel n) s arr.
Proof. done. Qed.

Lemma remove_child_lookup_ne s p n x :
  x ≠ p → objects (remove_child s p n) !! x = objects s !! x.
Proof. intros Hne. unfold remove_child. simpl. by rewrite lookup_alter_ne. Qed.

Lemma remove_child_children_ne s p n x :
  x ≠ p → children_list (objects (remove_child s p n)) x = children_list (objects s) x.
Proof.
  intros Hne. unfold children_list, children_of.
  by rewrite remove_child_lookup_ne.
Qed.

Lemma delete_loop_absent fuel n :
  delete_spec fuel n →
  ∀ s cs t,
    gather (subtree fuel (objects s)) cs = Some t → NoDup t →
    (∀ p, p ∈ t → n ∉ children_list (objects s) p) →
    for_each (delete_body fuel n) s cs = Some s.
Proof.
  intros IH s cs. induction cs as [|c cs IHcs]; intros t; [done|].
  intros (a & b & Ha & Hb & ->)%gather_cons_Some (Hnda & _ & Hndb)%NoDup_app Habs.
  simpl. assert (delete_body fuel n s c = Some s) as ->.
  { unfold delete_body. destruct (children_of (objects s) c) as [cc|] eqn:Hcc; [|done].
    case_decide; [|done].
    destruct (IH s c a cc Ha Hnda Hcc) as [HA _]. apply HA.
    intros p Hp. apply Habs, elem_of_app. by left. }
  simpl. apply (IHcs b); [done|done|].
  intros p Hp. apply Habs, elem_of_app. by right.
Qed.

Lemma delete_loop_present fuel n :
  delete_spec fuel n →
  ∀ s cs t p,
    gather (subtree fuel (objects s)) cs = Some t → NoDup t →
    p ∈ t → n ∈ children_list (objects s) p →
    for_each (delete_body fuel n) s cs = Some (remove_child s p n).
Proof.
  intros IH s cs. induction cs as [|c cs IHcs]; intros t p.
  { intros [= <-] _ ?%elem_of_nil. done. }
  intros Hg Hnd Hp Hn. pose proof Hg as Hg'.
  apply gather_cons_Some in Hg as (a & b & Ha & Hb & ->).
  pose proof Hnd as (Hnda & Hdisj & Hndb)%NoDup_app.
  simpl. apply elem_of_app in Hp as [Hp|Hp].
  - assert (delete_body fuel n s c = Some (remove_child s p n)) as ->.
    { unfold delete_body.
      destruct (children_of (objects s) c) as [cc|] eqn:Hcc.
      - rewrite decide_True.
        + destruct (IH s c a cc Ha Hnda Hcc) as [_ HB]. by apply HB.
        + destruct cc as [|? ?]; [|simpl; lia]. exfalso.
          destruct fuel; [done|].
          apply subtree_S_Some in Ha as (t' & _ & Ht' & ->).
          rewrite (children_of_list _ _ _ Hcc) in Ht'. injection Ht' as <-.
          apply list_elem_of_singleton in Hp as ->.
          rewrite (children_of_list _ _ _ Hcc) in Hn. by apply elem_of_nil in Hn.
      - exfalso. destruct fuel; [done|].
        apply subtree_S_Some in Ha as (t' & _ & Ht' & ->).
        unfold children_list in Ht'. rewrite Hcc in Ht'. injection Ht' as <-.
        apply list_elem_of_singleton in Hp as ->.
        unfold children_list in Hn. rewrite Hcc in Hn. by apply elem_of_nil in Hn. }
    simpl. apply (delete_loop_absent fuel n IH _ cs b).
    + eapply gather_subtree_frame; [done|]. intros x Hx.
      assert (x ≠ p) as Hne by (intros ->; by apply (Hdisj p)).
      rewrite remove_child_lookup_ne, remove_child_children_ne by done.
      split; [|done]. destruct (gather_subtree_inner _ _ _ _ _ Hb Hx) as (lx & Hlx & _).
      by eapply subtree_allocated.
    + done.
    + intros q Hq. assert (q ≠ p) as Hne by (intros ->; by apply (Hdisj p)).
      rewrite remove_child_children_ne by done. intros Hnq. apply Hne.
      eapply (tree_parent_unique fuel (objects s) (c :: cs) (a ++ b) q p n);
        [done|done| | |done|done]; apply elem_of_app; [by right|by left].
  - assert (delete_body fuel n s c = Some s) as ->.
    { unfold delete_body.
      destruct (children_of (objects s) c) as [cc|] eqn:Hcc; [|done].
      case_decide; [|done].
      destruct (IH s c a cc Ha Hnda Hcc) as [HA _]. apply HA.
      intros q Hq Hnq. apply (Hdisj q Hq).
      replace q with p; [done|].
      eapply (tree_parent_unique fuel (objects s) (c :: cs) (a ++ b) p q n);
        [done|done| | |done|done]; apply elem_of_app; [by right|by left]. }
    simpl. by apply (IHcs b).
Qed.

Lemma _delete_children fuel n : delete_spec fuel n.
Proof.
  induction fuel as [|fuel IH]; [by intros s r l cs ?|].
  intros s r l cs Hs Hnd Hcs. pose proof Hs as Hs'.
  apply subtree_S_Some in Hs as (t & Hr & Ht & ->).
  rewrite (children_of_list _ _ _ Hcs) in Ht.
  apply NoDup_cons in Hnd as [Hrt Hndt].
  rewrite _delete_S. simpl. rewrite Hcs. simpl. split.
  - intros Habs. rewrite decide_False.
    + apply (delete_loop_absent fuel n IH s cs t); [done|done|].
      intros p Hp. apply Habs. by right.
    + assert (n ∉ cs) as Hn.
      { rewrite <-(children_of_list _ _ _ Hcs). apply Habs. left. }
      rewrite (indexOf_absent _ _ Hn). lia.
  - intros p [->|Hp]%elem_of_cons Hn.
    + rewrite decide_True.
      * unfold remove_child. by rewrite (children_of_list _ _ _ Hcs).
      * apply indexOf_found. by rewrite <-(children_of_list _ _ _ Hcs).
    + rewrite decide_False.
      * by apply (delete_loop_present fuel n IH s cs t p).
      * assert (n ∉ cs) as Hncs.
        { intros Hncs. apply Hrt. replace r with p; [done|].
          eapply (tree_parent_unique (S fuel) (objects s) [r] (r :: t) p r n).
          - by apply subtree_as_gather.
          - by apply NoDup_cons.
          - by right.
          - left.
          - done.
          - by rewrite (children_of_list _ _ _ Hcs). }
        rewrite (indexOf_absent _ _ Hncs). lia.
Qed.
End delete_lemmas.

(** ** Content of a subtree *)

Section clone_lemmas.
Implicit Types (h : gmap ref TreeNode) (r x y : ref) (l cs : list ref).

Lemma subtree_weaken fuel h h' r l :
  h ⊆ h' → subtree fuel h r = Some l → subtree fuel h' r = Some l.
Proof.
  intros Hsub Hs. eapply subtree_frame; [done|]. intros x Hx.
  destruct (subtree_inner _ _ _ _ _ Hs Hx) as (lx & Hlx & _).
  apply subtree_allocated in Hlx as [nd Hnd].
  pose proof (lookup_weaken _ _ _ _ Hnd Hsub) as Hnd'.
  split; [by eexists|]. unfold children_list, children_of. by rewrite Hnd, Hnd'.
Qed.

Lemma gather_subtree_weaken fuel h h' cs l :
  h ⊆ h' → gather (subtree fuel h) cs = Some l → gather (subtree fuel h') cs = Some l.
Proof.
  intros Hsub. revert l. induction cs as [|c cs IH]; intros l; [done|].
  intros (a & b & Ha & Hb & ->)%gather_cons_Some. apply gather_cons_Some.
  exists a, b. split_and!; [by eapply subtree_weaken|by apply IH|done].
Qed.

Lemma mapM_cons_Some {A B : Type} (f : A → option B) (a : A) (k : list A) res :
  mapM f (a :: k) = Some res ↔
  ∃ b bs, f a = Some b ∧ mapM f k = Some bs ∧ res = b :: bs.
Proof.
  simpl. split.
  - intros H. destruct (f a) as [b|]; [|done]. simpl in H.
    destruct (mapM f k) as [bs|]; [|done]. simpl in H.
    exists b, bs. injection H as <-. done.
  - intros (b & bs & -> & -> & ->). done.
Qed.

Lemma content_of_weaken fuel h h' r ct :
  h ⊆ h' → content_of fuel h r = Some ct → content_of fuel h' r = Some ct.
Proof.
  intros Hsub. revert r ct. induction fuel as [|fuel IH]; intros r ct; [done|].
  simpl. destruct (h !! r) as [nd|] eqn:Hnd; [|done].
  rewrite (lookup_weaken _ _ _ _ Hnd Hsub). simpl.
  destruct (children nd) as [cs|]; [|done].
  destruct (mapM (content_of fuel h) cs) as [cts|] eqn:Hcts; [|done].
  simpl. intros [= <-].
  assert (mapM (content_of fuel h') cs = Some cts) as ->; [|done].
  clear Hnd. revert cts Hcts. induction cs as [|c cs IHcs]; intros cts; [done|].
  intros (y & ys & Hy & Hys & ->)%mapM_cons_Some. apply mapM_cons_Some.
  exists y, ys. split_and!; [by apply IH|by apply IHcs|done].
Qed.

Lemma mapM_content_of_weaken fuel h h' cs cts :
  h ⊆ h' → mapM (content_of fuel h) cs = Some cts →
  mapM (content_of fuel h') cs = Some cts.
Proof.
  intros Hsub. revert cts. induction cs as [|c cs IHcs]; intros cts; [done|].
  intros (y & ys & Hy & Hys & ->)%mapM_cons_Some. apply mapM_cons_Some.
  exists y, ys. split_and!; [by eapply content_of_weaken|by apply IHcs|done].
Qed.

Lemma clone_all_spec fuel :
  (∀ h o lo, subtree fuel h o = Some lo →
             ∃ h' c, cloneDeep fuel h o = Some (h', c) ∧ clone_spec fuel h o h' c) →
  ∀ cs h t,
    gather (subtree fuel h) cs = Some t →
    ∃ h' cs',
      clone_all (cloneDeep fuel) h cs = Some (h', cs') ∧ h ⊆ h' ∧
      (∃ t', gather (subtree fuel h') cs' = Some t' ∧ ∀ x, x ∈ t' → h !! x = None) ∧
      (∃ cts, mapM (content_of fuel h) cs = Some cts ∧
              mapM (content_of fuel h') cs' = Some cts).
Proof.
  intros IH cs. induction cs as [|o cs IHcs]; intros h t.
  - intros _. exists h, []. split_and!; [done|done| |].
    + exists []. split; [done|]. by intros ? ?%elem_of_nil.
    + by exists [].
  - intros (a & b & Ha & Hb & ->)%gather_cons_Some.
    destruct (IH h o a Ha) as (h1 & c & Hc & Hsub1 & (lc & Hlc & Hfresh1) & (ct & Hct & Hct')).
    destruct (IHcs h1 b) as (h2 & cs' & Hcs' & Hsub2 & (t' & Ht' & Hfresh2) & (cts & Hcts & Hcts')).
    { by eapply gather_subtree_weaken. }
    exists h2, (c :: cs'). split_and!.
    + simpl. rewrite Hc. simpl. rewrite Hcs'. done.
    + by etrans.
    + exists (lc ++ t'). split.
      * apply gather_cons_Some. exists lc, t'.
        split_and!; [by eapply subtree_weaken|done|done].
      * intros x [Hx|Hx]%elem_of_app; [by apply Hfresh1|].
        apply Hfresh2 in Hx.
        destruct (h !! x) as [nd|] eqn:Hnd; [|done].
        by rewrite (lookup_weaken _ _ _ _ Hnd Hsub1) in Hx.
    + destruct (mapM (content_of fuel h) cs) as [cts0|] eqn:Hcts0.
      * pose proof (mapM_content_of_weaken _ _ _ _ _ Hsub1 Hcts0) as Heq.
        rewrite Hcts in Heq. injection Heq as ->.
        exists (ct :: cts0). split; apply mapM_cons_Some.
        -- by exists ct, cts0.
        -- exists ct, cts0. split_and!; [by eapply content_of_weaken|done|done].
      * exfalso. clear -Hb Hcts Hcts0 Hsub1 IH.
        revert b cts Hb Hcts Hcts0. induction cs as [|z cs IHz]; intros b cts; [done|].
        intros (a' & b' & Ha' & Hb' & ->)%gather_cons_Some.
        intros (y & ys & Hy & Hys & ->)%mapM_cons_Some. simpl.
        destruct (IH h z a' Ha') as (? & ? & _ & _ & _ & (ctz & -> & _)). simpl.
        destruct (mapM (content_of fuel h) cs) eqn:Hm; [done|]. intros _.
        by eapply IHz.
Qed.

(** [cloneDeep] ends on every subtree whose traversal ends, with a copy. *)
Lemma cloneDeep_spec fuel h o lo :
  subtree fuel h o = Some lo →
  ∃ h' c, cloneDeep fuel h o = Some (h', c) ∧ clone_spec fuel h o h' c.
Proof.
  revert h o lo. induction fuel as [|fuel IH]; intros h o lo; [done|].
  intros (t & [nd Hnd] & Ht & ->)%subtree_S_Some.
  simpl. rewrite Hnd. simpl.
  unfold children_list, children_of in Ht. rewrite Hnd in Ht. simpl in Ht.
  destruct (children nd) as [cs|] eqn:Hcs; simpl in Ht.
  - destruct (clone_all_spec fuel IH cs h t Ht)
      as (h1 & cs' & -> & Hsub1 & (t' & Ht' & Hfresh) & (cts & Hcts & Hcts')).
    simpl. eexists _, _. split; [done|].
    pose proof (is_fresh (dom h1)) as Hfr. apply not_elem_of_dom in Hfr.
    assert (h1 ⊆ <[fresh (dom h1) := mkTreeNode (name nd) (Some cs')]> h1) as Hsub2
      by (by apply insert_subseteq).
    split_and!.
    + by etrans.
    + exists (fresh (dom h1) :: t'). split.
      * apply subtree_S_Some. exists t'. split_and!; [|..|done].
        -- rewrite lookup_insert_eq. by eexists.
        -- unfold children_list, children_of. rewrite lookup_insert_eq. simpl.
           by eapply gather_subtree_weaken.
      * intros x [->|Hx]%elem_of_cons; [|by apply Hfresh].
        destruct (h !! fresh (dom h1)) as [nd'|] eqn:Hnd'; [|done].
        by rewrite (lookup_weaken _ _ _ _ Hnd' Hsub1) in Hfr.
    + exists (Content (name nd) (Some cts)). split.
      * simpl. rewrite Hnd. simpl. rewrite Hcs. by rewrite Hcts.
      * simpl. rewrite lookup_insert_eq. simpl.
        by rewrite (mapM_content_of_weaken _ _ _ _ _ Hsub2 Hcts').
  - injection Ht as <-. eexists _, _. split; [done|].
    pose proof (is_fresh (dom h)) as Hfr. apply not_elem_of_dom in Hfr.
    split_and!.
    + by apply insert_subseteq.
    + exists [fresh (dom h)]. split.
      * apply subtree_S_Some. exists []. split_and!; [|..|done].
        -- rewrite lookup_insert_eq. by eexists.
        -- unfold children_list, children_of. by rewrite lookup_insert_eq.
      * by intros x ->%list_elem_of_singleton.
    + exists (Content (name nd) None). split.
      * simpl. rewrite Hnd. simpl. by rewrite Hcs.
      * simpl. by rewrite lookup_insert_eq.
Qed.
End clone_lemmas.

(** ** The mutations on a tree *)

Section mutation_lemmas.
Implicit Types (s : TreeNodeService) (r x y p n : ref) (l cs : list ref).

Lemma elem_of_splice_remove {A : Type} (k : list A) (i : Z) (d : nat) (a : A) :
  a ∈ JsArray.splice k i d [] → a ∈ k.
Proof.
  unfold JsArray.splice. simpl. intros [Ha|Ha]%elem_of_app.
  - by eapply subseteq_take.
  - by eapply subseteq_drop.
Qed.

Lemma alter_as_insert {A : Type} (f : A → A) (m : gmap ref A) (i : ref) (a : A) :
  m !! i = Some a → alter f i m = <[i := f a]> m.
Proof.
  intros Hi. apply map_eq. intros j. destruct (decide (i = j)) as [->|Hne].
  - by rewrite lookup_alter_eq, lookup_insert_eq, Hi.
  - by rewrite lookup_alter_ne, lookup_insert_ne.
Qed.

(** The three ways [_delete] on the root array can end on a tree. *)
Lemma delete_core fuel s l n :
  tree_shaped fuel s l →
  ∃ s1,
    _delete (S fuel) s RootArray n = Some s1 ∧
    ((n ∈ _data s ∧
      s1 = set__data s (JsArray.splice (_data s) (JsArray.indexOf (_data s) n) 1 [])) ∨
     ((n ∉ _data s) ∧ ∃ p, p ∈ l ∧ n ∈ children_list (objects s) p ∧
                           s1 = remove_child s p n) ∨
     ((n ∉ l) ∧ s1 = s)).
Proof.
  intros [Hd Hnd]. rewrite _delete_S. simpl.
  destruct (decide (n ∈ _data s)) as [Hroot|Hroot].
  - rewrite decide_True by (by apply indexOf_found).
    eexists. split; [done|]. by left.
  - rewrite decide_False by (rewrite (indexOf_absent _ _ Hroot); lia).
    destruct (decide (n ∈ l)) as [Hn|Hn].
    + destruct (tree_root_or_child _ _ _ _ _ Hd Hn) as [?|(p & Hp & Hnp)]; [done|].
      exists (remove_child s p n). split.
      * by apply (delete_loop_present fuel n (_delete_children fuel n) s (_data s) l p).
      * right. left. split; [done|]. by exists p.
    + exists s. split; [|by right; right].
      apply (delete_loop_absent fuel n (_delete_children fuel n) s (_data s) l);
        [done|done|].
      intros p Hp Hnp. apply Hn. by eapply gather_subtree_child.
Qed.

(** The tree can still be traversed after [_delete]. *)
Lemma delete_core_traversal fuel s l n s1 :
  tree_shaped fuel s l → _delete (S fuel) s RootArray n = Some s1 →
  is_Some (descendants fuel s1).
Proof.
  intros Htree Hdel. pose proof Htree as [Hd Hnd].
  destruct (delete_core fuel s l n Htree) as (s1' & Hdel' & Hcases).
  rewrite Hdel in Hdel'. injection Hdel' as <-.
  unfold descendants. rewrite <-(Nat.add_0_r fuel).
  destruct Hcases as [[_ ->]|[(_ & p & Hp & Hnp & ->)|[_ ->]]].
  - apply (gather_subtree_grow fuel 0 (objects s) _ (_data s) _ l Hd); simpl.
    + intros x Hx. destruct (gather_subtree_inner _ _ _ _ _ Hd Hx) as (? & Hlx & _).
      by eapply subtree_allocated.
    + intros x y _ Hy. by left.
    + intros y Hy. left. by eapply elem_of_splice_remove.
  - apply (gather_subtree_grow fuel 0 (objects s) _ (_data s) _ l Hd).
    + intros x Hx. destruct (gather_subtree_inner _ _ _ _ _ Hd Hx) as (? & Hlx & _).
      apply subtree_allocated in Hlx. unfold remove_child. simpl.
      destruct (decide (x = p)) as [->|Hne].
      * rewrite lookup_alter_eq. by apply fmap_is_Some.
      * by rewrite lookup_alter_ne.
    + intros x y _ Hy. left. destruct (decide (x = p)) as [->|Hne].
      * unfold remove_child, children_list, children_of in Hy. simpl in Hy.
        rewrite lookup_alter_eq in Hy.
        destruct (objects s !! p) as [nd|] eqn:Hnd'; simpl in Hy;
          [|by apply elem_of_nil in Hy].
        rewrite <-(children_list_lookup _ _ _ Hnd').
        by eapply elem_of_splice_remove.
      * by rewrite remove_child_children_ne in Hy.
    + intros y Hy. by left.
  - apply (gather_subtree_grow fuel 0 (objects s) _ (_data s) _ l Hd).
    + intros x Hx. destruct (gather_subtree_inner _ _ _ _ _ Hd Hx) as (? & Hlx & _).
      by eapply subtree_allocated.
    + intros x y _ Hy. by left.
    + intros y Hy. by left.
Qed.
End mutation_lemmas.

(** What [_insertSibling] does when the sibling is nowhere in the tree: the
    parent is null and [indexOf] on the root array answers -1. *)
Lemma _insertSibling_absent fuel s l sib n ln index :
  descendants fuel s = Some l → sib ∉ l →
  subtree fuel (objects s) n = Some ln →
  ∃ s', _insertSibling fuel s sib n index = Some s' ∧
        objects s' = objects s ∧
        _data s' = JsArray.splice (_data s) (-1 + index) 0 [n].
Proof.
  intros Hd Hsib Hn. unfold _insertSibling.
  rewrite (getParent_absent fuel s l sib Hd Hsib). simpl.
  assert (sib ∉ _data s) as Hroot.
  { intros Hin. apply Hsib.
    by apply (gather_roots _ _ _ (subtree_root fuel (objects s)) Hd). }
  rewrite (indexOf_absent _ _ Hroot).
  destruct (update_total fuel
              (set__data s (JsArray.splice (_data s) (-1 + index) 0 [n])))
    with (l := default [] (descendants fuel
              (set__data s (JsArray.splice (_data s) (-1 + index) 0 [n]))))
    as [s' Hs'].
  - assert (is_Some (descendants fuel
              (set__data s (JsArray.splice (_data s) (-1 + index) 0 [n]))))
      as [l' Hl']; [|by rewrite Hl'].
    unfold descendants. simpl. apply gather_is_Some.
    intros y [->|Hy]%elem_of_splice_insert; [by eexists|].
    destruct (gather_Some_elem _ _ _ _ Hd Hy) as (ly & Hly & _). by eexists.
  - exists s'. split; [done|]. by apply update_same_tree in Hs' as (-> & -> & _).
Qed.

(** ** One flat node per tree node *)

Section flat_lemmas.
Implicit Types (s : TreeNodeService) (n : ref) (f : fref).

Lemma flat_step_refl s : flat_step s s.
Proof. by split. Qed.

Lemma flat_step_trans s1 s2 s3 : flat_step s1 s2 → flat_step s2 s3 → flat_step s1 s3.
Proof. intros [H1 K1] [H2 K2]. split; [tauto|]. intros n f Hn. by apply K2, K1. Qed.

Lemma flat_step_same s s' :
  flatObjects s' = flatObjects s → nodeMap s' = nodeMap s → flat_step s s'.
Proof.
  intros Hfo Hnm. unfold flat_step, one_flat_per_node. rewrite Hfo, Hnm. by split.
Qed.

Lemma has_children_true (h : gmap ref TreeNode) n :
  has_children h n = true ↔ ∃ cs, children_of h n = Some cs ∧ cs ≠ [].
Proof.
  unfold has_children. destruct (children_of h n) as [cs|]; split.
  - intros Hlen%bool_decide_eq_true. exists cs. split; [done|].
    intros ->. simpl in Hlen. lia.
  - intros (cs' & [= <-] & Hne). apply bool_decide_eq_true.
    destruct cs; [done|simpl; lia].
  - done.
  - by intros (cs & ? & _).
Qed.

(** The first call for a node creates a flat node and registers it. *)
Lemma transformer_first s n lvl :
  nodeMap s !! n = None →
  ∃ f, (transformer s n lvl).2 = f ∧
       flatObjects s !! f = None ∧
       nodeMap (transformer s n lvl).1 !! n = Some f ∧
       flatObjects (transformer s n lvl).1 !! f
       = Some (mkTreeFlatNode n (has_children (objects s) n) lvl).
Proof.
  intros Hn. unfold transformer. rewrite Hn. simpl.
  exists (fresh (dom (flatObjects s))). split_and!; [done| |..].
  - apply not_elem_of_dom, is_fresh.
  - by rewrite lookup_insert_eq.
  - by rewrite lookup_insert_eq.
Qed.

(** A later call for the same node returns the registered flat node, with
    its level and expandable flag set again. *)
Lemma transformer_again s n lvl f :
  one_flat_per_node s → nodeMap s !! n = Some f →
  (transformer s n lvl).2 = f ∧
  nodeMap (transformer s n lvl).1 !! n = Some f ∧
  flatObjects (transformer s n lvl).1 !! f
  = Some (mkTreeFlatNode n (has_children (objects s) n) lvl).
Proof.
  intros [_ Hinv] Hn. destruct (Hinv n f Hn) as (fl & Hfl & Hnode).
  unfold transformer. rewrite Hn. simpl. split_and!; [done| |].
  - by rewrite lookup_insert_eq.
  - rewrite lookup_alter_eq, Hfl. simpl. by rewrite Hnode.
Qed.

Lemma transformer_flat_step s n lvl : flat_step s (transformer s n lvl).1.
Proof.
  split.
  - intros [Hreg Hinv]. unfold transformer, one_flat_per_node, set_flat.
    destruct (nodeMap s !! n) as [f|] eqn:Hn; simpl.
    + destruct (Hinv n f Hn) as (fl & Hfl & Hnode). split.
      * intros f' fl'. destruct (decide (f' = f)) as [->|Hne].
        -- rewrite lookup_alter_eq, Hfl. simpl. intros [= <-]. simpl.
           rewrite Hnode. by rewrite lookup_insert_eq.
        -- rewrite lookup_alter_ne by done. intros Hfl'.
           rewrite lookup_insert_ne; [by apply Hreg|].
           intros Heq. apply Hne. apply Hreg in Hfl'. congruence.
      * intros n' f'. destruct (decide (n' = n)) as [->|Hne].
        -- rewrite lookup_insert_eq. intros [= <-].
           eexists. rewrite lookup_alter_eq, Hfl. simpl. split; [done|]. done.
        -- rewrite lookup_insert_ne by done. intros Hn'.
           destruct (Hinv n' f' Hn') as (fl' & Hfl' & Hnode').
           destruct (decide (f' = f)) as [->|Hnef].
           ++ congruence.
           ++ exists fl'. by rewrite lookup_alter_ne.
    + pose proof (is_fresh (dom (flatObjects s))) as Hfr.
      apply not_elem_of_dom in Hfr. split.
      * intros f' fl'. destruct (decide (f' = fresh (dom (flatObjects s)))) as [->|Hne].
        -- rewrite lookup_insert_eq. intros [= <-]. simpl. by rewrite lookup_insert_eq.
        -- rewrite lookup_insert_ne by done. intros Hfl'.
           rewrite lookup_insert_ne; [by apply Hreg|].
           intros Heq. apply Hreg in Hfl'. congruence.
      * intros n' f'. destruct (decide (n' = n)) as [->|Hne].
        -- rewrite lookup_insert_eq. intros [= <-].
           eexists. rewrite lookup_insert_eq. done.
        -- rewrite lookup_insert_ne by done. intros Hn'.
           destruct (Hinv n' f' Hn') as (fl' & Hfl' & Hnode').
           exists fl'. split; [|done]. rewrite lookup_insert_ne; [done|]. congruence.
  - intros n' f' Hn'. unfold transformer, set_flat.
    destruct (nodeMap s !! n) as [f|] eqn:Hn; simpl.
    + destruct (decide (n' = n)) as [->|Hne].
      * rewrite lookup_insert_eq. congruence.
      * by rewrite lookup_insert_ne.
    + rewrite lookup_insert_ne; [done|]. congruence.
Qed.

Lemma _flattenNode_flat_step fuel acc lvl n acc' :
  _flattenNode fuel acc lvl n = Some acc' → flat_step acc.1 acc'.1.
Proof.
  revert acc lvl n acc'. induction fuel as [|fuel IH]; intros acc lvl n acc'; [done|].
  simpl. pose proof (transformer_flat_step acc.1 n lvl) as Ht.
  destruct (transformer acc.1 n lvl) as [s1 flatNode]. simpl in Ht.
  destruct (expandable <$> flatObjects s1 !! flatNode) as [[|]|];
    [|by intros [= <-]..].
  destruct (children_of (objects s1) n) as [cs|]; [|by intros [= <-]].
  intros Hloop. apply (flat_step_trans _ s1); [done|].
  change s1 with (s1, JsArray.push acc.2 flatNode).1 at 1.
  revert Hloop.
  apply (for_each_invariant (λ a b, flat_step a.1 b.1)).
  - intros. apply flat_step_refl.
  - intros ???. apply flat_step_trans.
  - intros a x a' _. apply IH.
Qed.

Lemma update_flat_step fuel s s' : update fuel s = Some s' → flat_step s s'.
Proof.
  unfold update, flattenNodes.
  destruct (for_each _ _ _) as [[s1 flat]|] eqn:Hf; [|done].
  simpl. intros [= <-].
  apply (flat_step_trans _ s1); [|by apply flat_step_same].
  change s with (s, @nil fref).1. change s1 with (s1, flat).1. revert Hf.
  apply (for_each_invariant (λ a b, flat_step a.1 b.1)).
  - intros. apply flat_step_refl.
  - intros ???. apply flat_step_trans.
  - intros a x a' _. apply _flattenNode_flat_step.
Qed.

Lemma _delete_flat fuel s a n s' :
  _delete fuel s a n = Some s' →
  flatObjects s' = flatObjects s ∧ nodeMap s' = nodeMap s.
Proof.
  revert s a s'. induction fuel as [|fuel IH]; intros s a s'; [done|].
  rewrite _delete_S. destruct (read_array s a) as [arr|]; [|done]. simpl.
  case_decide.
  - intros [= <-]. by destruct a.
  - apply (for_each_invariant
             (λ s s', flatObjects s' = flatObjects s ∧ nodeMap s' = nodeMap s)).
    + done.
    + intros ??? [??] [??]. split; congruence.
    + intros s0 x s0' _. unfold delete_body.
      destruct (children_of (objects s0) x) as [cs|]; [|by intros [= <-]].
      case_decide; [apply IH|by intros [= <-]].
Qed.

Lemma _insertSibling_flat_step fuel s sib n index s' :
  _insertSibling fuel s sib n index = Some s' → flat_step s s'.
Proof.
  unfold _insertSibling. destruct (getParent fuel s sib) as [parent|]; [|done].
  simpl. intros Hupd%update_flat_step.
  eapply flat_step_trans; [|done]. apply flat_step_same.
  - destruct parent as [p|]; [destruct (children_of (objects s) p)|]; done.
  - destruct parent as [p|]; [destruct (children_of (objects s) p)|]; done.
Qed.

(** Every operation keeps the invariant and the registrations. *)
Lemma run_flat_step fuel s op s' : run fuel s op = Some s' → flat_step s s'.
Proof.
  destruct op; simpl.
  - intros Hupd%update_flat_step. eapply flat_step_trans; [|done].
    by apply flat_step_same.
  - apply update_flat_step.
  - intros [= <-]. apply transformer_flat_step.
  - unfold insertChild. intros Hupd%update_flat_step.
    eapply flat_step_trans; [|done]. by apply flat_step_same.
  - apply _insertSibling_flat_step.
  - apply _insertSibling_flat_step.
  - unfold delete. destruct (_delete (S fuel) s RootArray n) as [s1|] eqn:Hdel; [|done].
    simpl. intros Hupd%update_flat_step. eapply flat_step_trans; [|done].
    apply _delete_flat in Hdel as [??]. by apply flat_step_same.
  - unfold cloneAsChild.
    destruct (cloneDeep fuel (objects s) originalNode) as [[h1 c]|]; [|done]. simpl.
    destruct (cloneDeep fuel h1 originalNode) as [[h2 ins]|]; [|done]. simpl.
    destruct (insertChild _ _ _ _) as [s2|] eqn:Hins; [|done]. simpl. intros [= <-].
    unfold insertChild in Hins. apply update_flat_step in Hins.
    eapply flat_step_trans; [|done]. by apply flat_step_same.
  - unfold cloneAsSiblingBefore.
    destruct (cloneDeep fuel (objects s) originalNode) as [[h1 c]|]; [|done]. simpl.
    destruct (insertBefore _ _ _ _) as [s2|] eqn:Hins; [|done]. simpl. intros [= <-].
    apply _insertSibling_flat_step in Hins.
    eapply flat_step_trans; [|done]. by apply flat_step_same.
  - unfold cloneAsSiblingAfter.
    destruct (cloneDeep fuel (objects s) originalNode) as [[h1 c]|]; [|done]. simpl.
    destruct (insertAfter _ _ _ _) as [s2|] eqn:Hins; [|done]. simpl. intros [= <-].
    apply _insertSibling_flat_step in Hins.
    eapply flat_step_trans; [|done]. by apply flat_step_same.
  - unfold toggleNode. case_match.
    + intros [= <-]. by apply flat_step_same.
    + destruct (flatObjects s !! flatNode) as [fl|]; [|done]. simpl.
      destruct (getNodePath fuel s (node fl)) as [path|]; [|done]. simpl.
      destruct (toggle_loop _ _ _ _ _) as [c|]; [|done]. simpl.
      intros [= <-]. by apply flat_step_same.
  - unfold expandLevel. destruct (expandLevel_loop _ _ _ _) as [c|]; [|done]. simpl.
    intros [= <-]. by apply flat_step_same.
Qed.
End flat_lemmas.

(** ** The flattened sequence *)

Section flattened_lemmas.
Implicit Types (s : TreeNodeService) (acc : TreeNodeService * list fref).

Lemma transformer_stable s n lvl : flat_stable s (transformer s n lvl).1.
Proof.
  intros f x. unfold stands_for, transformer, set_flat.
  destruct (nodeMap s !! n) as [existingNode|]; simpl.
  - destruct (decide (f = existingNode)) as [->|Hne].
    + rewrite lookup_alter_eq. by destruct (flatObjects s !! existingNode).
    + by rewrite lookup_alter_ne.
  - intros Hf. rewrite lookup_insert_ne; [done|]. intros <-.
    pose proof (is_fresh (dom (flatObjects s))) as Hfr.
    apply not_elem_of_dom in Hfr. by rewrite Hfr in Hf.
Qed.

Lemma transformer_result s n lvl :
  one_flat_per_node s →
  flatObjects (transformer s n lvl).1 !! (transformer s n lvl).2
  = Some (mkTreeFlatNode n (has_children (objects s) n) lvl).
Proof.
  intros Hinv. destruct (nodeMap s !! n) as [f|] eqn:Hn.
  - destruct (transformer_again s n lvl f Hinv Hn) as (-> & _ & ->). done.
  - destruct (transformer_first s n lvl Hn) as (f & -> & _ & _ & ->). done.
Qed.

Lemma has_children_false_list (h : gmap ref TreeNode) n :
  has_children h n = false → children_list h n = [].
Proof.
  unfold has_children, children_list. destruct (children_of h n) as [cs|]; [|done].
  intros Hlen%bool_decide_eq_false. destruct cs; [done|]. simpl in Hlen. lia.
Qed.

Lemma for_each_flatten_nodes fuel lvl cs :
  flatten_spec fuel lvl →
  ∀ acc t acc',
    one_flat_per_node acc.1 → gather (subtree fuel (objects acc.1)) cs = Some t →
    for_each (λ a c, _flattenNode fuel a lvl c) acc cs = Some acc' →
    ∃ fs, acc'.2 = acc.2 ++ fs ∧ Forall2 (stands_for acc'.1) fs t ∧
          flat_stable acc.1 acc'.1 ∧ one_flat_per_node acc'.1.
Proof.
  intros IH. induction cs as [|c cs IHcs]; intros acc t acc' Hinv.
  - intros [= <-] [= <-]. exists []. rewrite app_nil_r.
    split_and!; [done|constructor|by intros ??|done].
  - intros (a & b & Ha & Hb & ->)%gather_cons_Some. simpl.
    destruct (_flattenNode fuel acc lvl c) as [acc1|] eqn:Hc; [|done]. simpl.
    intros Hrest.
    destruct (IH acc c a acc1 Hinv Ha Hc) as (fs1 & Hfs1 & Hst1 & Hstable1 & Hinv1).
    pose proof (_flattenNode_same_tree _ _ _ _ _ Hc) as (Hobj & _).
    rewrite <-Hobj in Hb.
    destruct (IHcs acc1 b acc' Hinv1 Hb Hrest) as (fs2 & Hfs2 & Hst2 & Hstable2 & Hinv2).
    exists (fs1 ++ fs2). split_and!.
    + by rewrite Hfs2, Hfs1, <-(assoc_L (++)).
    + apply Forall2_app; [|done].
      eapply Forall2_impl; [done|]. intros ??. apply Hstable2.
    + intros ???. by apply Hstable2, Hstable1.
    + done.
Qed.

Lemma _flattenNode_nodes fuel lvl : flatten_spec fuel lvl.
Proof.
  revert lvl. induction fuel as [|fuel IH]; intros lvl acc n ln acc' Hinv; [done|].
  intros (t & Hn & Ht & ->)%subtree_S_Some. simpl.
  pose proof (transformer_same_tree acc.1 n lvl) as (Hobj & _).
  pose proof (transformer_result acc.1 n lvl Hinv) as Hres.
  pose proof (transformer_stable acc.1 n lvl) as Hstable.
  pose proof (transformer_flat_step acc.1 n lvl) as [Hinv1 _].
  specialize (Hinv1 Hinv).
  destruct (transformer acc.1 n lvl) as [s1 flatNode]. simpl in *.
  rewrite Hres. simpl.
  assert (stands_for s1 flatNode n) as Hfn by (unfold stands_for; by rewrite Hres).
  destruct (has_children (objects acc.1) n) eqn:Hhas.
  - rewrite Hobj.
    apply has_children_true in Hhas as (cs & Hcs & _). rewrite Hcs.
    rewrite (children_of_list _ _ _ Hcs) in Ht. rewrite <-Hobj in Ht.
    intros Hloop.
    destruct (for_each_flatten_nodes fuel (lvl + 1) cs (IH (lvl + 1))
                (s1, JsArray.push acc.2 flatNode) t acc' Hinv1 Ht Hloop)
      as (fs & Hfs & Hst & Hstable' & Hinv').
    simpl in *. exists (flatNode :: fs). split_and!.
    + rewrite Hfs. unfold JsArray.push. by rewrite <-(assoc_L (++)).
    + constructor; [by apply Hstable'|done].
    + intros ???. by apply Hstable', Hstable.
    + done.
  - intros [= <-]. simpl. rewrite (has_children_false_list _ _ Hhas) in Ht.
    injection Ht as <-. exists [flatNode]. split_and!; [done| |done|done].
    constructor; [done|constructor].
Qed.

(** After [update] the tree control holds the flat nodes of all nodes of the
    tree. *)
Lemma update_flattened fuel s l s' :
  one_flat_per_node s → descendants fuel s = Some l →
  update fuel s = Some s' → flattened s' l.
Proof.
  intros Hinv Hd. unfold update, flattenNodes.
  destruct (for_each _ _ _) as [[s1 flat]|] eqn:Hf; [|done]. simpl.
  intros [= <-]. unfold flattened. simpl.
  destruct (for_each_flatten_nodes fuel 0 (_data s) (_flattenNode_nodes fuel 0)
              (s, []) l (s1, flat) Hinv Hd Hf) as (fs & Hfs & Hst & _).
  simpl in Hfs. by subst fs.
Qed.

Lemma flattened_find s l x :
  flattened s l → x ∈ l →
  ∃ n fl, n ∈ dataNodes (treeControl s) ∧ flatObjects s !! n = Some fl ∧ node fl = x.
Proof.
  unfold flattened. generalize (dataNodes (treeControl s)). intros ns Hall.
  induction Hall as [|n y ns l Hn Hall IH]; [by intros ?%elem_of_nil|].
  intros [->|Hx]%elem_of_cons.
  - unfold stands_for in Hn.
    destruct (flatObjects s !! n) as [fl|] eqn:Hfl; [|done].
    exists n, fl. split_and!; [left|done|by injection Hn].
  - destruct (IH Hx) as (m & fl & Hm & Hfl & Hnode).
    exists m, fl. split_and!; [by right|done|done].
Qed.
End flattened_lemmas.

(** ** Toggling *)

Section toggle_lemmas.
Implicit Types (c : FlatTreeControl) (fo : gmap fref TreeFlatNode).

Lemma isExpanded_true c n : isExpanded c n = true ↔ n ∈ expansionModel c.
Proof. apply bool_decide_eq_true. Qed.

Lemma isExpanded_expand c n m :
  isExpanded (expand c n) m = true ↔ m = n ∨ isExpanded c m = true.
Proof. rewrite !isExpanded_true. unfold expand. simpl. set_solver. Qed.

Lemma isExpanded_collapse c n m :
  isExpanded (collapse c n) m = true ↔ m ≠ n ∧ isExpanded c m = true.
Proof.
  rewrite !isExpanded_true. unfold collapse. simpl.
  rewrite elem_of_difference, elem_of_singleton. tauto.
Qed.

(** The loop of [toggleNode] ends when every flat node it visits exists; it
    expands the visited flat nodes that are [flatNode] or stand for a node on
    the path, collapses the other visited ones and leaves the rest alone. *)
Lemma toggle_loop_spec fo flatNode nodePath l :
  (∀ n, n ∈ l → is_Some (fo !! n)) →
  ∀ c, ∃ c',
    toggle_loop fo flatNode nodePath c l = Some c' ∧
    dataNodes c' = dataNodes c ∧
    (∀ n fl, n ∈ l → fo !! n = Some fl →
             (isExpanded c' n = true ↔ n = flatNode ∨ node fl ∈ nodePath)) ∧
    (∀ n, n ∉ l → isExpanded c' n = isExpanded c n).
Proof.
  induction l as [|m l IH]; intros Hl c.
  - exists c. split_and!; [done|done| |done]. by intros n fl ?%elem_of_nil.
  - destruct (Hl m) as [flm Hflm]; [left|].
    assert (∀ n, n ∈ l → is_Some (fo !! n)) as Hl' by (intros n Hn; apply Hl; by right).
    set (keep := bool_decide (m = flatNode) || JsArray.includes nodePath (node flm)).
    destruct (IH Hl' (if keep then expand c m else collapse c m))
      as (c' & Hloop & Hdn & Hin & Hout).
    exists c'. split_and!.
    + simpl. rewrite Hflm. simpl. subst keep.
      destruct (decide (m = flatNode)) as [->|Hne].
      * by rewrite bool_decide_eq_true_2 in Hloop.
      * rewrite bool_decide_eq_false_2 in Hloop by done. simpl in Hloop.
        by destruct (JsArray.includes nodePath (node flm)).
    + rewrite Hdn. by destruct keep.
    + intros n fl Hn Hfl. destruct (decide (n ∈ l)) as [Hnl|Hnl]; [by apply Hin|].
      apply elem_of_cons in Hn as [->|?]; [|done].
      rewrite (Hout m Hnl). rewrite Hflm in Hfl. injection Hfl as <-.
      assert (keep = true ↔ m = flatNode ∨ node flm ∈ nodePath) as Hkeep.
      { subst keep. rewrite orb_true_iff, bool_decide_eq_true.
        unfold JsArray.includes. by rewrite bool_decide_eq_true. }
      destruct keep.
      * rewrite isExpanded_expand. split; [intros _; by apply Hkeep|by left].
      * rewrite isExpanded_collapse. split; [by intros [? _]|].
        intros Hk. apply Hkeep in Hk. done.
    + intros n [Hne Hnl]%not_elem_of_cons. rewrite (Hout n Hnl).
      apply eq_true_iff_eq. destruct keep.
      * rewrite isExpanded_expand. tauto.
      * rewrite isExpanded_collapse. tauto.
Qed.

(** [getNodePath] ends on every tree, for every node. *)
Lemma getNodePath_total fuel s l n :
  tree_shaped fuel s l → is_Some (getNodePath fuel s n).
Proof.
  intros Htree. destruct (decide (n ∈ l)) as [Hn|Hn].
  - destruct (getNodePath_chain fuel s l n Htree Hn) as (p & r0 & -> & _). by eexists.
  - destruct Htree as [Hd _]. unfold getNodePath.
    rewrite (getParent_absent fuel s l n Hd Hn). simpl.
    rewrite getNodePath_loop_None. by eexists.
Qed.
End toggle_lemmas.

(** ** Copies *)

Section copy_lemmas.
Implicit Types (h : gmap ref TreeNode) (r x y o c : ref) (l cs : list ref).

Lemma clone_all_mono rec1 rec2 cs :
  (∀ h x res, rec1 h x = Some res → rec2 h x = Some res) →
  ∀ h res, clone_all rec1 h cs = Some res → clone_all rec2 h cs = Some res.
Proof.
  intros Hrec. induction cs as [|x cs IH]; intros h res; [done|]. simpl.
  destruct (rec1 h x) as [[h1 y]|] eqn:H1; [|done]. rewrite (Hrec _ _ _ H1). simpl.
  destruct (clone_all rec1 h1 cs) as [[h2 ys]|] eqn:H2; [|done].
  by rewrite (IH _ _ H2).
Qed.

(** More fuel never changes the result of [cloneDeep]. *)
Lemma cloneDeep_mono fuel fuel' h o res :
  (fuel ≤ fuel')%nat → cloneDeep fuel h o = Some res → cloneDeep fuel' h o = Some res.
Proof.
  revert fuel' h o res. induction fuel as [|fuel IH]; intros fuel' h o res Hle; [done|].
  destruct fuel' as [|fuel']; [lia|]. simpl.
  destruct (h !! o) as [nd|]; [|done]. simpl.
  destruct (children nd) as [cs|]; [|done].
  destruct (clone_all (cloneDeep fuel) h cs) as [[h1 cs']|] eqn:Hcs; [|done].
  rewrite (clone_all_mono (cloneDeep fuel) (cloneDeep fuel') cs) with (res := (h1, cs'));
    [done| |done].
  intros h0 x res0. apply IH. lia.
Qed.





Lemma tree_allocated f h data l x :
  gather (subtree f h) data = Some l → x ∈ l → is_Some (h !! x).
Proof.
  intros Hg Hx. destruct (gather_subtree_inner _ _ _ _ _ Hg Hx) as (lx & Hlx & _).
  by eapply subtree_allocated.
Qed.

End copy_lemmas.

Section clone_operations.
Implicit Types (s : TreeNodeService) (h : gmap ref TreeNode) (o c p : ref).




End clone_operations.

(** ** Trees that grow and shrink *)

Section shape_lemmas.
Implicit Types (h : gmap ref TreeNode) (r x y p n : ref) (l cs t : list ref).

Lemma gather_app_Some rec k1 k2 t :
  gather rec (k1 ++ k2) = Some t ↔
  ∃ t1 t2, gather rec k1 = Some t1 ∧ gather rec k2 = Some t2 ∧ t = t1 ++ t2.
Proof.
  revert t. induction k1 as [|c k1 IH]; intros t; simpl.
  - split.
    + intros Ht. by exists [], t.
    + by intros (t1 & t2 & [= <-] & -> & ->).
  - split.
    + destruct (rec c) as [a|]; [|done]. simpl.
      destruct (gather rec (k1 ++ k2)) as [b|] eqn:Hb; [|done]. simpl.
      intros [= <-]. destruct (proj1 (IH b) eq_refl) as (t1 & t2 & Ht1 & Ht2 & ->).
      exists (a ++ t1), t2. rewrite Ht1. simpl. by rewrite (assoc_L (++)).
    + intros (t1 & t2 & Ht1 & Ht2 & ->).
      destruct (rec c) as [a|]; [|done]. simpl in *.
      destruct (gather rec k1) as [b|]; [|done]. simpl in Ht1. injection Ht1 as <-.
      assert (gather rec (k1 ++ k2) = Some (b ++ t2)) as ->
        by (apply IH; by exists b, t2).
      simpl. by rewrite (assoc_L (++)).
Qed.

(** A traversal of a tree whose children arrays have lost elements ends and
    lists a part of the old listing, in the old order. *)
Lemma gather_subtree_shrink fuel h h' :
  ∀ cs cs' t,
    gather (subtree fuel h) cs = Some t → cs' `sublist_of` cs →
    (∀ x, x ∈ t → is_Some (h' !! x)) →
    (∀ x, x ∈ t → children_list h' x `sublist_of` children_list h x) →
    ∃ t', gather (subtree fuel h') cs' = Some t' ∧ t' `sublist_of` t.
Proof.
  induction fuel as [|fuel IH]; intros cs cs' t Hg Hsub Halloc Hch.
  - destruct cs as [|c cs]; [|done]. apply sublist_nil_r in Hsub as ->.
    injection Hg as <-. by exists [].
  - revert t Hg Halloc Hch.
    induction Hsub as [|c cs' cs Hsub IHs|c cs' cs Hsub IHs]; intros t Hg Halloc Hch.
    + injection Hg as <-. by exists [].
    + apply gather_cons_Some in Hg as (a & b & Ha & Hb & ->).
      apply subtree_S_Some in Ha as (ta & Hc & Hta & ->).
      destruct (IH (children_list h c) (children_list h' c) ta Hta) as (ta' & Hta' & Hsa).
      { apply Hch. left. }
      { intros x Hx. apply Halloc. right. apply elem_of_app. by left. }
      { intros x Hx. apply Hch. right. apply elem_of_app. by left. }
      destruct (IHs b Hb) as (b' & Hb' & Hsb).
      { intros x Hx. apply Halloc. apply elem_of_app. by right. }
      { intros x Hx. apply Hch. apply elem_of_app. by right. }
      exists ((c :: ta') ++ b'). split.
      * apply gather_cons_Some. exists (c :: ta'), b'. split_and!; [|done|done].
        apply subtree_S_Some. exists ta'. split_and!; [|done|done].
        apply Halloc. left.
      * apply sublist_app; [|done]. by apply sublist_skip.
    + apply gather_cons_Some in Hg as (a & b & Ha & Hb & ->).
      destruct (IHs b Hb) as (b' & Hb' & Hsb).
      { intros x Hx. apply Halloc. apply elem_of_app. by right. }
      { intros x Hx. apply Hch. apply elem_of_app. by right. }
      exists b'. split; [done|]. by apply sublist_inserts_l.
Qed.

(** A traversal of a tree after a subtree [n] that shares nothing with it
    has been put into the children array of [p]: it ends and lists the old
    objects and, when [p] is in the tree, those of the new subtree. *)
Lemma gather_subtree_insert f g h h' p n ln k1 k2 :
  subtree g h n = Some ln →
  (∀ x, x ≠ p → h' !! x = h !! x) →
  is_Some (h' !! p) →
  children_list h p = k1 ++ k2 → children_list h' p = k1 ++ n :: k2 →
  ∀ cs t,
    gather (subtree f h) cs = Some t → NoDup t → (∀ x, x ∈ ln → x ∉ t) →
    ∃ t', gather (subtree (f + g) h') cs = Some t' ∧
          t' ≡ₚ t ++ (if decide (p ∈ t) then ln else []).
Proof.
  intros Hn Hne Hp Hk Hk'.
  assert (∀ x, x ≠ p → children_list h' x = children_list h x) as Hch.
  { intros x Hx. unfold children_list, children_of. by rewrite Hne. }
  induction f as [|f IH]; intros cs t Hg Hnd Hdisj.
  { destruct cs as [|c cs]; [|done]. injection Hg as <-. exists [].
    split; [done|]. by rewrite decide_False by apply not_elem_of_nil. }
  revert t Hg Hnd Hdisj. induction cs as [|c cs IHcs]; intros t Hg Hnd Hdisj.
  { injection Hg as <-. exists [].
    split; [done|]. by rewrite decide_False by apply not_elem_of_nil. }
  apply gather_cons_Some in Hg as (a & b & Ha & Hb & ->).
  apply NoDup_app in Hnd as (Hnda & Hab & Hndb).
  apply subtree_S_Some in Ha as (ta & Hc & Hta & ->).
  apply NoDup_cons in Hnda as [Hcta Hndta].
  assert (∃ a', subtree (S f + g) h' c = Some a' ∧
                a' ≡ₚ (c :: ta) ++ (if decide (p ∈ c :: ta) then ln else []))
    as (a' & Ha' & Hpa).
  { destruct (decide (c = p)) as [->|Hcp].
    - rewrite Hk in Hta. apply gather_app_Some in Hta as (t1 & t2 & Ht1 & Ht2 & ->).
      apply NoDup_app in Hndta as (Hnd1 & _ & Hnd2).
      assert (p ∉ ln) as Hpln.
      { intros Hin. apply (Hdisj p Hin). apply elem_of_app. left. left. }
      destruct (IH k1 t1 Ht1 Hnd1) as (t1' & Ht1' & Hp1).
      { intros x Hx Hx1. apply (Hdisj x Hx). apply elem_of_app. left. right.
        apply elem_of_app. by left. }
      destruct (IH k2 t2 Ht2 Hnd2) as (t2' & Ht2' & Hp2).
      { intros x Hx Hx2. apply (Hdisj x Hx). apply elem_of_app. left. right.
        apply elem_of_app. by right. }
      rewrite decide_False in Hp1
        by (intros Hin; apply Hcta, elem_of_app; by left).
      rewrite decide_False in Hp2
        by (intros Hin; apply Hcta, elem_of_app; by right).
      rewrite app_nil_r in Hp1, Hp2.
      assert (subtree (f + g) h' n = Some ln) as Hn'.
      { eapply subtree_mono; [|eapply subtree_frame; [exact Hn|]]; [lia|].
        intros x Hx. assert (x ≠ p) as Hxp by (by intros ->).
        rewrite Hne, Hch by done. split; [|done].
        destruct (subtree_inner _ _ _ _ _ Hn Hx) as (lx & Hlx & _).
        by eapply subtree_allocated. }
      exists (p :: t1' ++ ln ++ t2'). split.
      + change (S f + g)%nat with (S (f + g)). apply subtree_S_Some.
        exists (t1' ++ ln ++ t2'). split_and!; [done| |done].
        rewrite Hk'. apply gather_app_Some. exists t1', (ln ++ t2').
        split_and!; [done| |done].
        apply gather_cons_Some. by exists ln, t2'.
      + rewrite decide_True by left. simpl. constructor.
        rewrite Hp1, Hp2. rewrite <-!(assoc_L (++)). f_equiv.
        apply Permutation_app_comm.
    - destruct (IH (children_list h c) ta Hta Hndta) as (ta' & Hta' & Hpt).
      { intros x Hx Hxt. apply (Hdisj x Hx). apply elem_of_app. left. by right. }
      exists (c :: ta'). split.
      + change (S f + g)%nat with (S (f + g)). apply subtree_S_Some.
        exists ta'. split_and!; [by rewrite Hne|by rewrite Hch|done].
      + simpl. constructor. rewrite Hpt.
        destruct (decide (p ∈ ta)) as [Hin|Hout].
        * by rewrite decide_True by (by right).
        * rewrite decide_False; [done|].
          intros [?|?]%elem_of_cons; [congruence|done]. }
  destruct (IHcs b Hb Hndb) as (b' & Hb' & Hpb).
  { intros x Hx Hxb. apply (Hdisj x Hx). apply elem_of_app. by right. }
  exists (a' ++ b'). split.
  - apply gather_cons_Some. by exists a', b'.
  - rewrite Hpa, Hpb.
    destruct (decide (p ∈ c :: ta)) as [Hina|Houta].
    + rewrite decide_False by (by apply Hab).
      rewrite decide_True by (apply elem_of_app; by left).
      rewrite app_nil_r, <-!(assoc_L (++)). f_equiv. apply Permutation_app_comm.
    + rewrite app_nil_r. destruct (decide (p ∈ b)) as [Hinb|Houtb].
      * rewrite decide_True by (apply elem_of_app; by right).
        by rewrite (assoc_L (++)).
      * rewrite decide_False; [by rewrite !app_nil_r|].
        by intros [?|?]%elem_of_app.
Qed.

(** The same for a subtree put into the root array. *)
Lemma gather_subtree_insert_root f g h n ln d1 d2 t :
  subtree g h n = Some ln → gather (subtree f h) (d1 ++ d2) = Some t →
  ∃ t', gather (subtree (f + g) h) (d1 ++ n :: d2) = Some t' ∧ t' ≡ₚ t ++ ln.
Proof.
  intros Hn (t1 & t2 & Ht1 & Ht2 & ->)%gather_app_Some.
  exists (t1 ++ ln ++ t2). split.
  - apply gather_app_Some. exists t1, (ln ++ t2). split_and!; [|..|done].
    + eapply gather_subtree_mono; [|done]. lia.
    + apply gather_cons_Some. exists ln, t2. split_and!; [|..|done].
      * eapply subtree_mono; [|done]. lia.
      * eapply gather_subtree_mono; [|done]. lia.
  - rewrite <-!(assoc_L (++)). f_equiv. apply Permutation_app_comm.
Qed.

(** In a tree the root array and every children array hold an object once. *)
Lemma tree_roots_NoDup fuel h cs l :
  gather (subtree fuel h) cs = Some l → NoDup l → NoDup cs.
Proof.
  intros Hg Hnd. rewrite (gather_subtree_perm _ _ _ _ Hg) in Hnd.
  by apply NoDup_app in Hnd as (? & _).
Qed.

Lemma tree_children_NoDup fuel h cs l p :
  gather (subtree fuel h) cs = Some l → NoDup l → p ∈ l →
  NoDup (children_list h p).
Proof.
  intros Hg Hnd Hp. rewrite (gather_subtree_perm _ _ _ _ Hg) in Hnd.
  apply NoDup_app in Hnd as (_ & _ & Hj).
  apply list_elem_of_split in Hp as (l1 & l2 & ->).
  rewrite fmap_app, fmap_cons, join_app in Hj. simpl in Hj.
  apply NoDup_app in Hj as (_ & _ & Hj). by apply NoDup_app in Hj as (? & _).
Qed.

(** An object whose traversal ends is not its own child. *)
Lemma subtree_not_own_child fuel h p l :
  subtree fuel h p = Some l → p ∉ children_list h p.
Proof.
  revert l. induction fuel as [|fuel IH]; intros l; [done|].
  intros (t & _ & Ht & ->)%subtree_S_Some Hpp.
  destruct (gather_Some_elem _ _ _ _ Ht Hpp) as (lp & Hlp & _).
  by apply (IH lp).
Qed.
End shape_lemmas.

(** ** Insertion and deletion on a tree *)

Section insert_delete_lemmas.
Implicit Types (s : TreeNodeService) (h : gmap ref TreeNode).
Implicit Types (r x y p n sib : ref) (l cs pre post : list ref).

Lemma indexOf_first pre post x :
  x ∉ pre → JsArray.indexOf (pre ++ x :: post) x = Z.of_nat (length pre).
Proof.
  intros Hpre. induction pre as [|y pre IH]; simpl.
  - by rewrite decide_True.
  - apply not_elem_of_cons in Hpre as [Hne Hpre].
    rewrite decide_False by congruence. rewrite IH by done.
    rewrite decide_False by lia. lia.
Qed.

(** [splice(indexOf(x), 0, n)] inserts in front of the first [x]. *)
Lemma splice_insert_before pre post x n :
  x ∉ pre →
  JsArray.splice (pre ++ x :: post) (JsArray.indexOf (pre ++ x :: post) x + 0) 0 [n]
  = pre ++ n :: x :: post.
Proof.
  intros Hpre. rewrite (indexOf_first _ _ _ Hpre).
  unfold JsArray.splice, JsArray.relativeStart.
  rewrite decide_False by lia. rewrite length_app. simpl.
  replace (Z.to_nat _) with (length pre) by lia.
  rewrite Nat.add_0_r, take_app_length, drop_app_length. done.
Qed.

(** [splice(indexOf(x) + 1, 0, n)] inserts behind the first [x]. *)
Lemma splice_insert_after pre post x n :
  x ∉ pre →
  JsArray.splice (pre ++ x :: post) (JsArray.indexOf (pre ++ x :: post) x + 1) 0 [n]
  = pre ++ x :: n :: post.
Proof.
  intros Hpre. rewrite (indexOf_first _ _ _ Hpre).
  unfold JsArray.splice, JsArray.relativeStart.
  rewrite decide_False by lia. rewrite length_app. simpl.
  replace (Z.to_nat _) with (length (pre ++ [x]))
    by (rewrite length_app; simpl; lia).
  rewrite Nat.add_0_r.
  replace (pre ++ x :: post) with ((pre ++ [x]) ++ post)
    by (by rewrite <-(assoc_L (++))).
  rewrite take_app_length, drop_app_length. by rewrite <-(assoc_L (++)).
Qed.

Lemma descendants_update fuel s s' :
  update fuel s = Some s' → descendants fuel s' = descendants fuel s.
Proof.
  intros (Hobj & Hdata & _)%update_same_tree. unfold descendants.
  by rewrite Hobj, Hdata.
Qed.

Lemma getParent_update fuel s s' n :
  update fuel s = Some s' → getParent fuel s' n = getParent fuel s n.
Proof.
  intros (Hobj & Hdata & _)%update_same_tree. unfold getParent.
  by rewrite Hobj, Hdata.
Qed.

(** [update] after a subtree that shares nothing with the tree has been put
    into the children array of [p]. *)
Lemma update_after_child_insert f g fuel s l p nd n ln k1 k2 :
  tree_shaped f s l → subtree g (objects s) n = Some ln → NoDup ln →
  (∀ x, x ∈ ln → x ∉ l) →
  objects s !! p = Some nd → default [] (children nd) = k1 ++ k2 →
  (f + g ≤ fuel)%nat →
  ∃ s' l',
    update fuel (set_objects s (<[p := mkTreeNode (name nd) (Some (k1 ++ n :: k2))]>
                                  (objects s))) = Some s' ∧
    objects s' = <[p := mkTreeNode (name nd) (Some (k1 ++ n :: k2))]> (objects s) ∧
    _data s' = _data s ∧
    tree_shaped fuel s' l' ∧
    l' ≡ₚ l ++ (if decide (p ∈ l) then ln else []).
Proof.
  intros [Hd Hnd] Hn Hndn Hdisj Hp Hk Hle.
  set (h' := <[p := mkTreeNode (name nd) (Some (k1 ++ n :: k2))]> (objects s)).
  destruct (gather_subtree_insert f g (objects s) h' p n ln k1 k2 Hn)
    with (cs := _data s) (t := l) as (l' & Hl' & Hperm); try done.
  - intros x Hx. unfold h'. by rewrite lookup_insert_ne.
  - unfold h'. rewrite lookup_insert_eq. by eexists.
  - by rewrite <-(children_list_lookup _ _ _ Hp).
  - unfold children_list, children_of, h'. by rewrite lookup_insert_eq.
  - assert (descendants fuel (set_objects s h') = Some l') as Hd'.
    { unfold descendants. simpl. eapply gather_subtree_mono; [|done]. lia. }
    destruct (update_total fuel _ _ Hd') as [s' Hs'].
    exists s', l'. split; [done|].
    pose proof (descendants_update _ _ _ Hs') as Hds.
    apply update_same_tree in Hs' as (Hobj & Hdata & _).
    split_and!; [done|done| |done].
    split; [by rewrite Hds|]. rewrite Hperm. apply NoDup_app.
    split_and!; [done| |by destruct (decide (p ∈ l)); [|apply NoDup_nil]].
    intros x Hx Hxn. destruct (decide (p ∈ l)); [|by apply elem_of_nil in Hxn].
    by apply (Hdisj x).
Qed.

(** [update] after such a subtree has been put into the root array. *)
Lemma update_after_root_insert f g fuel s l n ln d1 d2 :
  tree_shaped f s l → subtree g (objects s) n = Some ln → NoDup ln →
  (∀ x, x ∈ ln → x ∉ l) → _data s = d1 ++ d2 → (f + g ≤ fuel)%nat →
  ∃ s' l',
    update fuel (set__data s (d1 ++ n :: d2)) = Some s' ∧
    objects s' = objects s ∧ _data s' = d1 ++ n :: d2 ∧
    tree_shaped fuel s' l' ∧ l' ≡ₚ l ++ ln.
Proof.
  intros [Hd Hnd] Hn Hndn Hdisj Hdata Hle.
  unfold descendants in Hd. rewrite Hdata in Hd.
  destruct (gather_subtree_insert_root f g (objects s) n ln d1 d2 l Hn Hd)
    as (l' & Hl' & Hperm).
  assert (descendants fuel (set__data s (d1 ++ n :: d2)) = Some l') as Hd'.
  { unfold descendants. simpl. eapply gather_subtree_mono; [|done]. lia. }
  destruct (update_total fuel _ _ Hd') as [s' Hs'].
  exists s', l'. split; [done|].
  pose proof (descendants_update _ _ _ Hs') as Hds.
  apply update_same_tree in Hs' as (Hobj & Hdata' & _).
  split_and!; [done|done| |done].
  split; [by rewrite Hds|]. rewrite Hperm. apply NoDup_app.
  split_and!; [done| |done]. intros x Hx Hxn. by apply (Hdisj x).
Qed.

(** What [delete] leaves of a tree. *)
Lemma delete_descendants fuel s l n s1 :
  tree_shaped fuel s l → _delete (S fuel) s RootArray n = Some s1 →
  ∃ l', descendants fuel s1 = Some l' ∧ l' `sublist_of` l ∧ (n ∉ l') ∧
        (n ∉ l → l' = l).
Proof.
  intros Htree Hdel. pose proof Htree as [Hd Hnd].
  destruct (delete_core fuel s l n Htree) as (s1' & Hdel' & Hcases).
  rewrite Hdel in Hdel'. injection Hdel' as <-.
  assert (∀ x, x ∈ _data s → x ∈ l) as Hroots.
  { intros x. apply (gather_roots _ _ _ (subtree_root fuel (objects s)) Hd). }
  destruct Hcases as [[Hroot ->]|[(Hroot & p & Hp & Hnp & ->)|[Hn ->]]].
  - destruct (indexOf_present _ _ Hroot) as (pre & post & Hdata & Hpre & _).
    pose proof (tree_roots_NoDup _ _ _ _ Hd Hnd) as Hndd. rewrite Hdata in Hndd.
    apply NoDup_app in Hndd as (_ & _ & [Hpost _]%NoDup_cons).
    destruct (gather_subtree_shrink fuel (objects s) (objects s) (_data s)
                (pre ++ post) l Hd) as (l' & Hl' & Hsub).
    + rewrite Hdata. apply sublist_app; [done|]. by apply sublist_cons.
    + intros x Hx. by eapply tree_allocated.
    + done.
    + exists l'. unfold descendants. simpl. rewrite Hdata.
      rewrite splice_remove_first by done. split_and!; [done|done| |].
      * intros Hn.
        destruct (tree_root_or_child _ _ _ _ _ Hl' Hn) as [Hin|(q & Hq & Hnq)].
        -- by apply elem_of_app in Hin as [?|?].
        -- apply (tree_root_no_parent _ _ _ _ q n Hd Hnd Hroot); [|done].
           by eapply elem_of_sublist.
      * intros Hn. by destruct (Hn (Hroots n Hroot)).
  - assert (∃ pre post, children_list (objects s) p = pre ++ n :: post ∧ n ∉ pre)
      as (pre & post & Hcs & Hpre).
    { destruct (indexOf_present _ _ Hnp) as (pre & post & ? & ? & _). by exists pre, post. }
    pose proof (tree_children_NoDup _ _ _ _ p Hd Hnd Hp) as Hndc. rewrite Hcs in Hndc.
    apply NoDup_app in Hndc as (_ & _ & [Hpost _]%NoDup_cons).
    assert (children_list (objects (remove_child s p n)) p = pre ++ post) as Hnew.
    { destruct (tree_allocated _ _ _ _ _ Hd Hp) as [ndp Hndp].
      unfold remove_child, children_list at 1, children_of. simpl.
      rewrite lookup_alter_eq, Hndp. simpl. rewrite Hcs.
      by apply splice_remove_first. }
    destruct (gather_subtree_shrink fuel (objects s) (objects (remove_child s p n))
                (_data s) (_data s) l Hd) as (l' & Hl' & Hsub).
    + done.
    + intros x Hx. destruct (decide (x = p)) as [->|Hne].
      * unfold remove_child. simpl. rewrite lookup_alter_eq. apply fmap_is_Some.
        by eapply tree_allocated.
      * rewrite remove_child_lookup_ne by done. by eapply tree_allocated.
    + intros x Hx. destruct (decide (x = p)) as [->|Hne].
      * rewrite Hnew, Hcs. apply sublist_app; [done|]. by apply sublist_cons.
      * by rewrite remove_child_children_ne.
    + exists l'. split_and!; [done|done| |].
      * intros Hn.
        destruct (tree_root_or_child _ _ _ _ _ Hl' Hn) as [Hin|(q & Hq & Hnq)]; [done|].
        destruct (decide (q = p)) as [->|Hne].
        -- rewrite Hnew in Hnq. by apply elem_of_app in Hnq as [?|?].
        -- rewrite remove_child_children_ne in Hnq by done. apply Hne.
           eapply (tree_parent_unique fuel (objects s) (_data s) l q p n); try done.
           by eapply elem_of_sublist.
      * intros Hn. destruct Hn. by eapply gather_subtree_child.
  - exists l. by split_and!.
Qed.
End insert_delete_lemmas.

Section sibling_lemmas.
Implicit Types (s : TreeNodeService) (h : gmap ref TreeNode).
Implicit Types (r x y p n sib : ref) (l cs pre post : list ref).

Lemma tree_shaped_mono f fuel s l :
  (f ≤ fuel)%nat → tree_shaped f s l → tree_shaped fuel s l.
Proof. intros Hle [Hd Hnd]. split; [|done]. by eapply gather_subtree_mono. Qed.

Lemma splice_inserted_at index pre post sib n :
  sib ∉ pre → index = 0 ∨ index = 1 →
  JsArray.splice (pre ++ sib :: post)
    (JsArray.indexOf (pre ++ sib :: post) sib + index) 0 [n]
  = inserted_at index pre sib post n.
Proof.
  intros Hpre [-> | ->]; unfold inserted_at.
  - rewrite decide_True by done. by apply splice_insert_before.
  - rewrite decide_False by done. by apply splice_insert_after.
Qed.

Lemma inserted_at_split index pre post sib n :
  ∃ d1 d2, pre ++ sib :: post = d1 ++ d2 ∧
           inserted_at index pre sib post n = d1 ++ n :: d2.
Proof.
  unfold inserted_at. case_decide.
  - by exists pre, (sib :: post).
  - exists (pre ++ [sib]), post. by rewrite <-!(assoc_L (++)).
Qed.

Lemma elem_of_inserted_at index pre post sib n x :
  x ∈ inserted_at index pre sib post n ↔ x = n ∨ x ∈ pre ++ sib :: post.
Proof.
  unfold inserted_at. case_decide;
    rewrite !elem_of_app, !elem_of_cons, ?elem_of_app, ?elem_of_cons; tauto.
Qed.

(** [_insertSibling] next to a root of the tree. *)
Lemma _insertSibling_root f g fuel s l sib pre post n ln index :
  tree_shaped f s l → _data s = pre ++ sib :: post →
  subtree g (objects s) n = Some ln → NoDup ln → (∀ x, x ∈ ln → x ∉ l) →
  (f + g ≤ fuel)%nat → index = 0 ∨ index = 1 →
  ∃ s' l',
    _insertSibling fuel s sib n index = Some s' ∧
    objects s' = objects s ∧ _data s' = inserted_at index pre sib post n ∧
    tree_shaped fuel s' l' ∧ l' ≡ₚ l ++ ln.
Proof.
  intros Htree Hdata Hn Hndn Hdisj Hle Hindex.
  assert (tree_shaped fuel s l) as Htree' by (eapply tree_shaped_mono; [|done]; lia).
  pose proof Htree as [Hd Hnd].
  pose proof (tree_roots_NoDup _ _ _ _ Hd Hnd) as Hndd. rewrite Hdata in Hndd.
  apply NoDup_app in Hndd as (_ & Hpre & _).
  assert (sib ∉ pre) as Hsib by (intros Hin; apply (Hpre sib Hin); left).
  unfold _insertSibling. rewrite (getParent_root fuel s l sib Htree').
  2:{ rewrite Hdata. apply elem_of_app. right. left. }
  simpl. rewrite Hdata, (splice_inserted_at _ _ _ _ _ Hsib Hindex).
  destruct (inserted_at_split index pre post sib n) as (d1 & d2 & Hsplit & ->).
  apply (update_after_root_insert f g fuel s l n ln d1 d2); try done.
  by rewrite Hdata.
Qed.

(** [_insertSibling] next to a child of an object of the tree. *)
Lemma _insertSibling_child f g fuel s l p nd sib pre post n ln index :
  tree_shaped f s l → p ∈ l → objects s !! p = Some nd →
  children nd = Some (pre ++ sib :: post) →
  subtree g (objects s) n = Some ln → NoDup ln → (∀ x, x ∈ ln → x ∉ l) →
  (f + g ≤ fuel)%nat → index = 0 ∨ index = 1 →
  ∃ s' l',
    _insertSibling fuel s sib n index = Some s' ∧
    _data s' = _data s ∧
    objects s' = <[p := mkTreeNode (name nd)
                          (Some (inserted_at index pre sib post n))]> (objects s) ∧
    tree_shaped fuel s' l' ∧ l' ≡ₚ l ++ ln.
Proof.
  intros Htree Hp Hnd' Hch Hn Hndn Hdisj Hle Hindex.
  assert (tree_shaped fuel s l) as Htree' by (eapply tree_shaped_mono; [|done]; lia).
  pose proof Htree as [Hd Hnd].
  assert (children_list (objects s) p = pre ++ sib :: post) as Hcl.
  { unfold children_list, children_of. rewrite Hnd'. simpl. by rewrite Hch. }
  pose proof (tree_children_NoDup _ _ _ _ p Hd Hnd Hp) as Hndc. rewrite Hcl in Hndc.
  apply NoDup_app in Hndc as (_ & Hpre & _).
  assert (sib ∉ pre) as Hsib by (intros Hin; apply (Hpre sib Hin); left).
  unfold _insertSibling. rewrite (getParent_child fuel s l sib p Htree' Hp).
  2:{ rewrite Hcl. apply elem_of_app. right. left. }
  simpl. unfold children_of. rewrite Hnd'. simpl. rewrite Hch.
  rewrite (splice_inserted_at _ _ _ _ _ Hsib Hindex).
  rewrite (alter_as_insert _ _ _ _ Hnd'). simpl.
  destruct (inserted_at_split index pre post sib n) as (d1 & d2 & Hsplit & Hins).
  rewrite Hins.
  destruct (update_after_child_insert f g fuel s l p nd n ln d1 d2)
    as (s' & l' & Hs' & Hobj & Hdata & Htree'' & Hperm); try done.
  { by rewrite Hch. }
  exists s', l'. split_and!; try done.
  by rewrite Hperm, decide_True.
Qed.

Lemma delete_root_effect fuel s l n :
  tree_shaped fuel s l → n ∈ _data s →
  ∃ s', delete fuel s n = Some s' ∧ objects s' = objects s ∧
        _data s' = JsArray.splice (_data s) (JsArray.indexOf (_data s) n) 1 [].
Proof.
  intros Htree Hroot.
  destruct (delete_core fuel s l n Htree) as (s1 & Hdel & Hcases).
  destruct (delete_core_traversal fuel s l n s1 Htree Hdel) as [l1 Hl1].
  destruct (update_total fuel s1 l1 Hl1) as [s' Hupd].
  exists s'. split; [unfold delete; by rewrite Hdel|].
  apply update_same_tree in Hupd as (-> & -> & _).
  destruct Hcases as [[_ ->]|[(Hn & _)|[Hn _]]]; [done|done|].
  destruct Htree as [Hd _]. destruct Hn.
  by apply (gather_roots _ _ _ (subtree_root fuel (objects s)) Hd).
Qed.

Lemma delete_child_effect fuel s l p n :
  tree_shaped fuel s l → p ∈ l → n ∈ children_list (objects s) p →
  ∃ s', delete fuel s n = Some s' ∧ _data s' = _data s ∧
        objects s' = objects (remove_child s p n).
Proof.
  intros Htree Hp Hnp. pose proof Htree as [Hd Hnd].
  destruct (delete_core fuel s l n Htree) as (s1 & Hdel & Hcases).
  destruct (delete_core_traversal fuel s l n s1 Htree Hdel) as [l1 Hl1].
  destruct (update_total fuel s1 l1 Hl1) as [s' Hupd].
  exists s'. split; [unfold delete; by rewrite Hdel|].
  apply update_same_tree in Hupd as (-> & -> & _).
  destruct Hcases as [[Hroot _]|[(_ & q & Hq & Hnq & ->)|[Hn _]]].
  - by destruct (tree_root_no_parent _ _ _ _ p n Hd Hnd Hroot Hp).
  - by rewrite (tree_parent_unique _ _ _ _ q p n Hd Hnd Hq Hp Hnq Hnp).
  - destruct Hn. by eapply gather_subtree_child.
Qed.

Lemma insertChild_store h p nd n :
  h !! p = Some nd →
  alter (λ q, mkTreeNode (name q) (flip JsArray.push n <$> children q)) p
    (alter (λ q, match children q with
                 | Some _ => q
                 | None => mkTreeNode (name q) (Some [])
                 end) p h)
  = <[p := mkTreeNode (name nd) (Some (default [] (children nd) ++ [n]))]> h.
Proof.
  intros Hp. apply map_eq. intros x. destruct (decide (x = p)) as [->|Hne].
  - rewrite !lookup_alter_eq, lookup_insert_eq, Hp. simpl.
    destruct (children nd) as [cs|] eqn:Hcs; simpl; [|done]. by rewrite Hcs.
  - by rewrite !lookup_alter_ne, lookup_insert_ne.
Qed.
End sibling_lemmas.

Section round_trip_lemmas.
Implicit Types (s : TreeNodeService) (h : gmap ref TreeNode).
Implicit Types (r x y p n sib : ref) (l cs pre post : list ref).

Lemma splice_remove_inserted index pre post sib n :
  n ∉ pre ++ sib :: post →
  JsArray.splice (inserted_at index pre sib post n)
    (JsArray.indexOf (inserted_at index pre sib post n) n) 1 []
  = pre ++ sib :: post.
Proof.
  intros Hn. unfold inserted_at. case_decide.
  - apply splice_remove_first. intros Hin. apply Hn, elem_of_app. by left.
  - replace (pre ++ sib :: n :: post) with ((pre ++ [sib]) ++ n :: post)
      by (by rewrite <-(assoc_L (++))).
    rewrite splice_remove_first; [by rewrite <-(assoc_L (++))|].
    intros [Hin|Hin%list_elem_of_singleton]%elem_of_app.
    + apply Hn, elem_of_app. by left.
    + apply Hn, elem_of_app. right. rewrite Hin. left.
Qed.

(** The store after the first [n] has left the children array [cs] that an
    insertion gave to [p]. *)
Lemma remove_child_inserted s h p nd cs cs' n :
  objects s = <[p := mkTreeNode (name nd) (Some cs)]> h →
  JsArray.splice cs (JsArray.indexOf cs n) 1 [] = cs' →
  objects (remove_child s p n) = <[p := mkTreeNode (name nd) (Some cs')]> h.
Proof.
  intros Hobj Hcs. unfold remove_child, children_list, children_of. simpl.
  rewrite Hobj, lookup_insert_eq. simpl.
  rewrite (alter_as_insert _ _ _ (mkTreeNode (name nd) (Some cs)))
    by (by rewrite lookup_insert_eq).
  simpl. by rewrite insert_insert_eq, Hcs.
Qed.

Lemma node_with_children nd cs :
  children nd = Some cs → mkTreeNode (name nd) (Some cs) = nd.
Proof. destruct nd as [nm ch]. simpl. by intros ->. Qed.
End round_trip_lemmas.

(** ** Paths of parents and children *)

Section path_extension_lemmas.
Implicit Types (s : TreeNodeService) (h : gmap ref TreeNode).
Implicit Types (r x y p : ref) (l acc pre : list ref).

Lemma getNodePath_loop_prefix n fuel s pre acc q :
  getNodePath_loop n fuel s (pre ++ acc) q
  = (pre ++.) <$> getNodePath_loop n fuel s acc q.
Proof.
  revert acc q. induction n as [|n IH]; intros acc [p|]; try done.
  simpl. destruct (getParent fuel s p) as [next|]; [|done]. simpl.
  unfold JsArray.push. rewrite <-(assoc_L (++)). apply IH.
Qed.

Lemma getNodePath_loop_more n fuel s acc q res :
  getNodePath_loop n fuel s acc q = Some res →
  getNodePath_loop (S n) fuel s acc q = Some res.
Proof.
  revert acc q. induction n as [|n IH]; intros acc [p|]; try done.
  intros H.
  change (getParent fuel s p ≫= getNodePath_loop n fuel s (JsArray.push acc p)
          = Some res) in H.
  change (getParent fuel s p ≫= getNodePath_loop (S n) fuel s (JsArray.push acc p)
          = Some res).
  destruct (getParent fuel s p) as [next|]; [|done]. simpl in *. by apply IH.
Qed.

Lemma getNodePath_loop_step n fuel s acc p res :
  getNodePath_loop n fuel s acc (Some p) = Some res →
  ∃ next, getParent fuel s p = Some next ∧
          getNodePath_loop n fuel s (acc ++ [p]) next = Some res.
Proof.
  destruct n as [|n]; [done|]. intros H.
  change (getParent fuel s p ≫= getNodePath_loop n fuel s (JsArray.push acc p)
          = Some res) in H.
  destruct (getParent fuel s p) as [next|]; [|done]. simpl in H.
  exists next. split; [done|]. by apply getNodePath_loop_more.
Qed.

(** The path of a child is the path of its parent followed by the child. *)
Lemma getNodePath_child fuel s l p x :
  tree_shaped fuel s l → p ∈ l → x ∈ children_list (objects s) p →
  ∃ pp, getNodePath fuel s p = Some pp ∧ last pp = Some p ∧
        getNodePath fuel s x = Some (pp ++ [x]).
Proof.
  intros Htree Hp Hx.
  destruct (getNodePath_total fuel s l x Htree) as [px Hpx].
  destruct (getNodePath_chain fuel s l p Htree Hp) as (pp & r0 & Hpp & Hlast & _).
  exists pp. split_and!; [done|done|].
  unfold getNodePath in Hpx, Hpp |- *.
  rewrite (getParent_child fuel s l x p Htree Hp Hx) in Hpx |- *. simpl in Hpx |- *.
  destruct (getNodePath_loop fuel fuel s [x] (Some p)) as [res|] eqn:Hres; [|done].
  apply getNodePath_loop_step in Hres as (next & Hnext & Hres).
  rewrite Hnext in Hpp. simpl in Hpp.
  rewrite getNodePath_loop_prefix in Hres.
  destruct (getNodePath_loop fuel fuel s [p] next) as [res'|]; [|done].
  simpl in Hres, Hpp |- *. injection Hres as <-. injection Hpp as <-.
  by rewrite reverse_cons.
Qed.

Lemma flattened_allocated s l n :
  flattened s l → n ∈ dataNodes (treeControl s) → is_Some (flatObjects s !! n).
Proof.
  intros Hflat (i & Hi)%list_elem_of_lookup_1.
  destruct (Forall2_lookup_l _ _ _ _ _ Hflat Hi) as (x & _ & Hx).
  unfold stands_for in Hx. destruct (flatObjects s !! n); [by eexists|done].
Qed.

(** The flat node of a flattened node is the one in [dataNodes]. *)
Lemma flattened_flat_node s l x :
  one_flat_per_node s → flattened s l → x ∈ l →
  ∃ n fl, nodeMap s !! x = Some n ∧ n ∈ dataNodes (treeControl s) ∧
          flatObjects s !! n = Some fl ∧ node fl = x.
Proof.
  intros [Hone _] Hflat Hx.
  destruct (flattened_find s l x Hflat Hx) as (n & fl & Hn & Hfl & Hnode).
  exists n, fl. split_and!; try done. rewrite <-Hnode. by apply Hone.
Qed.

Lemma expandLevel_loop_spec (fo : gmap fref TreeFlatNode) lvl (k : list fref) :
  (∀ n, n ∈ k → is_Some (fo !! n)) →
  ∀ c, ∃ c',
    expandLevel_loop fo lvl c k = Some c' ∧
    dataNodes c' = dataNodes c ∧
    ∀ n, isExpanded c' n = true ↔
         isExpanded c n = true ∨
         (n ∈ k ∧ ∃ fl, fo !! n = Some fl ∧ level fl = lvl).
Proof.
  induction k as [|m k IH]; intros Hall c.
  - exists c. split_and!; [done|done|]. intros n. split; [by left|].
    by intros [?|[?%elem_of_nil _]].
  - destruct (Hall m) as [fl Hfl]; [left|]. simpl. rewrite Hfl. simpl.
    destruct (IH (λ n Hn, Hall n (list_elem_of_further _ _ _ Hn))
                (if decide (level fl = lvl) then expand c m else c))
      as (c' & Hc' & Hdn & Hexp).
    exists c'. split_and!; [done| |].
    + rewrite Hdn. by case_decide.
    + intros n. rewrite Hexp, elem_of_cons. case_decide as Hlvl.
      * rewrite isExpanded_expand. split.
        -- intros [[->|?]|(? & ?)]; [right|by left|right].
           ++ split; [by left|]. by exists fl.
           ++ split; [by right|done].
        -- intros [?|([->|?] & ?)]; [left; by right|left; by left|by right].
      * split.
        -- intros [?|(? & ?)]; [by left|right]. split; [by right|done].
        -- intros [?|([->|?] & fl' & Hfl' & Hl)]; [by left| |right; eauto].
           rewrite Hfl in Hfl'. injection Hfl' as <-. done.
Qed.
End path_extension_lemmas.

(** ** What the operations leave alone *)

Section frame_lemmas.
Implicit Types (s : TreeNodeService) (h : gmap ref TreeNode).
Implicit Types (r x y p n : ref) (l : list ref).

Lemma _delete_subject fuel s a n s' :
  _delete fuel s a n = Some s' →
  dataSubject s' = dataSubject s ∧ treeControl s' = treeControl s.
Proof.
  revert s a s'. induction fuel as [|fuel IH]; intros s a s'; [done|].
  rewrite _delete_S. destruct (read_array s a) as [arr|]; [|done]. simpl.
  case_decide.
  - intros [= <-]. by destruct a.
  - apply (for_each_invariant
             (λ s s', dataSubject s' = dataSubject s ∧ treeControl s' = treeControl s)).
    + done.
    + intros ??? [??] [??]. split; congruence.
    + intros s0 x s0' _. unfold delete_body.
      destruct (children_of (objects s0) x) as [cs|]; [|by intros [= <-]].
      case_decide; [apply IH|by intros [= <-]].
Qed.

(** [update] after a change of the tree that leaves subject and tree control
    alone emits once and keeps the expanded flat nodes. *)
Lemma update_emits fuel s s1 s' :
  dataSubject s1 = dataSubject s → treeControl s1 = treeControl s →
  update fuel s1 = Some s' →
  dataSubject s' = _data s' :: dataSubject s ∧
  expansionModel (treeControl s') = expansionModel (treeControl s).
Proof.
  intros Hsub Hctl (_ & Hdata & Hexp & Hemit)%update_same_tree.
  rewrite Hemit, Hexp, Hdata, Hsub, Hctl. done.
Qed.

Lemma _insertSibling_emits fuel s sib n index s' :
  _insertSibling fuel s sib n index = Some s' →
  dataSubject s' = _data s' :: dataSubject s ∧
  expansionModel (treeControl s') = expansionModel (treeControl s).
Proof.
  unfold _insertSibling. destruct (getParent fuel s sib) as [parent|]; [|done].
  simpl. apply update_emits.
  - destruct parent as [p|]; [destruct (children_of (objects s) p)|]; done.
  - destruct parent as [p|]; [destruct (children_of (objects s) p)|]; done.
Qed.

Lemma Forall2_functional {A B : Type} (R : A → B → Prop) (a b : list A) (k : list B) :
  (∀ (f g : A) (z : B), R f z → R g z → f = g) →
  Forall2 R a k → Forall2 R b k → a = b.
Proof.
  intros Hfun Ha. revert b. induction Ha as [|f z a k Hf Ha IH]; intros b Hb.
  - by apply Forall2_nil_inv_r in Hb.
  - apply Forall2_cons_inv_r in Hb as (g & b' & Hg & Hb' & ->).
    f_equal; [by eapply Hfun|by apply IH].
Qed.

(** After flattening, [dataNodes] lists the registered flat nodes of the
    tree. *)
Lemma flattened_registered s l :
  one_flat_per_node s → flattened s l →
  Forall2 (λ f x, nodeMap s !! x = Some f) (dataNodes (treeControl s)) l.
Proof.
  intros [Hone _] Hflat. eapply Forall2_impl; [exact Hflat|].
  intros f x Hst. unfold stands_for in Hst.
  destruct (flatObjects s !! f) as [fl|] eqn:Hfl; [|done].
  simpl in Hst. injection Hst as <-. by apply Hone.
Qed.
End frame_lemmas.

(** ** Levels and expandable flags after flattening *)

Section level_lemmas.
Variable depth : ref → Z.
Implicit Types (s : TreeNodeService) (h : gmap ref TreeNode).
Implicit Types (n x p c : ref) (f : fref) (l t cs : list ref).

Lemma transformer_up_to_date s n f :
  one_flat_per_node s → up_to_date depth s f →
  up_to_date depth (transformer s n (depth n)).1 f.
Proof.
  intros [_ Hinv] (fl & Hfl & Hlvl & Hexp). unfold transformer, up_to_date, set_flat.
  destruct (nodeMap s !! n) as [e|] eqn:Hn; simpl.
  - destruct (decide (f = e)) as [->|Hne].
    + destruct (Hinv n e Hn) as (fl' & Hfl' & Hnode).
      rewrite Hfl in Hfl'. injection Hfl' as <-.
      eexists. rewrite lookup_alter_eq, Hfl. simpl. split; [done|]. simpl.
      by rewrite Hnode.
    + exists fl. by rewrite lookup_alter_ne.
  - exists fl. rewrite lookup_insert_ne; [done|]. intros <-.
    pose proof (is_fresh (dom (flatObjects s))) as Hfr.
    apply not_elem_of_dom in Hfr. congruence.
Qed.

Lemma for_each_up_to_date fuel lvl cs h t :
  level_spec depth fuel →
  gather (subtree fuel h) cs = Some t →
  (∀ c, c ∈ cs → depth c = lvl) →
  (∀ p c, p ∈ t → c ∈ children_list h p → depth c = depth p + 1) →
  ∀ acc acc',
    one_flat_per_node acc.1 → objects acc.1 = h →
    for_each (λ a c, _flattenNode fuel a lvl c) acc cs = Some acc' →
    (∀ f, up_to_date depth acc.1 f → up_to_date depth acc'.1 f) ∧
    (∀ f, f ∈ acc'.2 → f ∈ acc.2 ∨ up_to_date depth acc'.1 f).
Proof.
  intros IH. revert t. induction cs as [|c cs IHcs]; intros t Ht Hlvl Hdepth acc acc' Hinv Hobj.
  - intros [= <-]. split; [done|]. intros f ?. by left.
  - apply gather_cons_Some in Ht as (a & b & Ha & Hb & ->). simpl.
    destruct (_flattenNode fuel acc lvl c) as [acc1|] eqn:Hc; [|done]. simpl.
    intros Hrest.
    pose proof (_flattenNode_same_tree _ _ _ _ _ Hc) as (Hobj1 & _).
    pose proof (_flattenNode_flat_step _ _ _ _ _ Hc) as [Hinv1 _].
    specialize (Hinv1 Hinv).
    rewrite <-(Hlvl c) in Hc by left.
    destruct (IH acc c a acc1 Hinv) as [K1 K2]; [by rewrite Hobj| |done|].
    { rewrite Hobj. intros p c' Hp. apply Hdepth, elem_of_app. by left. }
    destruct (IHcs b Hb) with (acc := acc1) (acc' := acc') as [K3 K4]; try done.
    { intros c' Hc'. apply Hlvl. by right. }
    { intros p c' Hp. apply Hdepth, elem_of_app. by right. }
    { congruence. }
    split.
    + intros f Hf. by apply K3, K1.
    + intros f Hf. destruct (K4 f Hf) as [Hf1|?]; [|by right].
      destruct (K2 f Hf1) as [?|?]; [by left|right; by apply K3].
Qed.

Lemma _flattenNode_up_to_date fuel : level_spec depth fuel.
Proof.
  induction fuel as [|fuel IH]; intros acc n ln acc' Hinv; [done|].
  intros (t & Hn & Ht & ->)%subtree_S_Some Hdepth. simpl.
  pose proof (transformer_same_tree acc.1 n (depth n)) as (Hobj & _).
  pose proof (transformer_result acc.1 n (depth n) Hinv) as Hres.
  pose proof (transformer_flat_step acc.1 n (depth n)) as [Hinv1 _].
  specialize (Hinv1 Hinv).
  pose proof (λ f, transformer_up_to_date acc.1 n f Hinv) as Hutd.
  destruct (transformer acc.1 n (depth n)) as [s1 flatNode]. simpl in *.
  assert (up_to_date depth s1 flatNode) as Hnew.
  { eexists. split; [done|]. simpl. by rewrite Hobj. }
  rewrite Hres. simpl.
  destruct (has_children (objects acc.1) n) eqn:Hhas.
  - rewrite Hobj.
    apply has_children_true in Hhas as (cs & Hcs & _). rewrite Hcs.
    rewrite (children_of_list _ _ _ Hcs) in Ht.
    intros Hloop.
    destruct (for_each_up_to_date fuel (depth n + 1) cs (objects acc.1) t IH Ht)
      with (acc := (s1, JsArray.push acc.2 flatNode)) (acc' := acc')
      as [K1 K2]; try done.
    { intros c Hc. apply Hdepth; [left|].
      by rewrite (children_of_list _ _ _ Hcs). }
    { intros p c Hp. apply Hdepth. by right. }
    split.
    + intros f Hf. by apply K1, Hutd.
    + intros f Hf. destruct (K2 f Hf) as [Hf1|?]; [|by right].
      simpl in Hf1. apply elem_of_app in Hf1 as [? | ->%list_elem_of_singleton].
      * by left.
      * right. by apply K1.
  - intros [= <-]. simpl. split; [done|].
    intros f [? | ->%list_elem_of_singleton]%elem_of_app; [by left|by right].
Qed.

(** After [update] every flat node of [dataNodes] is up to date. *)
Lemma update_up_to_date fuel s l s' :
  one_flat_per_node s → descendants fuel s = Some l →
  (∀ r, r ∈ _data s → depth r = 0) →
  (∀ p c, p ∈ l → c ∈ children_list (objects s) p → depth c = depth p + 1) →
  update fuel s = Some s' →
  ∀ f, f ∈ dataNodes (treeControl s') → up_to_date depth s' f.
Proof.
  intros Hinv Hd Hroots Hdepth. unfold update, flattenNodes.
  destruct (for_each _ _ _) as [[s1 flat]|] eqn:Hf; [|done]. simpl.
  intros [= <-] f Hin. simpl in Hin.
  destruct (for_each_up_to_date fuel 0 (_data s) (objects s) l
              (_flattenNode_up_to_date fuel) Hd Hroots Hdepth
              (s, []) (s1, flat) Hinv eq_refl Hf) as [_ K2].
  destruct (K2 f Hin) as [?%elem_of_nil|Hutd]; [done|]. exact Hutd.
Qed.

Lemma getNodePath_loop_ext n fuel s s' acc q :
  (∀ x, getParent fuel s' x = getParent fuel s x) →
  getNodePath_loop n fuel s' acc q = getNodePath_loop n fuel s acc q.
Proof.
  intros Hext. revert acc q. induction n as [|n IH]; intros acc [p|]; try done.
  simpl. rewrite Hext. destruct (getParent fuel s p) as [next|]; [|done]. simpl.
  apply IH.
Qed.

Lemma getNodePath_update fuel s s' x :
  update fuel s = Some s' → getNodePath fuel s' x = getNodePath fuel s x.
Proof.
  intros Hupd. unfold getNodePath. rewrite (getParent_update _ _ _ _ Hupd).
  destruct (getParent fuel s x) as [q|]; [|done]. simpl.
  rewrite (getNodePath_loop_ext fuel fuel s s'); [done|].
  intros y. by apply getParent_update.
Qed.
End level_lemmas.

(** ** Copies are trees of new objects *)

Section fresh_copy_lemmas.
Implicit Types (s : TreeNodeService) (h : gmap ref TreeNode).
Implicit Types (r x y o c p sib : ref) (l t cs lo lc : list ref).

Lemma clone_all_fresh fuel :
  (∀ h o lo h' c,
     subtree fuel h o = Some lo → cloneDeep fuel h o = Some (h', c) →
     h ⊆ h' ∧ ∃ lc, subtree fuel h' c = Some lc ∧ NoDup lc ∧
                    ∀ x, x ∈ lc → h !! x = None) →
  ∀ cs h t h' cs',
    gather (subtree fuel h) cs = Some t →
    clone_all (cloneDeep fuel) h cs = Some (h', cs') →
    h ⊆ h' ∧ ∃ t', gather (subtree fuel h') cs' = Some t' ∧ NoDup t' ∧
                   ∀ x, x ∈ t' → h !! x = None.
Proof.
  intros IH cs. induction cs as [|o cs IHcs]; intros h t h' cs'.
  - intros _ [= <- <-]. split; [done|]. exists [].
    split_and!; [done|constructor|]. by intros ? ?%elem_of_nil.
  - intros (a & b & Ha & Hb & ->)%gather_cons_Some. simpl.
    destruct (cloneDeep fuel h o) as [[h1 c]|] eqn:Hc; [|done]. simpl.
    destruct (clone_all (cloneDeep fuel) h1 cs) as [[h2 cs2]|] eqn:Hcs; [|done].
    simpl. intros [= <- <-].
    destruct (IH h o a h1 c Ha Hc) as (Hsub1 & lc & Hlc & Hnd1 & Hfresh1).
    destruct (IHcs h1 b h2 cs2) as (Hsub2 & t' & Ht' & Hnd2 & Hfresh2);
      [by eapply gather_subtree_weaken|done|].
    split; [by etrans|]. exists (lc ++ t'). split_and!.
    + apply gather_cons_Some. exists lc, t'.
      split_and!; [by eapply subtree_weaken|done|done].
    + apply NoDup_app. split_and!; [done| |done]. intros x Hx Hx'.
      apply Hfresh2 in Hx'.
      destruct (subtree_inner _ _ _ _ _ Hlc Hx) as (lx & Hlx & _).
      apply subtree_allocated in Hlx as [? Hal]. congruence.
    + intros x [Hx|Hx]%elem_of_app; [by apply Hfresh1|].
      apply Hfresh2 in Hx. destruct (h !! x) as [nd|] eqn:Hnd; [|done].
      by rewrite (lookup_weaken _ _ _ _ Hnd Hsub1) in Hx.
Qed.

(** The copy made by [cloneDeep] is a tree of objects that did not exist. *)
Lemma cloneDeep_fresh fuel h o lo h' c :
  subtree fuel h o = Some lo → cloneDeep fuel h o = Some (h', c) →
  h ⊆ h' ∧ ∃ lc, subtree fuel h' c = Some lc ∧ NoDup lc ∧
                 ∀ x, x ∈ lc → h !! x = None.
Proof.
  revert h o lo h' c. induction fuel as [|fuel IH]; intros h o lo h' c; [done|].
  intros (t & [nd Hnd] & Ht & ->)%subtree_S_Some. simpl. rewrite Hnd. simpl.
  unfold children_list, children_of in Ht. rewrite Hnd in Ht. simpl in Ht.
  destruct (children nd) as [cs|] eqn:Hcs; simpl in Ht.
  - destruct (clone_all (cloneDeep fuel) h cs) as [[h1 cs']|] eqn:Hall; [|done].
    simpl. intros [= <- <-].
    destruct (clone_all_fresh fuel IH cs h t h1 cs' Ht Hall)
      as (Hsub1 & t' & Ht' & Hndt & Hfresh).
    pose proof (is_fresh (dom h1)) as Hfr. apply not_elem_of_dom in Hfr.
    assert (h1 ⊆ <[fresh (dom h1) := mkTreeNode (name nd) (Some cs')]> h1) as Hsub2
      by (by apply insert_subseteq).
    split; [by etrans|]. exists (fresh (dom h1) :: t'). split_and!.
    + apply subtree_S_Some. exists t'. split_and!; [|..|done].
      * rewrite lookup_insert_eq. by eexists.
      * unfold children_list, children_of. rewrite lookup_insert_eq. simpl.
        by eapply gather_subtree_weaken.
    + constructor; [|done]. intros Hin.
      destruct (tree_allocated _ _ _ _ _ Ht' Hin) as [? Hal]. congruence.
    + intros x [->|Hx]%elem_of_cons; [|by apply Hfresh].
      destruct (h !! fresh (dom h1)) as [nd'|] eqn:Hold; [|done].
      by rewrite (lookup_weaken _ _ _ _ Hold Hsub1) in Hfr.
  - injection Ht as <-. intros [= <- <-].
    pose proof (is_fresh (dom h)) as Hfr. apply not_elem_of_dom in Hfr.
    split; [by apply insert_subseteq|]. exists [fresh (dom h)]. split_and!.
    + apply subtree_S_Some. exists []. split_and!; [|..|done].
      * rewrite lookup_insert_eq. by eexists.
      * unfold children_list, children_of. by rewrite lookup_insert_eq.
    + apply NoDup_singleton.
    + by intros x ->%list_elem_of_singleton.
Qed.

Lemma cloneDeep_tree g fuel h o lo :
  subtree g h o = Some lo → (g ≤ fuel)%nat →
  ∃ h1 c lc,
    cloneDeep fuel h o = Some (h1, c) ∧ h ⊆ h1 ∧
    subtree g h1 c = Some lc ∧ NoDup lc ∧ ∀ x, x ∈ lc → h !! x = None.
Proof.
  intros Hlo Hle.
  destruct (cloneDeep_spec g h o lo Hlo) as (h1 & c & Hc & _).
  destruct (cloneDeep_fresh g h o lo h1 c Hlo Hc) as (Hsub & lc & Hlc & Hnd & Hfresh).
  exists h1, c, lc. split_and!; try done. by eapply cloneDeep_mono.
Qed.

Lemma tree_shaped_weaken f s l h1 :
  objects s ⊆ h1 → tree_shaped f s l → tree_shaped f (set_objects s h1) l.
Proof.
  intros Hsub [Hd Hnd]. split; [|done]. by eapply gather_subtree_weaken.
Qed.

(** The tree after a new subtree was placed next to a node of the tree. *)
Lemma _insertSibling_placed f g fuel s l sib n ln index :
  tree_shaped f s l → sib ∈ l →
  subtree g (objects s) n = Some ln → NoDup ln → (∀ x, x ∈ ln → x ∉ l) →
  (f + g ≤ fuel)%nat → index = 0 ∨ index = 1 →
  ∃ s' l',
    _insertSibling fuel s sib n index = Some s' ∧
    tree_shaped fuel s' l' ∧ l' ≡ₚ l ++ ln ∧
    getParent fuel s' n = getParent fuel s' sib ∧
    ∃ pre post,
      _data s' = inserted_at index pre sib post n ∨
      ∃ p, p ∈ l ∧ children_list (objects s') p = inserted_at index pre sib post n.
Proof.
  intros Htree Hsib Hn Hndn Hdisj Hle Hindex. pose proof Htree as [Hd Hnd].
  destruct (tree_root_or_child _ _ _ _ _ Hd Hsib) as [Hroot|(p & Hp & Hsp)].
  - apply list_elem_of_split in Hroot as (pre & post & Hdata).
    destruct (_insertSibling_root f g fuel s l sib pre post n ln index)
      as (s' & l' & Hs' & Hobj & Hdata' & Htree' & Hperm); try done.
    exists s', l'. split_and!; try done.
    + rewrite (getParent_root fuel s' l' n Htree'),
              (getParent_root fuel s' l' sib Htree'); [done| |].
      * rewrite Hdata'. apply elem_of_inserted_at. right.
        apply elem_of_app. right. left.
      * rewrite Hdata'. apply elem_of_inserted_at. by left.
    + exists pre, post. by left.
  - destruct (tree_allocated _ _ _ _ _ Hd Hp) as [nd Hndp].
    assert (∃ cs, children nd = Some cs ∧ children_list (objects s) p = cs)
      as (cs & Hch & Hcl).
    { unfold children_list, children_of in *. rewrite Hndp in *. simpl in *.
      destruct (children nd) as [cs|]; [by exists cs|]. by apply elem_of_nil in Hsp. }
    rewrite Hcl in Hsp. apply list_elem_of_split in Hsp as (pre & post & ->).
    destruct (_insertSibling_child f g fuel s l p nd sib pre post n ln index)
      as (s' & l' & Hs' & Hdata' & Hobj & Htree' & Hperm); try done.
    assert (children_list (objects s') p = inserted_at index pre sib post n) as Hcl'.
    { unfold children_list, children_of. by rewrite Hobj, lookup_insert_eq. }
    assert (p ∈ l') as Hp' by (rewrite Hperm; apply elem_of_app; by left).
    exists s', l'. split_and!; try done.
    + rewrite (getParent_child fuel s' l' n p Htree' Hp'),
              (getParent_child fuel s' l' sib p Htree' Hp'); [done| |].
      * rewrite Hcl'. apply elem_of_inserted_at. right.
        apply elem_of_app. right. left.
      * rewrite Hcl'. apply elem_of_inserted_at. by left.
    + exists pre, post. right. by exists p.
Qed.
End fresh_copy_lemmas.

(** ** What a deletion leaves in the tree *)

Section survivor_lemmas.
Implicit Types (s : TreeNodeService) (h : gmap ref TreeNode).
Implicit Types (r x y n p a b : ref) (l c k : list ref).

(** In a tree, a sequence that starts at a root and follows the children
    arrays is the path of each of its elements. *)
Lemma chain_is_path fuel s l c r0 :
  tree_shaped fuel s l → linked (objects s) c → head c = Some r0 → r0 ∈ _data s →
  ∀ i x, c !! i = Some x →
         x ∈ l ∧ getNodePath fuel s x = Some (take (S i) c).
Proof.
  intros Htree Hlink Hhd Hroot. pose proof Htree as [Hd _].
  induction i as [|i IH]; intros x Hx.
  - destruct c as [|z c]; [done|]. simpl in Hhd, Hx. simplify_eq. split.
    + by apply (gather_roots _ _ _ (subtree_root fuel (objects s)) Hd).
    + unfold getNodePath. rewrite (getParent_root fuel s l r0 Htree Hroot). simpl.
      by rewrite getNodePath_loop_None, take_0.
  - destruct (c !! i) as [a|] eqn:Ha.
    2:{ apply lookup_ge_None in Ha. apply lookup_lt_Some in Hx. lia. }
    destruct (IH a eq_refl) as [Hal Hpa].
    pose proof (Hlink i a x Ha Hx) as Hchild.
    destruct (getNodePath_child fuel s l a x Htree Hal Hchild) as (pp & Hpp & _ & Hpx).
    split; [by eapply gather_subtree_child|].
    rewrite Hpx. rewrite Hpa in Hpp. injection Hpp as <-.
    by rewrite (take_S_r c (S i) x Hx).
Qed.

Lemma chain_last_path fuel s l c r0 x :
  tree_shaped fuel s l → linked (objects s) c → head c = Some r0 → r0 ∈ _data s →
  last c = Some x → x ∈ l ∧ getNodePath fuel s x = Some c.
Proof.
  intros Htree Hlink Hhd Hroot Hlast.
  destruct c as [|z c _] using rev_ind; [done|].
  rewrite last_snoc in Hlast. injection Hlast as ->.
  destruct (chain_is_path fuel s l (c ++ [x]) r0 Htree Hlink Hhd Hroot (length c) x)
    as [Hx Hp].
  { by apply list_lookup_middle. }
  split; [done|]. rewrite Hp. f_equal.
  apply take_ge. rewrite length_app. simpl. lia.
Qed.

Lemma elem_of_splice_remove_ne k x n :
  x ∈ k → x ≠ n → n ∈ k → x ∈ JsArray.splice k (JsArray.indexOf k n) 1 [].
Proof.
  intros Hx Hne Hn. destruct (indexOf_present k n Hn) as (pre & post & -> & Hpre & _).
  rewrite splice_remove_first by done.
  apply elem_of_app in Hx as [Hx|Hx]; apply elem_of_app; [by left|].
  apply elem_of_cons in Hx as [Hx|Hx]; [done|by right].
Qed.

Lemma remove_child_children s p n :
  children_list (objects (remove_child s p n)) p
  = JsArray.splice (children_list (objects s) p)
      (JsArray.indexOf (children_list (objects s) p) n) 1 []
    ∨ children_list (objects (remove_child s p n)) p = [].
Proof.
  unfold remove_child, write_array. simpl.
  destruct (objects s !! p) as [nd|] eqn:Hp; [left|right].
  - unfold children_list at 1, children_of. by rewrite lookup_alter_eq, Hp.
  - unfold children_list at 1, children_of. by rewrite lookup_alter_eq, Hp.
Qed.

(** What [_delete] on the root array leaves of roots and children arrays. *)
Lemma delete_core_shrinks fuel s l n s1 :
  tree_shaped fuel s l → _delete (S fuel) s RootArray n = Some s1 →
  (∀ r, r ∈ _data s1 → r ∈ _data s) ∧
  (∀ r, r ∈ _data s → r ≠ n → r ∈ _data s1) ∧
  (∀ a b, b ∈ children_list (objects s1) a → b ∈ children_list (objects s) a) ∧
  (∀ a b, a ∈ l → b ∈ children_list (objects s) a → b ≠ n →
          b ∈ children_list (objects s1) a).
Proof.
  intros Htree Hdel. pose proof Htree as [Hd _].
  destruct (delete_core fuel s l n Htree) as (s0 & Hs0 & Hcases).
  rewrite Hdel in Hs0. injection Hs0 as <-.
  destruct Hcases as [[Hn ->]|[(Hn & p & Hp & Hnp & ->)|[Hn ->]]].
  - simpl. split_and!; [|by intros; apply elem_of_splice_remove_ne|done|done].
    intros r. apply elem_of_splice_remove.
  - split_and!; [done|done| |].
    + intros a b. destruct (decide (a = p)) as [->|Hne].
      * destruct (remove_child_children s p n) as [-> | ->].
        -- apply elem_of_splice_remove.
        -- by intros ?%elem_of_nil.
      * by rewrite remove_child_children_ne.
    + intros a b Ha Hb Hbn. destruct (decide (a = p)) as [->|Hne].
      * destruct (tree_allocated _ _ _ _ _ Hd Hp) as [nd Hnd].
        unfold remove_child, write_array. simpl.
        unfold children_list at 1, children_of. rewrite lookup_alter_eq, Hnd. simpl.
        by apply elem_of_splice_remove_ne.
      * by rewrite remove_child_children_ne.
  - done.
Qed.

(** Chains of the tree that avoid the deleted node are chains afterwards, and
    every chain afterwards was a chain before. *)
Lemma linked_shrink h h' l c :
  (∀ a b, a ∈ l → b ∈ children_list h a → b ∈ c → b ∈ children_list h' a) →
  (∀ y, y ∈ c → y ∈ l) → linked h c → linked h' c.
Proof.
  intros Hkeep Hin Hlink i a b Ha Hb. apply Hkeep.
  - apply Hin. by eapply list_elem_of_lookup_2.
  - by eapply Hlink.
  - by eapply list_elem_of_lookup_2.
Qed.

Lemma delete_survivors fuel s l n s' l' :
  tree_shaped fuel s l → delete fuel s n = Some s' → tree_shaped fuel s' l' →
  (n ∉ l') →
  ∀ x path,
    getNodePath fuel s x = Some path →
    (x ∈ l' ↔ x ∈ l ∧ n ∉ path) ∧
    (x ∈ l' → getNodePath fuel s' x = Some path).
Proof.
  intros Htree Hdel Htree' Hn x path Hpath.
  unfold delete in Hdel.
  destruct (_delete (S fuel) s RootArray n) as [s1|] eqn:Hs1; [|done].
  simpl in Hdel. apply update_same_tree in Hdel as (Hobj & Hdata & _).
  destruct (delete_core_shrinks fuel s l n s1 Htree Hs1) as (R1 & R2 & R3 & R4).
  rewrite <-Hobj in R3, R4. rewrite <-Hdata in R1, R2.
  assert (x ∈ l' → x ∈ l ∧ (n ∉ path) ∧ getNodePath fuel s' x = Some path) as Hback.
  { intros Hx.
    destruct (getNodePath_chain fuel s' l' x Htree' Hx)
      as (c & r0 & Hc & Hlast & Hlink & Hhd & Hroot & Hsub).
    destruct (chain_last_path fuel s l c r0 x Htree) as [Hxl Hp]; try done.
    - intros i a b Ha Hb. apply R3. by eapply Hlink.
    - by apply R1.
    - rewrite Hpath in Hp. injection Hp as ->. split_and!; [done| |done].
      intros Hnc. by apply Hn, Hsub. }
  split; [|by intros (_ & _ & ?)%Hback].
  split; [by intros (? & ? & _)%Hback|].
  intros [Hx Hnp].
  destruct (getNodePath_chain fuel s l x Htree Hx)
    as (c & r0 & Hc & Hlast & Hlink & Hhd & Hroot & Hsub).
  rewrite Hpath in Hc. injection Hc as <-.
  destruct (chain_last_path fuel s' l' path r0 x Htree') as [Hxl _]; try done.
  - apply (linked_shrink (objects s) _ l); [|done|done].
    intros a b Ha Hb Hbc. apply R4; [done|done|]. by intros ->.
  - apply R2; [done|]. intros ->. apply Hnp.
    destruct path; simplify_eq/=. left.
Qed.
End survivor_lemmas.

(** ** Flat nodes of a tree after [update] *)

Section flat_node_lemmas.
Implicit Types (s : TreeNodeService) (h : gmap ref TreeNode).
Implicit Types (r x y n p : ref) (f : fref) (l path : list ref).

Lemma update_flat_node fuel s l s' x path :
  tree_shaped fuel s l → one_flat_per_node s → update fuel s = Some s' →
  x ∈ l → getNodePath fuel s x = Some path →
  ∃ f fl,
    nodeMap s' !! x = Some f ∧ f ∈ dataNodes (treeControl s') ∧
    flatObjects s' !! f = Some fl ∧ node fl = x ∧
    level fl = Z.of_nat (length path) - 1 ∧
    expandable fl = has_children (objects s) x.
Proof.
  intros Htree Hone Hupd Hx Hpath. pose proof Htree as [Hd Hnd].
  pose proof (update_flat_step _ _ _ Hupd) as [Hone' _]. specialize (Hone' Hone).
  pose proof (update_flattened _ _ _ _ Hone Hd Hupd) as Hflat.
  pose proof (update_same_tree _ _ _ Hupd) as (Hobj & _).
  set (depth := λ y : ref,
         Z.of_nat (length (default [] (getNodePath fuel s y))) - 1).
  assert (∀ r, r ∈ _data s → depth r = 0) as Hroots.
  { intros r Hr. unfold depth, getNodePath.
    rewrite (getParent_root fuel s l r Htree Hr). simpl.
    by rewrite getNodePath_loop_None. }
  assert (∀ p c, p ∈ l → c ∈ children_list (objects s) p → depth c = depth p + 1)
    as Hdepth.
  { intros p c Hp Hc.
    destruct (getNodePath_child fuel s l p c Htree Hp Hc) as (pp & Hpp & _ & Hpc).
    unfold depth. rewrite Hpp, Hpc. simpl. rewrite length_app. simpl. lia. }
  destruct (flattened_flat_node s' l x Hone' Hflat Hx)
    as (f & fl & Hmap & Hf & Hfl & Hnode).
  destruct (update_up_to_date depth fuel s l s' Hone Hd Hroots Hdepth Hupd f Hf)
    as (fl' & Hfl' & Hlvl & Hexp).
  rewrite Hfl in Hfl'. injection Hfl' as <-. rewrite Hnode in Hlvl, Hexp.
  exists f, fl. split_and!; try done.
  - rewrite Hlvl. unfold depth. by rewrite Hpath.
  - by rewrite Hexp, Hobj.
Qed.

(** In a tree a node is not on the path of its parent. *)
Lemma child_not_on_parent_path fuel s l p n pp :
  tree_shaped fuel s l → p ∈ l → n ∈ children_list (objects s) p →
  getNodePath fuel s p = Some pp → n ∉ pp.
Proof.
  intros Htree Hp Hn Hpp (i & Hi)%list_elem_of_lookup_1.
  destruct (getNodePath_child fuel s l p n Htree Hp Hn) as (pp' & Hpp' & _ & Hpn).
  rewrite Hpp in Hpp'. injection Hpp' as <-.
  destruct (getNodePath_chain fuel s l p Htree Hp)
    as (c & r0 & Hc & _ & Hlink & Hhd & Hroot & _).
  rewrite Hpp in Hc. injection Hc as <-.
  destruct (chain_is_path fuel s l pp r0 Htree Hlink Hhd Hroot i n Hi) as [_ Hpath].
  rewrite Hpn in Hpath. injection Hpath as Heq.
  apply (f_equal length) in Heq. rewrite length_app, length_take in Heq.
  change (length [n]) with 1%nat in Heq. lia.
Qed.

(** A flat node in [dataNodes] stands for a node of the flattened tree. *)
Lemma flattened_stands_for s l f :
  flattened s l → f ∈ dataNodes (treeControl s) →
  ∃ x, x ∈ l ∧ stands_for s f x.
Proof.
  intros Hflat (i & Hi)%list_elem_of_lookup_1.
  destruct (Forall2_lookup_l _ _ _ _ _ Hflat Hi) as (x & Hx & Hst).
  exists x. split; [by eapply list_elem_of_lookup_2|done].
Qed.
End flat_node_lemmas.

(** ** Insertion next to a node that is not in the tree *)

Section absent_sibling_lemmas.
Implicit Types (s : TreeNodeService) (h : gmap ref TreeNode).
Implicit Types (x n sib : ref) (l ln : list ref).

(** With a sibling that is nowhere in the tree, [_insertSibling] splices the
    node into the root array and then updates: the subject emits the new root
    array, the expanded flat nodes stay, and the tree control holds the
    flattening of the new tree. *)
Lemma _insertSibling_absent_effect fuel s l sib n ln index :
  descendants fuel s = Some l → sib ∉ l →
  subtree fuel (objects s) n = Some ln →
  ∃ s' l',
    _insertSibling fuel s sib n index = Some s' ∧
    objects s' = objects s ∧
    _data s' = JsArray.splice (_data s) (-1 + index) 0 [n] ∧
    dataSubject s' = _data s' :: dataSubject s ∧
    expansionModel (treeControl s') = expansionModel (treeControl s) ∧
    descendants fuel s' = Some l' ∧
    (∀ x, x ∈ l' ↔ x ∈ ln ∨ x ∈ l) ∧
    (one_flat_per_node s → flattened s' l').
Proof.
  intros Hd Hsib Hn.
  destruct (_insertSibling_absent fuel s l sib n ln index Hd Hsib Hn)
    as (s' & Hs' & Hobj & Hdata).
  destruct (_insertSibling_emits _ _ _ _ _ _ Hs') as [Hemit Hexp].
  assert (is_Some (descendants fuel s')) as [l' Hl'].
  { unfold descendants. rewrite Hobj, Hdata. apply gather_is_Some.
    intros y [->|Hy]%elem_of_splice_insert; [by eexists|].
    destruct (gather_Some_elem _ _ _ _ Hd Hy) as (ly & Hly & _). by eexists. }
  exists s', l'. split_and!; try done.
  - intros x. pose proof Hl' as Hl''. unfold descendants in Hl''.
    rewrite Hobj, Hdata in Hl''.
    rewrite (gather_elem _ _ _ x Hl''), (gather_elem _ _ _ x Hd). split.
    + intros (c & lc & [->|Hc]%elem_of_splice_insert & Hlc & Hx).
      * left. congruence.
      * right. by exists c, lc.
    + intros [Hx|(c & lc & Hc & Hlc & Hx)].
      * exists n, ln. split_and!; [|done|done]. apply elem_of_splice_insert. by left.
      * exists c, lc. split_and!; [|done|done]. apply elem_of_splice_insert. by right.
  - intros Hone. unfold _insertSibling in Hs'.
    rewrite (getParent_absent fuel s l sib Hd Hsib) in Hs'. simpl in Hs'.
    eapply update_flattened; [|by rewrite <-(descendants_update _ _ _ Hs')|exact Hs'].
    done.
Qed.
End absent_sibling_lemmas.

(** * Properties of the service *)

(** Solves [tree_shaped] on concrete data. *)
Ltac tree_shaped_by_computation :=
  split; compute_done.

(** The data setter of [beforeEach] gives the service of the fixture. *)
Example Fixture_set_data :
  set_data 3 Fixture.created [Fixture.A] = Some Fixture.service.
Proof. vm_compute. reflexivity. Qed.

(** The expectations of the test suite, run on the model. *)
Example test_insertChild :
  (λ s, (_data s, children_of (objects s) Fixture.B))
    <$> insertChild 3 Fixture.service Fixture.B Fixture.D
  = Some ([Fixture.A], Some [Fixture.C; Fixture.D]).
Proof. vm_compute. reflexivity. Qed.

Example test_insertBefore :
  (λ s, (_data s, children_of (objects s) Fixture.B))
    <$> insertBefore 3 Fixture.service Fixture.C Fixture.D
  = Some ([Fixture.A], Some [Fixture.D; Fixture.C]).
Proof. vm_compute. reflexivity. Qed.

Example test_insertAfter :
  (λ s, (_data s, children_of (objects s) Fixture.B))
    <$> insertAfter 3 Fixture.service Fixture.C Fixture.D
  = Some ([Fixture.A], Some [Fixture.C; Fixture.D]).
Proof. vm_compute. reflexivity. Qed.

Example test_getParent :
  getParent 3 Fixture.service Fixture.C = Some (Some Fixture.B) ∧
  getParent 3 Fixture.service Fixture.Z = Some None.
Proof. split; vm_compute; reflexivity. Qed.

Example test_delete_absent :
  (λ s, (_data s, objects s)) <$> delete 3 Fixture.service Fixture.Z
  = Some ([Fixture.A], Fixture.store).
Proof. vm_compute. reflexivity. Qed.

Example test_isSibling :
  isSibling 3 Fixture.service Fixture.B Fixture.C = Some false.
Proof. vm_compute. reflexivity. Qed.

Example test_getNodePath :
  getNodePath 3 Fixture.service Fixture.C
  = Some [Fixture.A; Fixture.B; Fixture.C].
Proof. vm_compute. reflexivity. Qed.

Example test_hasChildren_isRoot :
  hasChildren Fixture.service 0%nat = Some true ∧
  hasChildren Fixture.service 2%nat = Some false ∧
  isRoot Fixture.service 0%nat = Some true ∧
  isRoot Fixture.service 2%nat = Some false.
Proof. split_and!; vm_compute; reflexivity. Qed.

Example test_isParentExpanded :
  isParentExpanded 3
    (set_treeControl Fixture.service (expand (treeControl Fixture.service) 1%nat))
    Fixture.C = Some true ∧
  isParentExpanded 3 Fixture.service Fixture.C = Some false ∧
  isParentExpanded 3 Fixture.service Fixture.Z = Some false.
Proof. split_and!; vm_compute; reflexivity. Qed.

Example test_expandLevel :
  (λ s, elements (expansionModel (treeControl s))) <$> expandLevel Fixture.service 0
  = Some [0%nat].
Proof. vm_compute. reflexivity. Qed.

(** C1 fails for [cloneAsChild]: in the tree of the test suite the copy that
    is returned (object 6) is not the copy that was appended to the children
    of TestB (object 7), and it is nowhere in the tree; the two sibling
    operations return the object they inserted. *)
Lemma cloneAsChild_returns_other_copy :
  (∃ s' c,
     cloneAsChild 3 Fixture.service Fixture.C Fixture.B = Some (s', c) ∧
     c = 6%nat ∧
     children_of (objects s') Fixture.B = Some [Fixture.C; 7%nat] ∧
     descendants 4 s' = Some [Fixture.A; Fixture.B; Fixture.C; 7%nat] ∧
     c ∉ [Fixture.A; Fixture.B; Fixture.C; 7%nat]) ∧
  (∃ s' c,
     cloneAsSiblingBefore 3 Fixture.service Fixture.C Fixture.C = Some (s', c) ∧
     children_of (objects s') Fixture.B = Some [c; Fixture.C]) ∧
  (∃ s' c,
     cloneAsSiblingAfter 3 Fixture.service Fixture.C Fixture.C = Some (s', c) ∧
     children_of (objects s') Fixture.B = Some [Fixture.C; c]).
Proof.
  split_and!.
  - destruct (cloneAsChild 3 Fixture.service Fixture.C Fixture.B)
      as [[s' c]|] eqn:Hclone; vm_compute in Hclone; [|done].
    injection Hclone as <- <-. eexists _, _. split; [done|]. split_and!; compute_done.
  - destruct (cloneAsSiblingBefore 3 Fixture.service Fixture.C Fixture.C)
      as [[s' c]|] eqn:Hclone; vm_compute in Hclone; [|done].
    injection Hclone as <- <-. eexists _, _. split; [done|]. compute_done.
  - destruct (cloneAsSiblingAfter 3 Fixture.service Fixture.C Fixture.C)
      as [[s' c]|] eqn:Hclone; vm_compute in Hclone; [|done].
    injection Hclone as <- <-. eexists _, _. split; [done|]. compute_done.
Qed.

(** The data setter gives the service with two roots. *)
Example RootsFixture_set_data :
  set_data 3 RootsFixture.created [Fixture.A; Fixture.Z]
  = Some RootsFixture.service.
Proof. vm_compute. reflexivity. Qed.

(** C2, as the code behaves: when the sibling is nowhere in the tree, no
    children array changes, [insertBefore] puts the new node in front of the
    last element of the root array (in front when the array is empty) and
    [insertAfter] puts it in front of the root array; then the general update
    follows: the subject emits the new root array once, the expanded flat
    nodes stay as they are, the tree is the old one with the new subtree
    added, and the tree control holds its flattening. *)
Theorem insert_absent_sibling fuel s l sib n ln :
  descendants fuel s = Some l → sib ∉ l →
  subtree fuel (objects s) n = Some ln →
  (∃ s' l',
     insertBefore fuel s sib n = Some s' ∧
     objects s' = objects s ∧
     _data s' = take (length (_data s) - 1) (_data s)
                ++ n :: drop (length (_data s) - 1) (_data s) ∧
     dataSubject s' = _data s' :: dataSubject s ∧
     expansionModel (treeControl s') = expansionModel (treeControl s) ∧
     descendants fuel s' = Some l' ∧
     (∀ x, x ∈ l' ↔ x ∈ ln ∨ x ∈ l) ∧
     (one_flat_per_node s → flattened s' l')) ∧
  (∃ s' l',
     insertAfter fuel s sib n = Some s' ∧
     objects s' = objects s ∧
     _data s' = n :: _data s ∧
     dataSubject s' = _data s' :: dataSubject s ∧
     expansionModel (treeControl s') = expansionModel (treeControl s) ∧
     descendants fuel s' = Some l' ∧
     (∀ x, x ∈ l' ↔ x ∈ ln ∨ x ∈ l) ∧
     (one_flat_per_node s → flattened s' l')).
Proof.
  intros Hd Hsib Hn. split.
  - destruct (_insertSibling_absent_effect fuel s l sib n ln 0 Hd Hsib Hn)
      as (s' & l' & Hs' & Hobj & Hdata & Hrest).
    exists s', l'. split; [done|]. split; [done|]. split; [|done].
    rewrite Hdata. apply splice_minus_one.
  - destruct (_insertSibling_absent_effect fuel s l sib n ln 1 Hd Hsib Hn)
      as (s' & l' & Hs' & Hobj & Hdata & Hrest).
    exists s', l'. split; [done|]. split; [done|]. split; [|done].
    rewrite Hdata. apply splice_zero.
Qed.

(** With the roots TestA and TestZ and TestD nowhere in the tree,
    [insertBefore] puts TestE between the two roots and [insertAfter] puts it
    in front of them; each call emits the new root array and leaves in the
    tree control one flat node for each of the five nodes. *)
Lemma insert_absent_sibling_witness :
  (∃ s' l',
     insertBefore 3 RootsFixture.service Fixture.D RootsFixture.E = Some s' ∧
     objects s' = RootsFixture.store ∧
     _data s' = [Fixture.A; RootsFixture.E; Fixture.Z] ∧
     dataSubject s' = [[Fixture.A; RootsFixture.E; Fixture.Z];
                       [Fixture.A; Fixture.Z]] ∧
     expansionModel (treeControl s') = ∅ ∧
     descendants 3 s' = Some l' ∧
     (∀ x, x ∈ l' ↔ x ∈ [RootsFixture.E]
                    ∨ x ∈ [Fixture.A; Fixture.B; Fixture.C; Fixture.Z]) ∧
     flattened s' l' ∧ length (dataNodes (treeControl s')) = 5%nat) ∧
  (∃ s' l',
     insertAfter 3 RootsFixture.service Fixture.D RootsFixture.E = Some s' ∧
     objects s' = RootsFixture.store ∧
     _data s' = [RootsFixture.E; Fixture.A; Fixture.Z] ∧
     dataSubject s' = [[RootsFixture.E; Fixture.A; Fixture.Z];
                       [Fixture.A; Fixture.Z]] ∧
     expansionModel (treeControl s') = ∅ ∧
     descendants 3 s' = Some l' ∧
     (∀ x, x ∈ l' ↔ x ∈ [RootsFixture.E]
                    ∨ x ∈ [Fixture.A; Fixture.B; Fixture.C; Fixture.Z]) ∧
     flattened s' l' ∧ length (dataNodes (treeControl s')) = 5%nat).
Proof.
  assert (one_flat_per_node RootsFixture.service) as Hone.
  { assert (one_flat_per_node RootsFixture.created) as Hcreated.
    { split; intros ? ?; simpl; by rewrite lookup_empty. }
    by apply (run_flat_step 3 RootsFixture.created
                (OpSetData [Fixture.A; Fixture.Z]) RootsFixture.service
                RootsFixture_set_data). }
  destruct (insert_absent_sibling 3 RootsFixture.service
              [Fixture.A; Fixture.B; Fixture.C; Fixture.Z]
              Fixture.D RootsFixture.E [RootsFixture.E])
    as [(s1 & l1 & Hs1 & Hobj1 & Hdata1 & Hsub1 & Hexp1 & Hl1 & Hin1 & Hflat1)
        (s2 & l2 & Hs2 & Hobj2 & Hdata2 & Hsub2 & Hexp2 & Hl2 & Hin2 & Hflat2)].
  { compute_done. }
  { compute_done. }
  { compute_done. }
  split.
  - exists s1, l1. split_and!; try done.
    + by rewrite Hsub1, Hdata1.
    + by apply Hflat1.
    + vm_compute in Hs1. by injection Hs1 as <-.
  - exists s2, l2. split_and!; try done.
    + by rewrite Hsub2, Hdata2.
    + by apply Hflat2.
    + vm_compute in Hs2. by injection Hs2 as <-.
Defined.

(** C2 as stated fails: TestD is nowhere in the tree with the roots TestA and
    TestZ, and both insertions relative to it change the root array, each in
    its own way: [insertBefore] puts TestE between the roots, [insertAfter]
    in front of them. *)
Lemma insert_absent_sibling_changes_root :
  (Fixture.D ∉ [Fixture.A; Fixture.B; Fixture.C; Fixture.Z]) ∧
  descendants 3 RootsFixture.service
    = Some [Fixture.A; Fixture.B; Fixture.C; Fixture.Z] ∧
  (_data <$> insertBefore 3 RootsFixture.service Fixture.D RootsFixture.E)
    = Some [Fixture.A; RootsFixture.E; Fixture.Z] ∧
  (_data <$> insertBefore 3 RootsFixture.service Fixture.D RootsFixture.E)
    ≠ Some (_data RootsFixture.service) ∧
  (_data <$> insertAfter 3 RootsFixture.service Fixture.D RootsFixture.E)
    = Some [RootsFixture.E; Fixture.A; Fixture.Z] ∧
  (_data <$> insertAfter 3 RootsFixture.service Fixture.D RootsFixture.E)
    ≠ Some (_data RootsFixture.service).
Proof. split_and!; compute_done. Qed.

(** C3, as the code behaves: the loop of [toggleNode] visits the flattened
    nodes only.  On a collapsed flat node it expands, among the flattened
    nodes, this flat node and the flat nodes of the nodes on its path, and
    collapses every other flattened node; a collapsed flat node that is not
    one of the flattened nodes, such as the flat node of a deleted node, stays
    collapsed.  When the tree control holds the flattened tree, every node on
    the path has its flat node there, which is expanded.  On an expanded flat
    node it collapses this flat node and nothing else.  The tree is left as it
    is. *)
Theorem toggleNode_accordion fuel s l flatNode fl :
  tree_shaped fuel s l →
  flatObjects s !! flatNode = Some fl →
  (∀ n, n ∈ dataNodes (treeControl s) → is_Some (flatObjects s !! n)) →
  ∃ c' nodePath,
    toggleNode fuel s flatNode = Some (set_treeControl s c') ∧
    dataNodes c' = dataNodes (treeControl s) ∧
    getNodePath fuel s (node fl) = Some nodePath ∧
    (isExpanded (treeControl s) flatNode = true →
     isExpanded c' flatNode = false ∧
     ∀ n, n ≠ flatNode → isExpanded c' n = isExpanded (treeControl s) n) ∧
    (isExpanded (treeControl s) flatNode = false →
     (flatNode ∈ dataNodes (treeControl s) → isExpanded c' flatNode = true) ∧
     (flatNode ∉ dataNodes (treeControl s) → isExpanded c' flatNode = false) ∧
     (∀ n fln, n ∈ dataNodes (treeControl s) → flatObjects s !! n = Some fln →
               node fln ∈ nodePath → isExpanded c' n = true) ∧
     (∀ n fln, n ∈ dataNodes (treeControl s) → flatObjects s !! n = Some fln →
               n ≠ flatNode → node fln ∉ nodePath → isExpanded c' n = false) ∧
     (∀ n, n ∉ dataNodes (treeControl s) →
           isExpanded c' n = isExpanded (treeControl s) n) ∧
     (flattened s l → node fl ∈ l →
      ∀ a, a ∈ nodePath →
           ∃ n fln, n ∈ dataNodes (treeControl s) ∧
                    flatObjects s !! n = Some fln ∧ node fln = a ∧
                    isExpanded c' n = true)).
Proof.
  intros Htree Hfl Hnodes.
  assert (∃ nodePath, getNodePath fuel s (node fl) = Some nodePath ∧
                      (node fl ∈ l → ∀ y, y ∈ nodePath → y ∈ l))
    as (nodePath & Hpath & Hsub).
  { destruct (decide (node fl ∈ l)) as [Hin|Hout].
    - destruct (getNodePath_chain fuel s l (node fl) Htree Hin)
        as (p & r0 & Hp & _ & _ & _ & _ & Hsub).
      by exists p.
    - destruct (getNodePath_total fuel s l (node fl) Htree) as [p Hp].
      exists p. split; [done|]. by intros ?. }
  unfold toggleNode. destruct (isExpanded (treeControl s) flatNode) eqn:Hexp.
  - exists (collapse (treeControl s) flatNode), nodePath.
    split_and!; [done|done|done| |done].
    intros _. split.
    + apply not_true_is_false. rewrite isExpanded_collapse. by intros [? _].
    + intros n Hne. apply eq_true_iff_eq. rewrite isExpanded_collapse. tauto.
  - rewrite Hfl. simpl. rewrite Hpath. simpl.
    destruct (toggle_loop_spec (flatObjects s) flatNode nodePath
                (dataNodes (treeControl s)) Hnodes (treeControl s))
      as (c' & -> & Hdn & Hin & Hout).
    exists c', nodePath. split_and!; [done|done|done|done|].
    intros _. split_and!.
    + intros Hmem. apply (Hin flatNode fl Hmem Hfl). by left.
    + intros Hmem. by rewrite (Hout flatNode Hmem).
    + intros n fln Hn Hfln Hon. apply (Hin n fln Hn Hfln). by right.
    + intros n fln Hn Hfln Hne Hoff. apply not_true_is_false.
      rewrite (Hin n fln Hn Hfln). by intros [?|?].
    + done.
    + intros Hflat Hnode a Ha.
      destruct (flattened_find s l a Hflat (Hsub Hnode a Ha))
        as (n & fln & Hn & Hfln & Hna).
      exists n, fln. split_and!; [done|done|done|].
      apply (Hin n fln Hn Hfln). right. by rewrite Hna.
Qed.

(** The scenario of the test suite: toggling the flat node of TestC expands
    the flat nodes of TestC, TestB and TestA; toggling it again collapses the
    flat node of TestC and leaves the other two expanded. *)
Lemma toggleNode_accordion_witness :
  ∃ c1 c2,
    toggleNode 3 Fixture.service 2%nat = Some (set_treeControl Fixture.service c1) ∧
    isExpanded c1 2%nat = true ∧ isExpanded c1 1%nat = true ∧
    isExpanded c1 0%nat = true ∧
    toggleNode 3 (set_treeControl Fixture.service c1) 2%nat
    = Some (set_treeControl (set_treeControl Fixture.service c1) c2) ∧
    isExpanded c2 2%nat = false ∧ isExpanded c2 1%nat = true ∧
    isExpanded c2 0%nat = true.
Proof.
  destruct (toggleNode_accordion 3 Fixture.service
              [Fixture.A; Fixture.B; Fixture.C] 2%nat
              (mkTreeFlatNode Fixture.C false 2))
    as (c1 & p1 & Ht1 & Hdn1 & Hp1 & _ & Hcollapsed).
  { tree_shaped_by_computation. }
  { compute_done. }
  { apply Forall_forall. compute_done. }
  assert (p1 = [Fixture.A; Fixture.B; Fixture.C]) as ->.
  { vm_compute in Hp1. by injection Hp1 as <-. }
  destruct Hcollapsed as (Hself & _ & Hon & _); [compute_done|].
  assert (isExpanded c1 2%nat = true) as H2 by (apply Hself; compute_done).
  assert (isExpanded c1 1%nat = true) as H1.
  { apply (Hon 1%nat (mkTreeFlatNode Fixture.B true 1)); compute_done. }
  assert (isExpanded c1 0%nat = true) as H0.
  { apply (Hon 0%nat (mkTreeFlatNode Fixture.A true 0)); compute_done. }
  destruct (toggleNode_accordion 3 (set_treeControl Fixture.service c1)
              [Fixture.A; Fixture.B; Fixture.C] 2%nat
              (mkTreeFlatNode Fixture.C false 2))
    as (c2 & p2 & Ht2 & _ & _ & Hexpanded & _).
  { tree_shaped_by_computation. }
  { compute_done. }
  { simpl. rewrite Hdn1. apply Forall_forall. compute_done. }
  destruct Hexpanded as [Hoff Hsame]; [done|].
  exists c1, c2. split_and!; try done.
  - by rewrite Hsame.
  - by rewrite Hsame.
Defined.

(** C3 as stated fails: after TestC was deleted its flat node is still
    registered and collapsed, but it is not one of the flattened nodes, and
    [toggleNode] on it leaves it collapsed. *)
Lemma toggleNode_unflattened_stays_collapsed :
  ∃ s1 s2,
    delete 3 Fixture.service Fixture.C = Some s1 ∧
    getFlatNode s1 Fixture.C = Some 2%nat ∧
    flatObjects s1 !! 2%nat = Some (mkTreeFlatNode Fixture.C false 2) ∧
    dataNodes (treeControl s1) = [0; 1]%nat ∧
    isExpanded (treeControl s1) 2%nat = false ∧
    toggleNode 3 s1 2%nat = Some s2 ∧
    isExpanded (treeControl s2) 2%nat = false.
Proof.
  destruct (delete 3 Fixture.service Fixture.C) as [s1|] eqn:Hdel;
    vm_compute in Hdel; [|done].
  injection Hdel as <-.
  eexists _, _. split; [done|]. split_and!; [compute_done..| |].
  - vm_compute. reflexivity.
  - compute_done.
Qed.

(** C4: on a tree, [delete] removes the first occurrence of the node from the
    array that holds it, the root array or the children array of its parent,
    and nothing else; it changes nothing when the node is not in the tree. *)
Theorem delete_first_occurrence fuel s l n :
  tree_shaped fuel s l →
  ∃ s',
    delete fuel s n = Some s' ∧
    (∀ pre post,
       _data s = pre ++ n :: post → n ∉ pre →
       _data s' = pre ++ post ∧ objects s' = objects s) ∧
    (∀ p nd pre post,
       p ∈ l → objects s !! p = Some nd →
       children nd = Some (pre ++ n :: post) → n ∉ pre →
       _data s' = _data s ∧
       objects s' = <[p := mkTreeNode (name nd) (Some (pre ++ post))]> (objects s)) ∧
    (n ∉ l → _data s' = _data s ∧ objects s' = objects s).
Proof.
  intros Htree. pose proof Htree as [Hd Hnd].
  destruct (delete_core fuel s l n Htree) as (s1 & Hdel & Hcases).
  destruct (delete_core_traversal fuel s l n s1 Htree Hdel) as [l1 Hl1].
  destruct (update_total fuel s1 l1 Hl1) as [s' Hupd].
  exists s'. split; [unfold delete; by rewrite Hdel|].
  apply update_same_tree in Hupd as (Hobj & Hdata & _).
  rewrite Hobj, Hdata. clear Hobj Hdata Hl1 Hdel.
  assert (∀ x, x ∈ _data s → x ∈ l) as Hroots.
  { intros x. apply (gather_roots _ _ _ (subtree_root fuel (objects s)) Hd). }
  destruct Hcases as [[Hroot ->]|[(Hroot & p & Hp & Hnp & ->)|[Hn ->]]]; split_and!.
  - intros pre post Heq Hpre. simpl. split; [|done].
    rewrite Heq. by apply splice_remove_first.
  - intros p nd pre post Hp Hnd' Hch Hpre. exfalso.
    apply (tree_root_no_parent _ _ _ _ p n Hd Hnd Hroot Hp).
    unfold children_list, children_of. rewrite Hnd'. simpl. rewrite Hch.
    apply elem_of_app. right. left.
  - intros Hn. exfalso. by apply Hn, Hroots.
  - intros pre post Heq Hpre. exfalso. apply Hroot. rewrite Heq.
    apply elem_of_app. right. left.
  - intros q nd pre post Hq Hnd' Hch Hpre.
    assert (children_list (objects s) q = pre ++ n :: post) as Hcl.
    { unfold children_list, children_of. rewrite Hnd'. simpl. by rewrite Hch. }
    assert (q = p) as ->.
    { eapply (tree_parent_unique fuel (objects s) (_data s) l q p n); try done.
      rewrite Hcl. apply elem_of_app. right. left. }
    split; [done|]. unfold remove_child. simpl.
    rewrite (alter_as_insert _ _ _ _ Hnd'). simpl.
    rewrite Hcl. by rewrite splice_remove_first.
  - intros Hn. exfalso. apply Hn. by eapply gather_subtree_child.
  - intros pre post Heq Hpre. exfalso. apply Hn, Hroots. rewrite Heq.
    apply elem_of_app. right. left.
  - intros p nd pre post Hp Hnd' Hch Hpre. exfalso. apply Hn.
    eapply gather_subtree_child; [done|done|].
    unfold children_list, children_of. rewrite Hnd'. simpl. rewrite Hch.
    apply elem_of_app. right. left.
  - done.
Qed.

(** The scenario of the test suite: deleting TestC leaves TestB with an empty
    children array. *)
Lemma delete_first_occurrence_witness :
  ∃ s', delete 3 Fixture.service Fixture.C = Some s' ∧
        _data s' = [Fixture.A] ∧
        objects s' = <[Fixture.B := mkTreeNode "TestB" (Some [])]> Fixture.store.
Proof.
  destruct (delete_first_occurrence 3 Fixture.service
              [Fixture.A; Fixture.B; Fixture.C] Fixture.C)
    as (s' & Hdel & _ & Hchild & _).
  - tree_shaped_by_computation.
  - exists s'. split; [done|].
    apply (Hchild Fixture.B (mkTreeNode "TestB" (Some [Fixture.C])) [] []).
    + compute_done.
    + compute_done.
    + done.
    + apply not_elem_of_nil.
Defined.

(** C5: in a tree, [getParent] of a node below a root returns the one node
    whose children array holds it; for a node that is nowhere in the tree and
    for a root it returns null. *)
Theorem getParent_direct_parent fuel s l n :
  tree_shaped fuel s l →
  (n ∈ l → n ∉ _data s →
   ∃ p, p ∈ l ∧ n ∈ children_list (objects s) p ∧
        getParent fuel s n = Some (Some p) ∧
        ∀ q, q ∈ l → n ∈ children_list (objects s) q → q = p) ∧
  (n ∉ l → getParent fuel s n = Some None) ∧
  (n ∈ _data s → getParent fuel s n = Some None).
Proof.
  intros Htree. split_and!.
  - intros Hn Hroot. destruct Htree as [Hd Hnd].
    destruct (tree_root_or_child _ _ _ _ _ Hd Hn) as [?|(p & Hp & Hnp)]; [done|].
    exists p. split_and!; [done|done|by eapply getParent_child|].
    intros q Hq Hnq. by eapply tree_parent_unique.
  - destruct Htree as [Hd _]. by apply getParent_absent.
  - by eapply getParent_root.
Qed.

Lemma getParent_direct_parent_witness :
  getParent 3 Fixture.service Fixture.C = Some (Some Fixture.B) ∧
  getParent 3 Fixture.service Fixture.Z = Some None ∧
  getParent 3 Fixture.service Fixture.A = Some None.
Proof.
  assert (tree_shaped 3 Fixture.service [Fixture.A; Fixture.B; Fixture.C]) as Htree
    by tree_shaped_by_computation.
  split_and!.
  - destruct (getParent_direct_parent 3 Fixture.service _ Fixture.C Htree) as (H & _).
    destruct H as (p & _ & _ & -> & Hq).
    + compute_done.
    + compute_done.
    + do 2 f_equal. symmetry. apply Hq.
      * compute_done.
      * compute_done.
  - destruct (getParent_direct_parent 3 Fixture.service _ Fixture.Z Htree) as (_ & H & _).
    apply H. compute_done.
  - destruct (getParent_direct_parent 3 Fixture.service _ Fixture.A Htree) as (_ & _ & H).
    apply H. compute_done.
Defined.

(** C6: for a node of the tree, [getNodePath] returns the path from a root to
    the node: it ends with the node, every element is the parent of the next,
    and the first element is a root, for which [getParent] returns null. *)
Theorem getNodePath_root_first fuel s l n :
  tree_shaped fuel s l → n ∈ l →
  ∃ path r0,
    getNodePath fuel s n = Some path ∧
    last path = Some n ∧
    (∀ i a b, path !! i = Some a → path !! S i = Some b →
              b ∈ children_list (objects s) a ∧
              getParent fuel s b = Some (Some a)) ∧
    head path = Some r0 ∧ r0 ∈ _data s ∧ getParent fuel s r0 = Some None.
Proof.
  intros Htree Hn.
  destruct (getNodePath_chain fuel s l n Htree Hn)
    as (p & r0 & Hp & Hlast & Hlink & Hhd & Hroot & Hsub).
  exists p, r0. split_and!; [done|done| |done|done|by eapply getParent_root].
  intros i a b Ha Hb. pose proof (Hlink i a b Ha Hb) as Hab.
  split; [done|]. eapply getParent_child; [done| |done].
  apply Hsub. by eapply list_elem_of_lookup_2.
Qed.

Lemma getNodePath_root_first_witness :
  ∃ path r0,
    getNodePath 3 Fixture.service Fixture.C = Some path ∧
    last path = Some Fixture.C ∧
    (∀ i a b, path !! i = Some a → path !! S i = Some b →
              b ∈ children_list (objects Fixture.service) a ∧
              getParent 3 Fixture.service b = Some (Some a)) ∧
    head path = Some r0 ∧ r0 ∈ _data Fixture.service ∧
    getParent 3 Fixture.service r0 = Some None.
Proof.
  apply (getNodePath_root_first 3 Fixture.service
           [Fixture.A; Fixture.B; Fixture.C] Fixture.C).
  - tree_shaped_by_computation.
  - compute_done.
Defined.

(** C7: [isSibling] holds exactly when [getParent] returns the same value for
    both nodes; two nodes that are not in the tree are reported as siblings,
    and so are two roots. *)
Theorem isSibling_same_parent fuel s l a b :
  tree_shaped fuel s l →
  (isSibling fuel s a b = Some true ↔ getParent fuel s a = getParent fuel s b) ∧
  (isSibling fuel s a b = Some false ↔ getParent fuel s a ≠ getParent fuel s b) ∧
  (a ∉ l → b ∉ l → isSibling fuel s a b = Some true) ∧
  (a ∈ _data s → b ∈ _data s → isSibling fuel s a b = Some true).
Proof.
  intros Htree. pose proof Htree as [Hd Hnd].
  destruct (getParent_answer fuel s l a Hd) as (pa & Ha & _).
  destruct (getParent_answer fuel s l b Hd) as (pb & Hb & _).
  unfold isSibling. split_and!.
  - rewrite Ha, Hb. simpl. split.
    + intros [= H]. apply bool_decide_eq_true in H. by rewrite H.
    + intros [= ->]. by rewrite bool_decide_eq_true_2.
  - rewrite Ha, Hb. simpl. split.
    + intros [= H]. apply bool_decide_eq_false in H. congruence.
    + intros H. rewrite bool_decide_eq_false_2; [done|congruence].
  - intros Hna Hnb.
    rewrite (getParent_absent fuel s l a Hd Hna), (getParent_absent fuel s l b Hd Hnb).
    done.
  - intros Hra Hrb.
    rewrite (getParent_root fuel s l a Htree Hra), (getParent_root fuel s l b Htree Hrb).
    done.
Qed.

Lemma isSibling_same_parent_witness :
  isSibling 3 Fixture.service Fixture.Z Fixture.D = Some true.
Proof.
  destruct (isSibling_same_parent 3 Fixture.service
              [Fixture.A; Fixture.B; Fixture.C] Fixture.Z Fixture.D)
    as (_ & _ & H & _).
  - tree_shaped_by_computation.
  - apply H; compute_done.
Defined.

(** C8: no two flat nodes stand for the same tree node, and every operation
    keeps it so; the first [transformer] call for a node creates a flat node
    and stores it in the map, the registration stays through every operation,
    and every later call for the node returns this very flat node with its
    level set to the argument and [expandable] computed again: true exactly
    when the children array of the node exists and is not empty. *)
Theorem transformer_one_flat_node fuel s :
  one_flat_per_node s →
  (∀ f1 f2 fl1 fl2,
     flatObjects s !! f1 = Some fl1 → flatObjects s !! f2 = Some fl2 →
     node fl1 = node fl2 → f1 = f2) ∧
  (∀ op s', run fuel s op = Some s' → one_flat_per_node s') ∧
  (∀ n f op s', nodeMap s !! n = Some f → run fuel s op = Some s' →
                nodeMap s' !! n = Some f) ∧
  (∀ n lvl,
     nodeMap s !! n = None →
     ∃ f, (transformer s n lvl).2 = f ∧
          flatObjects s !! f = None ∧
          nodeMap (transformer s n lvl).1 !! n = Some f ∧
          flatObjects (transformer s n lvl).1 !! f
          = Some (mkTreeFlatNode n (has_children (objects s) n) lvl)) ∧
  (∀ n lvl f,
     nodeMap s !! n = Some f →
     (transformer s n lvl).2 = f ∧
     nodeMap (transformer s n lvl).1 !! n = Some f ∧
     flatObjects (transformer s n lvl).1 !! f
     = Some (mkTreeFlatNode n (has_children (objects s) n) lvl)) ∧
  (∀ n, has_children (objects s) n = true ↔
        ∃ cs, children_of (objects s) n = Some cs ∧ cs ≠ []).
Proof.
  intros Hinv. split_and!.
  - intros f1 f2 fl1 fl2 H1 H2 Heq. destruct Hinv as [Hreg _].
    apply Hreg in H1, H2. congruence.
  - intros op s' Hrun. by apply (run_flat_step fuel s op s' Hrun).
  - intros n f op s' Hn Hrun. by apply (run_flat_step fuel s op s' Hrun).
  - intros n lvl. apply transformer_first.
  - intros n lvl f. by apply transformer_again.
  - intros n. apply has_children_true.
Qed.

Lemma transformer_one_flat_node_witness :
  one_flat_per_node Fixture.service ∧
  (transformer Fixture.service Fixture.C 5).2 = 2%nat ∧
  flatObjects (transformer Fixture.service Fixture.C 5).1 !! 2%nat
  = Some (mkTreeFlatNode Fixture.C false 5).
Proof.
  assert (one_flat_per_node Fixture.created) as Hcreated.
  { split; intros ? ?; simpl; by rewrite lookup_empty. }
  destruct (transformer_one_flat_node 3 Fixture.created Hcreated) as (_ & Hrun & _).
  pose proof (Hrun (OpSetData [Fixture.A]) Fixture.service Fixture_set_data) as Hinv.
  split; [done|].
  destruct (transformer_one_flat_node 3 Fixture.service Hinv)
    as (_ & _ & _ & _ & Hagain & _).
  destruct (Hagain Fixture.C 5 2%nat) as (H1 & _ & H2); [compute_done|].
  split; [done|]. rewrite H2. f_equal.
Defined.



(** C10: for a node that is nowhere in the tree, [getNodePath] returns the
    sequence that holds just this node. *)
Theorem getNodePath_absent fuel s l n :
  descendants fuel s = Some l → n ∉ l → getNodePath fuel s n = Some [n].
Proof.
  intros Hd Hn. unfold getNodePath.
  rewrite (getParent_absent fuel s l n Hd Hn). simpl.
  by rewrite getNodePath_loop_None.
Qed.

Lemma getNodePath_absent_witness :
  getNodePath 3 Fixture.service Fixture.Z = Some [Fixture.Z].
Proof.
  apply (getNodePath_absent 3 Fixture.service [Fixture.A; Fixture.B; Fixture.C]).
  - vm_compute. reflexivity.
  - compute_done.
Defined.

(** * Further properties of the service *)

(** The flat nodes of the test suite's service are registered one per node. *)
Lemma Fixture_flat_nodes : one_flat_per_node Fixture.service.
Proof.
  assert (one_flat_per_node Fixture.created) as Hcreated.
  { split; intros ? ?; simpl; by rewrite lookup_empty. }
  by apply (run_flat_step 3 Fixture.created (OpSetData [Fixture.A])
              Fixture.service Fixture_set_data).
Qed.

(** X1: [insertChild] appends the node to the children array of the parent,
    which it creates when the parent has none, and changes nothing else; when
    the tree and the inserted subtree are trees that share no object, the
    result is a tree again, it holds the old objects and, for a parent in the
    tree, those of the inserted subtree, and [getParent] of the inserted node
    is then the parent. *)
Theorem insertChild_appends f g fuel s l p nd n ln :
  tree_shaped f s l → subtree g (objects s) n = Some ln → NoDup ln →
  (∀ x, x ∈ ln → x ∉ l) → objects s !! p = Some nd → (f + g ≤ fuel)%nat →
  ∃ s' l',
    insertChild fuel s p n = Some s' ∧
    _data s' = _data s ∧
    objects s' = <[p := mkTreeNode (name nd)
                          (Some (default [] (children nd) ++ [n]))]> (objects s) ∧
    tree_shaped fuel s' l' ∧
    l' ≡ₚ l ++ (if decide (p ∈ l) then ln else []) ∧
    (p ∈ l → getParent fuel s' n = Some (Some p)).
Proof.
  intros Htree Hn Hndn Hdisj Hp Hle.
  destruct (update_after_child_insert f g fuel s l p nd n ln
              (default [] (children nd)) []) as (s' & l' & Hs' & Hobj & Hdata & Htree' & Hperm);
    try done.
  { by rewrite app_nil_r. }
  exists s', l'. split_and!; try done.
  - unfold insertChild. by rewrite (insertChild_store _ _ _ _ Hp).
  - intros Hpl. apply (getParent_child fuel s' l' n p Htree').
    + rewrite Hperm. apply elem_of_app. by left.
    + unfold children_list, children_of. rewrite Hobj, lookup_insert_eq. simpl.
      apply elem_of_app. right. left.
Qed.

Lemma insertChild_appends_witness :
  ∃ s' l',
    insertChild 4 Fixture.service Fixture.C Fixture.D = Some s' ∧
    _data s' = _data Fixture.service ∧
    objects s' = <[Fixture.C := mkTreeNode "TestC" (Some [Fixture.D])]> Fixture.store ∧
    tree_shaped 4 s' l' ∧
    l' ≡ₚ [Fixture.A; Fixture.B; Fixture.C] ++
          (if decide (Fixture.C ∈ [Fixture.A; Fixture.B; Fixture.C])
           then [Fixture.D] else []) ∧
    (Fixture.C ∈ [Fixture.A; Fixture.B; Fixture.C] →
     getParent 4 s' Fixture.D = Some (Some Fixture.C)).
Proof.
  apply (insertChild_appends 3 1 4 Fixture.service
           [Fixture.A; Fixture.B; Fixture.C] Fixture.C
           (mkTreeNode "TestC" None) Fixture.D [Fixture.D]).
  - tree_shaped_by_computation.
  - compute_done.
  - compute_done.
  - apply Forall_forall. compute_done.
  - compute_done.
  - simpl. lia.
Defined.

(** X2: next to a root of a tree, [insertBefore] puts the node right in front
    of the sibling in the root array and [insertAfter] right behind it; no
    object changes, the result is a tree with the objects of the inserted
    subtree added, and the two nodes are siblings in it. *)
Theorem insertSibling_at_root f g fuel s l sib pre post n ln :
  tree_shaped f s l → _data s = pre ++ sib :: post →
  subtree g (objects s) n = Some ln → NoDup ln → (∀ x, x ∈ ln → x ∉ l) →
  (f + g ≤ fuel)%nat →
  (∃ s' l',
     insertBefore fuel s sib n = Some s' ∧
     objects s' = objects s ∧ _data s' = pre ++ n :: sib :: post ∧
     tree_shaped fuel s' l' ∧ l' ≡ₚ l ++ ln ∧
     isSibling fuel s' n sib = Some true) ∧
  (∃ s' l',
     insertAfter fuel s sib n = Some s' ∧
     objects s' = objects s ∧ _data s' = pre ++ sib :: n :: post ∧
     tree_shaped fuel s' l' ∧ l' ≡ₚ l ++ ln ∧
     isSibling fuel s' n sib = Some true).
Proof.
  intros Htree Hdata Hn Hndn Hdisj Hle.
  assert (∀ index, index = 0 ∨ index = 1 →
            ∃ s' l',
              _insertSibling fuel s sib n index = Some s' ∧
              objects s' = objects s ∧
              _data s' = inserted_at index pre sib post n ∧
              tree_shaped fuel s' l' ∧ l' ≡ₚ l ++ ln ∧
              isSibling fuel s' n sib = Some true) as Hboth.
  { intros index Hindex.
    destruct (_insertSibling_root f g fuel s l sib pre post n ln index)
      as (s' & l' & Hs' & Hobj & Hdata' & Htree' & Hperm); try done.
    exists s', l'. split_and!; try done.
    unfold isSibling.
    rewrite (getParent_root fuel s' l' n Htree'),
            (getParent_root fuel s' l' sib Htree'); [done| |].
    - rewrite Hdata'. apply elem_of_inserted_at. right.
      apply elem_of_app. right. left.
    - rewrite Hdata'. apply elem_of_inserted_at. by left. }
  split.
  - destruct (Hboth 0) as (s' & l' & H); [by left|]. by exists s', l'.
  - destruct (Hboth 1) as (s' & l' & H); [by right|]. by exists s', l'.
Qed.

Lemma insertSibling_at_root_witness :
  (∃ s' l',
     insertBefore 4 Fixture.service Fixture.A Fixture.D = Some s' ∧
     objects s' = objects Fixture.service ∧
     _data s' = [] ++ Fixture.D :: Fixture.A :: [] ∧
     tree_shaped 4 s' l' ∧ l' ≡ₚ [Fixture.A; Fixture.B; Fixture.C] ++ [Fixture.D] ∧
     isSibling 4 s' Fixture.D Fixture.A = Some true) ∧
  (∃ s' l',
     insertAfter 4 Fixture.service Fixture.A Fixture.D = Some s' ∧
     objects s' = objects Fixture.service ∧
     _data s' = [] ++ Fixture.A :: Fixture.D :: [] ∧
     tree_shaped 4 s' l' ∧ l' ≡ₚ [Fixture.A; Fixture.B; Fixture.C] ++ [Fixture.D] ∧
     isSibling 4 s' Fixture.D Fixture.A = Some true).
Proof.
  apply (insertSibling_at_root 3 1 4 Fixture.service
           [Fixture.A; Fixture.B; Fixture.C] Fixture.A [] [] Fixture.D [Fixture.D]).
  - tree_shaped_by_computation.
  - compute_done.
  - compute_done.
  - compute_done.
  - apply Forall_forall. compute_done.
  - simpl. lia.
Defined.

(** X3: next to a child of an object of a tree, [insertBefore] puts the node
    right in front of the sibling in the children array of that object and
    [insertAfter] right behind it; the root array and the other objects stay,
    the result is a tree with the objects of the inserted subtree added, and
    the two nodes are siblings in it. *)
Theorem insertSibling_at_child f g fuel s l p nd sib pre post n ln :
  tree_shaped f s l → p ∈ l → objects s !! p = Some nd →
  children nd = Some (pre ++ sib :: post) →
  subtree g (objects s) n = Some ln → NoDup ln → (∀ x, x ∈ ln → x ∉ l) →
  (f + g ≤ fuel)%nat →
  (∃ s' l',
     insertBefore fuel s sib n = Some s' ∧ _data s' = _data s ∧
     objects s' = <[p := mkTreeNode (name nd) (Some (pre ++ n :: sib :: post))]>
                    (objects s) ∧
     tree_shaped fuel s' l' ∧ l' ≡ₚ l ++ ln ∧
     isSibling fuel s' n sib = Some true) ∧
  (∃ s' l',
     insertAfter fuel s sib n = Some s' ∧ _data s' = _data s ∧
     objects s' = <[p := mkTreeNode (name nd) (Some (pre ++ sib :: n :: post))]>
                    (objects s) ∧
     tree_shaped fuel s' l' ∧ l' ≡ₚ l ++ ln ∧
     isSibling fuel s' n sib = Some true).
Proof.
  intros Htree Hp Hnd Hch Hn Hndn Hdisj Hle.
  assert (∀ index, index = 0 ∨ index = 1 →
            ∃ s' l',
              _insertSibling fuel s sib n index = Some s' ∧ _data s' = _data s ∧
              objects s' = <[p := mkTreeNode (name nd)
                                    (Some (inserted_at index pre sib post n))]>
                             (objects s) ∧
              tree_shaped fuel s' l' ∧ l' ≡ₚ l ++ ln ∧
              isSibling fuel s' n sib = Some true) as Hboth.
  { intros index Hindex.
    destruct (_insertSibling_child f g fuel s l p nd sib pre post n ln index)
      as (s' & l' & Hs' & Hdata' & Hobj & Htree' & Hperm); try done.
    exists s', l'. split_and!; try done.
    assert (p ∈ l') as Hpl by (rewrite Hperm; apply elem_of_app; by left).
    assert (children_list (objects s') p = inserted_at index pre sib post n) as Hcl.
    { unfold children_list, children_of. by rewrite Hobj, lookup_insert_eq. }
    unfold isSibling.
    rewrite (getParent_child fuel s' l' n p Htree' Hpl),
            (getParent_child fuel s' l' sib p Htree' Hpl).
    - simpl. by rewrite bool_decide_eq_true_2.
    - rewrite Hcl. apply elem_of_inserted_at. right.
      apply elem_of_app. right. left.
    - rewrite Hcl. apply elem_of_inserted_at. by left. }
  split.
  - destruct (Hboth 0) as (s' & l' & H); [by left|]. by exists s', l'.
  - destruct (Hboth 1) as (s' & l' & H); [by right|]. by exists s', l'.
Qed.

Lemma insertSibling_at_child_witness :
  (∃ s' l',
     insertBefore 4 Fixture.service Fixture.C Fixture.D = Some s' ∧
     _data s' = _data Fixture.service ∧
     objects s' = <[Fixture.B := mkTreeNode "TestB"
                                   (Some ([] ++ Fixture.D :: Fixture.C :: []))]>
                    (objects Fixture.service) ∧
     tree_shaped 4 s' l' ∧ l' ≡ₚ [Fixture.A; Fixture.B; Fixture.C] ++ [Fixture.D] ∧
     isSibling 4 s' Fixture.D Fixture.C = Some true) ∧
  (∃ s' l',
     insertAfter 4 Fixture.service Fixture.C Fixture.D = Some s' ∧
     _data s' = _data Fixture.service ∧
     objects s' = <[Fixture.B := mkTreeNode "TestB"
                                   (Some ([] ++ Fixture.C :: Fixture.D :: []))]>
                    (objects Fixture.service) ∧
     tree_shaped 4 s' l' ∧ l' ≡ₚ [Fixture.A; Fixture.B; Fixture.C] ++ [Fixture.D] ∧
     isSibling 4 s' Fixture.D Fixture.C = Some true).
Proof.
  apply (insertSibling_at_child 3 1 4 Fixture.service
           [Fixture.A; Fixture.B; Fixture.C] Fixture.B
           (mkTreeNode "TestB" (Some [Fixture.C])) Fixture.C [] []
           Fixture.D [Fixture.D]).
  - tree_shaped_by_computation.
  - compute_done.
  - compute_done.
  - done.
  - compute_done.
  - compute_done.
  - apply Forall_forall. compute_done.
  - simpl. lia.
Defined.

(** X4: on a tree, [delete] of a node right after it was given to
    [insertChild] with a parent of the tree restores the root array and every
    object but the parent, whose children array is the old one, or an empty
    array when the parent had none before. *)
Theorem insertChild_then_delete f g fuel s l p nd n ln :
  tree_shaped f s l → p ∈ l → objects s !! p = Some nd →
  subtree g (objects s) n = Some ln → NoDup ln → (∀ x, x ∈ ln → x ∉ l) →
  (f + g ≤ fuel)%nat →
  ∃ s1 s2,
    insertChild fuel s p n = Some s1 ∧ delete fuel s1 n = Some s2 ∧
    _data s2 = _data s ∧
    objects s2 = <[p := mkTreeNode (name nd) (Some (default [] (children nd)))]>
                   (objects s) ∧
    (children nd ≠ None → objects s2 = objects s).
Proof.
  intros Htree Hp Hnd Hn Hndn Hdisj Hle. pose proof Htree as [Hd _].
  destruct (update_after_child_insert f g fuel s l p nd n ln
              (default [] (children nd)) [])
    as (s1 & l1 & Hs1 & Hobj & Hdata & Htree1 & Hperm); try done.
  { by rewrite app_nil_r. }
  assert (n ∉ default [] (children nd)) as Hfresh.
  { intros Hin. apply (Hdisj n); [by eapply subtree_root|].
    eapply gather_subtree_child; [done|done|].
    by rewrite <-(children_list_lookup _ _ _ Hnd). }
  destruct (delete_child_effect fuel s1 l1 p n Htree1) as (s2 & Hs2 & Hdata2 & Hobj2).
  { rewrite Hperm. apply elem_of_app. by left. }
  { unfold children_list, children_of. rewrite Hobj, lookup_insert_eq. simpl.
    apply elem_of_app. right. left. }
  assert (objects s2 = <[p := mkTreeNode (name nd) (Some (default [] (children nd)))]>
                         (objects s)) as Hres.
  { rewrite Hobj2. eapply remove_child_inserted; [done|].
    rewrite splice_remove_first by done. by rewrite app_nil_r. }
  exists s1, s2. split_and!.
  - unfold insertChild. by rewrite (insertChild_store _ _ _ _ Hnd).
  - done.
  - by rewrite Hdata2.
  - done.
  - intros Hsome. rewrite Hres. destruct (children nd) as [cs|] eqn:Hcs; [|done].
    simpl. rewrite (node_with_children nd cs Hcs). by apply insert_id.
Qed.

Lemma insertChild_then_delete_witness :
  ∃ s1 s2,
    insertChild 4 Fixture.service Fixture.C Fixture.D = Some s1 ∧
    delete 4 s1 Fixture.D = Some s2 ∧
    _data s2 = _data Fixture.service ∧
    objects s2 = <[Fixture.C := mkTreeNode "TestC" (Some [])]> Fixture.store ∧
    (children (mkTreeNode "TestC" None) ≠ None →
     objects s2 = objects Fixture.service).
Proof.
  apply (insertChild_then_delete 3 1 4 Fixture.service
           [Fixture.A; Fixture.B; Fixture.C] Fixture.C
           (mkTreeNode "TestC" None) Fixture.D [Fixture.D]).
  - tree_shaped_by_computation.
  - compute_done.
  - compute_done.
  - compute_done.
  - compute_done.
  - apply Forall_forall. compute_done.
  - simpl. lia.
Defined.

(** X5: on a tree, [delete] of a node right after it was inserted before or
    after a sibling of the tree gives back the root array and the objects as
    they were. *)
Theorem insertSibling_then_delete f g fuel s l sib n ln :
  tree_shaped f s l → sib ∈ l →
  subtree g (objects s) n = Some ln → NoDup ln → (∀ x, x ∈ ln → x ∉ l) →
  (f + g ≤ fuel)%nat →
  (∃ s1 s2, insertBefore fuel s sib n = Some s1 ∧ delete fuel s1 n = Some s2 ∧
            _data s2 = _data s ∧ objects s2 = objects s) ∧
  (∃ s1 s2, insertAfter fuel s sib n = Some s1 ∧ delete fuel s1 n = Some s2 ∧
            _data s2 = _data s ∧ objects s2 = objects s).
Proof.
  intros Htree Hsib Hn Hndn Hdisj Hle. pose proof Htree as [Hd Hnd].
  assert (n ∉ l) as Hnl by (apply Hdisj; by eapply subtree_root).
  assert (∀ index, index = 0 ∨ index = 1 →
            ∃ s1 s2, _insertSibling fuel s sib n index = Some s1 ∧
                     delete fuel s1 n = Some s2 ∧
                     _data s2 = _data s ∧ objects s2 = objects s) as Hboth.
  { intros index Hindex.
    destruct (tree_root_or_child _ _ _ _ _ Hd Hsib) as [Hroot|(p & Hp & Hsp)].
    - apply list_elem_of_split in Hroot as (pre & post & Hdata).
      destruct (_insertSibling_root f g fuel s l sib pre post n ln index)
        as (s1 & l1 & Hs1 & Hobj & Hdata1 & Htree1 & _); try done.
      destruct (delete_root_effect fuel s1 l1 n Htree1) as (s2 & Hs2 & Hobj2 & Hdata2).
      { rewrite Hdata1. apply elem_of_inserted_at. by left. }
      exists s1, s2. split_and!; [done|done| |congruence].
      rewrite Hdata2, Hdata1, Hdata. apply splice_remove_inserted.
      rewrite <-Hdata. intros Hin. apply Hnl.
      by apply (gather_roots _ _ _ (subtree_root f (objects s)) Hd).
    - destruct (tree_allocated _ _ _ _ _ Hd Hp) as [nd Hndp].
      assert (∃ cs, children nd = Some cs ∧ children_list (objects s) p = cs)
        as (cs & Hch & Hcl).
      { unfold children_list, children_of in *. rewrite Hndp in *. simpl in *.
        destruct (children nd) as [cs|]; [by exists cs|]. by apply elem_of_nil in Hsp. }
      rewrite Hcl in Hsp. apply list_elem_of_split in Hsp as (pre & post & ->).
      destruct (_insertSibling_child f g fuel s l p nd sib pre post n ln index)
        as (s1 & l1 & Hs1 & Hdata1 & Hobj & Htree1 & Hperm); try done.
      destruct (delete_child_effect fuel s1 l1 p n Htree1) as (s2 & Hs2 & Hdata2 & Hobj2).
      { rewrite Hperm. apply elem_of_app. by left. }
      { unfold children_list, children_of. rewrite Hobj, lookup_insert_eq. simpl.
        apply elem_of_inserted_at. by left. }
      exists s1, s2. split_and!; [done|done|congruence|].
      rewrite Hobj2.
      rewrite (remove_child_inserted s1 (objects s) p nd _ (pre ++ sib :: post) n Hobj).
      + rewrite (node_with_children nd _ Hch). by apply insert_id.
      + apply splice_remove_inserted. intros Hin. apply Hnl.
        eapply gather_subtree_child; [done|done|]. by rewrite Hcl. }
  split.
  - destruct (Hboth 0) as (s1 & s2 & H); [by left|]. by exists s1, s2.
  - destruct (Hboth 1) as (s1 & s2 & H); [by right|]. by exists s1, s2.
Qed.

Lemma insertSibling_then_delete_witness :
  (∃ s1 s2, insertBefore 4 Fixture.service Fixture.C Fixture.D = Some s1 ∧
            delete 4 s1 Fixture.D = Some s2 ∧
            _data s2 = _data Fixture.service ∧
            objects s2 = objects Fixture.service) ∧
  (∃ s1 s2, insertAfter 4 Fixture.service Fixture.C Fixture.D = Some s1 ∧
            delete 4 s1 Fixture.D = Some s2 ∧
            _data s2 = _data Fixture.service ∧
            objects s2 = objects Fixture.service).
Proof.
  apply (insertSibling_then_delete 3 1 4 Fixture.service
           [Fixture.A; Fixture.B; Fixture.C] Fixture.C Fixture.D [Fixture.D]).
  - tree_shaped_by_computation.
  - compute_done.
  - compute_done.
  - compute_done.
  - apply Forall_forall. compute_done.
  - simpl. lia.
Defined.

(** X6: [delete] keeps a tree a tree: what is left lists a part of the old
    objects in the old order, the deleted node is no longer in it, so that
    [getParent] of it is null, and a node that was not in the tree leaves the
    listing as it was. *)
Theorem delete_keeps_tree fuel s l n :
  tree_shaped fuel s l →
  ∃ s' l',
    delete fuel s n = Some s' ∧ tree_shaped fuel s' l' ∧
    l' `sublist_of` l ∧ (n ∉ l') ∧
    getParent fuel s' n = Some None ∧
    (n ∉ l → l' = l).
Proof.
  intros Htree. pose proof Htree as [Hd Hnd].
  destruct (delete_core fuel s l n Htree) as (s1 & Hdel & _).
  destruct (delete_descendants fuel s l n s1 Htree Hdel) as (l' & Hl' & Hsub & Hn & Hsame).
  destruct (update_total fuel s1 l' Hl') as [s' Hupd].
  pose proof (descendants_update _ _ _ Hupd) as Hds. rewrite Hl' in Hds.
  exists s', l'. split_and!; try done.
  - unfold delete. by rewrite Hdel.
  - split; [done|]. by eapply sublist_NoDup.
  - by apply (getParent_absent fuel s' l').
Qed.

Lemma delete_keeps_tree_witness :
  ∃ s' l',
    delete 3 Fixture.service Fixture.B = Some s' ∧ tree_shaped 3 s' l' ∧
    l' `sublist_of` [Fixture.A; Fixture.B; Fixture.C] ∧ (Fixture.B ∉ l') ∧
    getParent 3 s' Fixture.B = Some None ∧
    (Fixture.B ∉ [Fixture.A; Fixture.B; Fixture.C] →
     l' = [Fixture.A; Fixture.B; Fixture.C]).
Proof.
  apply (delete_keeps_tree 3 Fixture.service [Fixture.A; Fixture.B; Fixture.C]).
  tree_shaped_by_computation.
Defined.

(** X7: in a tree, the path of a root is the root alone, and the path of a
    child is the path of its parent followed by the child. *)
Theorem getNodePath_extends_parent fuel s l :
  tree_shaped fuel s l →
  (∀ r, r ∈ _data s → getNodePath fuel s r = Some [r]) ∧
  (∀ p n, p ∈ l → n ∈ children_list (objects s) p →
          ∃ path, getNodePath fuel s p = Some path ∧
                  getNodePath fuel s n = Some (path ++ [n])).
Proof.
  intros Htree. split.
  - intros r Hr. unfold getNodePath.
    rewrite (getParent_root fuel s l r Htree Hr). simpl.
    by rewrite getNodePath_loop_None.
  - intros p n Hp Hn.
    destruct (getNodePath_child fuel s l p n Htree Hp Hn) as (pp & Hpp & _ & Hpn).
    by exists pp.
Qed.

Lemma getNodePath_extends_parent_witness :
  (∀ r, r ∈ _data Fixture.service → getNodePath 3 Fixture.service r = Some [r]) ∧
  (∀ p n, p ∈ [Fixture.A; Fixture.B; Fixture.C] →
          n ∈ children_list (objects Fixture.service) p →
          ∃ path, getNodePath 3 Fixture.service p = Some path ∧
                  getNodePath 3 Fixture.service n = Some (path ++ [n])).
Proof.
  apply (getNodePath_extends_parent 3 Fixture.service
           [Fixture.A; Fixture.B; Fixture.C]).
  tree_shaped_by_computation.
Defined.

(** X8: [expandLevel] only adds to the expanded flat nodes: afterwards a flat
    node is expanded exactly when it was expanded before or is one of
    [dataNodes] with the given level; [dataNodes], the tree and the flat
    nodes stay as they are. *)
Theorem expandLevel_adds s lvl :
  (∀ n, n ∈ dataNodes (treeControl s) → is_Some (flatObjects s !! n)) →
  ∃ c',
    expandLevel s lvl = Some (set_treeControl s c') ∧
    dataNodes c' = dataNodes (treeControl s) ∧
    ∀ n, isExpanded c' n = true ↔
         isExpanded (treeControl s) n = true ∨
         (n ∈ dataNodes (treeControl s) ∧
          ∃ fl, flatObjects s !! n = Some fl ∧ level fl = lvl).
Proof.
  intros Hall.
  destruct (expandLevel_loop_spec (flatObjects s) lvl (dataNodes (treeControl s))
              Hall (treeControl s)) as (c' & Hc' & Hdn & Hexp).
  exists c'. split_and!; [|done|done].
  unfold expandLevel. by rewrite Hc'.
Qed.

Lemma expandLevel_adds_witness :
  ∃ c',
    expandLevel Fixture.service 1 = Some (set_treeControl Fixture.service c') ∧
    dataNodes c' = dataNodes (treeControl Fixture.service) ∧
    ∀ n, isExpanded c' n = true ↔
         isExpanded (treeControl Fixture.service) n = true ∨
         (n ∈ dataNodes (treeControl Fixture.service) ∧
          ∃ fl, flatObjects Fixture.service !! n = Some fl ∧ level fl = 1).
Proof.
  apply (expandLevel_adds Fixture.service 1).
  apply Forall_forall. compute_done.
Defined.

(** X9: in a tree, [isParentExpanded] is false for a root and for a node that
    is not in the tree; for a child it is the expansion state of the flat node
    registered for its parent, and false when the parent has no flat node. *)
Theorem isParentExpanded_of_parent fuel s l n :
  tree_shaped fuel s l →
  (n ∈ _data s → isParentExpanded fuel s n = Some false) ∧
  (n ∉ l → isParentExpanded fuel s n = Some false) ∧
  (∀ p, p ∈ l → n ∈ children_list (objects s) p →
        (getFlatNode s p = None → isParentExpanded fuel s n = Some false) ∧
        (∀ f, getFlatNode s p = Some f →
              isParentExpanded fuel s n = Some (isExpanded (treeControl s) f))).
Proof.
  intros Htree. pose proof Htree as [Hd _]. unfold isParentExpanded. split_and!.
  - intros Hn. by rewrite (getParent_root fuel s l n Htree Hn).
  - intros Hn. by rewrite (getParent_absent fuel s l n Hd Hn).
  - intros p Hp Hn. rewrite (getParent_child fuel s l n p Htree Hp Hn). simpl.
    unfold getFlatNode. split.
    + by intros ->.
    + by intros f ->.
Qed.

Lemma isParentExpanded_of_parent_witness :
  (Fixture.B ∈ _data Fixture.service →
   isParentExpanded 3 Fixture.service Fixture.B = Some false) ∧
  (Fixture.B ∉ [Fixture.A; Fixture.B; Fixture.C] →
   isParentExpanded 3 Fixture.service Fixture.B = Some false) ∧
  (∀ p, p ∈ [Fixture.A; Fixture.B; Fixture.C] →
        Fixture.B ∈ children_list (objects Fixture.service) p →
        (getFlatNode Fixture.service p = None →
         isParentExpanded 3 Fixture.service Fixture.B = Some false) ∧
        (∀ f, getFlatNode Fixture.service p = Some f →
              isParentExpanded 3 Fixture.service Fixture.B
              = Some (isExpanded (treeControl Fixture.service) f))).
Proof.
  apply (isParentExpanded_of_parent 3 Fixture.service
           [Fixture.A; Fixture.B; Fixture.C] Fixture.B).
  tree_shaped_by_computation.
Defined.

(** X10: when the tree control holds the flattened tree, [toggleNode] on the
    collapsed flat node of a child makes [isParentExpanded] of the child true,
    and it stays true when the flat node is toggled again. *)
Theorem toggleNode_opens_parent fuel s l f fl p :
  tree_shaped fuel s l → one_flat_per_node s → flattened s l →
  flatObjects s !! f = Some fl → isExpanded (treeControl s) f = false →
  p ∈ l → node fl ∈ children_list (objects s) p →
  ∃ s1 s2,
    toggleNode fuel s f = Some s1 ∧
    isParentExpanded fuel s1 (node fl) = Some true ∧
    toggleNode fuel s1 f = Some s2 ∧
    isExpanded (treeControl s2) f = false ∧
    isParentExpanded fuel s2 (node fl) = Some true.
Proof.
  intros Htree Hone Hflat Hfl Hexp Hp Hx. pose proof Htree as [Hd _].
  assert (node fl ∈ l) as Hxl by (by eapply gather_subtree_child).
  destruct (getNodePath_child fuel s l p (node fl) Htree Hp Hx)
    as (pp & _ & Hlast & Hpath).
  destruct (flattened_flat_node s l p Hone Hflat Hp) as (n' & fl' & Hmap & Hn' & Hfl' & Hnode').
  destruct (flattened_flat_node s l (node fl) Hone Hflat Hxl)
    as (f0 & fl0 & Hmap0 & Hf0 & Hfl0 & Hnode0).
  assert (f0 = f) as ->.
  { destruct Hone as [Hone _]. apply Hone in Hfl. congruence. }
  assert (n' ≠ f) as Hne.
  { intros ->. rewrite Hfl in Hfl'. injection Hfl' as <-. rewrite Hnode' in Hx.
    destruct (tree_allocated _ _ _ _ _ Hd Hp) as [nd Hnd].
    apply (gather_elem _ _ _ p Hd) in Hp as (c & lc & _ & Hlc & Hp).
    destruct (subtree_inner _ _ _ _ _ Hlc Hp) as (lp & Hlp & _).
    by apply (subtree_not_own_child _ _ _ _ Hlp). }
  destruct (toggle_loop_spec (flatObjects s) f (pp ++ [node fl])
              (dataNodes (treeControl s))
              (λ n Hn, flattened_allocated s l n Hflat Hn) (treeControl s))
    as (c' & Hc' & Hdn & Hin & _).
  assert (isExpanded c' n' = true) as Hpe.
  { apply (Hin n' fl' Hn' Hfl'). right. rewrite Hnode'.
    apply elem_of_app. left. by apply last_Some_elem_of. }
  assert (isExpanded c' f = true) as Hfe.
  { apply (Hin f fl Hf0 Hfl). by left. }
  assert (∀ c, isParentExpanded fuel (set_treeControl s c) (node fl)
               = Some (isExpanded c n')) as Hipe.
  { intros c. unfold isParentExpanded.
    change (getParent fuel (set_treeControl s c) (node fl))
      with (getParent fuel s (node fl)).
    rewrite (getParent_child fuel s l (node fl) p Htree Hp Hx). simpl.
    by rewrite Hmap. }
  exists (set_treeControl s c'), (set_treeControl s (collapse c' f)).
  split_and!.
  - unfold toggleNode. rewrite Hexp, Hfl. simpl. rewrite Hpath. simpl.
    by rewrite Hc'.
  - by rewrite Hipe, Hpe.
  - unfold toggleNode. simpl. by rewrite Hfe.
  - simpl. apply not_true_is_false. rewrite isExpanded_collapse. by intros [? _].
  - rewrite Hipe. f_equal. apply isExpanded_collapse. done.
Qed.

Lemma toggleNode_opens_parent_witness :
  ∃ s1 s2,
    toggleNode 3 Fixture.service 2%nat = Some s1 ∧
    isParentExpanded 3 s1 Fixture.C = Some true ∧
    toggleNode 3 s1 2%nat = Some s2 ∧
    isExpanded (treeControl s2) 2%nat = false ∧
    isParentExpanded 3 s2 Fixture.C = Some true.
Proof.
  apply (toggleNode_opens_parent 3 Fixture.service
           [Fixture.A; Fixture.B; Fixture.C] 2%nat
           (mkTreeFlatNode Fixture.C false 2) Fixture.B).
  - tree_shaped_by_computation.
  - apply Fixture_flat_nodes.
  - repeat constructor.
  - compute_done.
  - compute_done.
  - compute_done.
  - compute_done.
Defined.

(** X11: every operation that changes the tree ([data] setter, [update],
    insertions, [delete], clones) emits the root array exactly once and leaves
    the set of expanded flat nodes as it is; [transformer], [toggleNode] and
    [expandLevel] emit nothing and leave the tree as it is. *)
Theorem mutations_emit_once fuel s op s' :
  run fuel s op = Some s' →
  match op with
  | OpTransformer _ _ | OpToggleNode _ | OpExpandLevel _ =>
      dataSubject s' = dataSubject s ∧ _data s' = _data s ∧ objects s' = objects s
  | _ =>
      dataSubject s' = _data s' :: dataSubject s ∧
      expansionModel (treeControl s') = expansionModel (treeControl s)
  end.
Proof.
  destruct op; simpl.
  - by apply update_emits.
  - by apply update_emits.
  - intros [= <-]. by destruct (transformer_same_tree s n lvl) as (? & ? & _ & ?).
  - unfold insertChild. by apply update_emits.
  - apply _insertSibling_emits.
  - apply _insertSibling_emits.
  - unfold delete. destruct (_delete (S fuel) s RootArray n) as [s1|] eqn:Hdel; [|done].
    simpl. apply _delete_subject in Hdel as [??]. by apply update_emits.
  - unfold cloneAsChild.
    destruct (cloneDeep fuel (objects s) originalNode) as [[h1 c]|]; [|done]. simpl.
    destruct (cloneDeep fuel h1 originalNode) as [[h2 ins]|]; [|done]. simpl.
    destruct (insertChild _ _ _ _) as [s2|] eqn:Hins; [|done]. simpl. intros [= <-].
    unfold insertChild in Hins. revert Hins. by apply update_emits.
  - unfold cloneAsSiblingBefore.
    destruct (cloneDeep fuel (objects s) originalNode) as [[h1 c]|]; [|done]. simpl.
    destruct (insertBefore _ _ _ _) as [s2|] eqn:Hins; [|done]. simpl. intros [= <-].
    by apply _insertSibling_emits in Hins.
  - unfold cloneAsSiblingAfter.
    destruct (cloneDeep fuel (objects s) originalNode) as [[h1 c]|]; [|done]. simpl.
    destruct (insertAfter _ _ _ _) as [s2|] eqn:Hins; [|done]. simpl. intros [= <-].
    by apply _insertSibling_emits in Hins.
  - unfold toggleNode. case_match.
    + by intros [= <-].
    + destruct (flatObjects s !! flatNode) as [fl|]; [|done]. simpl.
      destruct (getNodePath fuel s (node fl)) as [path|]; [|done]. simpl.
      destruct (toggle_loop _ _ _ _ _) as [c|]; [|done]. simpl.
      by intros [= <-].
  - unfold expandLevel. destruct (expandLevel_loop _ _ _ _) as [c|]; [|done]. simpl.
    by intros [= <-].
Qed.

Lemma mutations_emit_once_witness :
  dataSubject Fixture.service = _data Fixture.service :: dataSubject Fixture.created ∧
  expansionModel (treeControl Fixture.service)
  = expansionModel (treeControl Fixture.created).
Proof.
  apply (mutations_emit_once 3 Fixture.created (OpSetData [Fixture.A])
           Fixture.service).
  apply Fixture_set_data.
Defined.

(** X12: in a tree, two nodes of the same children array are siblings; a node
    and its parent are not, and a root and a node below the roots are not;
    a node that is not in the tree is reported as a sibling of every root. *)
Theorem isSibling_in_tree fuel s l :
  tree_shaped fuel s l →
  (∀ p a b, p ∈ l → a ∈ children_list (objects s) p →
            b ∈ children_list (objects s) p → isSibling fuel s a b = Some true) ∧
  (∀ p c, p ∈ l → c ∈ children_list (objects s) p →
          isSibling fuel s p c = Some false ∧ isSibling fuel s c p = Some false) ∧
  (∀ r c, r ∈ _data s → c ∈ l → c ∉ _data s →
          isSibling fuel s r c = Some false ∧ isSibling fuel s c r = Some false) ∧
  (∀ r n, r ∈ _data s → n ∉ l →
          isSibling fuel s r n = Some true ∧ isSibling fuel s n r = Some true).
Proof.
  intros Htree. pose proof Htree as [Hd Hnd]. unfold isSibling. split_and!.
  - intros p a b Hp Ha Hb.
    rewrite (getParent_child fuel s l a p Htree Hp Ha).
    rewrite (getParent_child fuel s l b p Htree Hp Hb). simpl.
    by rewrite bool_decide_eq_true_2.
  - intros p c Hp Hc.
    rewrite (getParent_child fuel s l c p Htree Hp Hc).
    destruct (getParent_answer fuel s l p Hd) as (res & -> & Hres). simpl.
    assert (res ≠ Some p) as Hne.
    { intros ->. destruct Hres as [_ Hpp].
      apply (gather_elem _ _ _ p Hd) in Hp as (c0 & lc & _ & Hlc & Hp).
      destruct (subtree_inner _ _ _ _ _ Hlc Hp) as (lp & Hlp & _).
      by apply (subtree_not_own_child _ _ _ _ Hlp). }
    split; f_equal; apply bool_decide_eq_false_2; congruence.
  - intros r c Hr Hc Hnr.
    destruct (tree_root_or_child _ _ _ _ _ Hd Hc) as [?|(p & Hp & Hcp)]; [done|].
    rewrite (getParent_root fuel s l r Htree Hr).
    rewrite (getParent_child fuel s l c p Htree Hp Hcp). simpl.
    split; f_equal; by apply bool_decide_eq_false_2.
  - intros r n Hr Hn.
    rewrite (getParent_root fuel s l r Htree Hr).
    rewrite (getParent_absent fuel s l n Hd Hn). simpl. done.
Qed.

Lemma isSibling_in_tree_witness :
  isSibling 3 Fixture.service Fixture.A Fixture.B = Some false ∧
  isSibling 3 Fixture.service Fixture.B Fixture.A = Some false.
Proof.
  destruct (isSibling_in_tree 3 Fixture.service [Fixture.A; Fixture.B; Fixture.C])
    as (_ & Hparent & _).
  { tree_shaped_by_computation. }
  apply (Hparent Fixture.A Fixture.B); compute_done.
Defined.

(** X13: whenever the traversal of the structure ends, also when a node is
    shared by several parents, [getParent] returns: either an object of the
    structure whose children array holds the node, or null, and null only
    when no object of the structure has the node in its children array. *)
Theorem getParent_finds_a_parent fuel s l n :
  descendants fuel s = Some l →
  ∃ res,
    getParent fuel s n = Some res ∧
    match res with
    | Some p => p ∈ l ∧ n ∈ children_list (objects s) p
    | None => ∀ p, p ∈ l → n ∉ children_list (objects s) p
    end.
Proof. apply getParent_answer. Qed.

Lemma getParent_finds_a_parent_witness :
  ∃ res,
    getParent 3 SharedFixture.service Fixture.C = Some res ∧
    match res with
    | Some p =>
        p ∈ [Fixture.A; Fixture.B; Fixture.C; Fixture.C] ∧
        Fixture.C ∈ children_list (objects SharedFixture.service) p
    | None =>
        ∀ p, p ∈ [Fixture.A; Fixture.B; Fixture.C; Fixture.C] →
             Fixture.C ∉ children_list (objects SharedFixture.service) p
    end.
Proof.
  apply (getParent_finds_a_parent 3 SharedFixture.service
           [Fixture.A; Fixture.B; Fixture.C; Fixture.C] Fixture.C).
  compute_done.
Defined.

(** X14: [update] on an unchanged tree reuses the flat nodes: a second
    [update] ends with the same [dataNodes] in the same order, and every node
    of the tree keeps the flat node that [getFlatNode] returned for it, which
    is one of [dataNodes]. *)
Theorem update_reuses_flat_nodes fuel s l s1 :
  one_flat_per_node s → descendants fuel s = Some l → update fuel s = Some s1 →
  ∃ s2,
    update fuel s1 = Some s2 ∧
    dataNodes (treeControl s2) = dataNodes (treeControl s1) ∧
    ∀ x, x ∈ l →
         ∃ f, getFlatNode s1 x = Some f ∧ getFlatNode s2 x = Some f ∧
              f ∈ dataNodes (treeControl s1).
Proof.
  intros Hone Hd Hupd.
  pose proof (update_flat_step _ _ _ Hupd) as [Hone1 _]. specialize (Hone1 Hone).
  pose proof (update_flattened _ _ _ _ Hone Hd Hupd) as Hflat1.
  pose proof (descendants_update _ _ _ Hupd) as Hd1. rewrite Hd in Hd1.
  destruct (update_total fuel s1 l Hd1) as [s2 Hupd2].
  pose proof (update_flat_step _ _ _ Hupd2) as [Hone2 Hkeep]. specialize (Hone2 Hone1).
  pose proof (update_flattened _ _ _ _ Hone1 Hd1 Hupd2) as Hflat2.
  exists s2. split_and!; [done| |].
  - apply (Forall2_functional (λ f x, nodeMap s2 !! x = Some f) _ _ l).
    + intros f g x ??. congruence.
    + by apply flattened_registered.
    + eapply Forall2_impl; [by apply flattened_registered|].
      intros f x Hf. by apply Hkeep.
  - intros x Hx.
    destruct (flattened_flat_node s1 l x Hone1 Hflat1 Hx) as (f & fl & Hmap & Hf & _).
    exists f. unfold getFlatNode. split_and!; [done|by apply Hkeep|done].
Qed.

Lemma update_reuses_flat_nodes_witness :
  ∃ s2,
    update 3 Fixture.service = Some s2 ∧
    dataNodes (treeControl s2) = dataNodes (treeControl Fixture.service) ∧
    ∀ x, x ∈ [Fixture.A; Fixture.B; Fixture.C] →
         ∃ f, getFlatNode Fixture.service x = Some f ∧ getFlatNode s2 x = Some f ∧
              f ∈ dataNodes (treeControl Fixture.service).
Proof.
  apply (update_reuses_flat_nodes 3 (set__data Fixture.created [Fixture.A])
           [Fixture.A; Fixture.B; Fixture.C] Fixture.service).
  - split; intros ? ?; simpl; by rewrite lookup_empty.
  - compute_done.
  - apply Fixture_set_data.
Defined.

(** X15: after [update] on a tree, every node of the tree has a flat node
    that [getFlatNode] returns and that is one of [dataNodes]; its level is
    the number of ancestors of the node, [hasChildren] of it tells whether the
    node has a children array that is not empty, and [isRoot] of it tells
    whether the node is in the root array. *)
Theorem update_flat_nodes fuel s l :
  tree_shaped fuel s l → one_flat_per_node s →
  ∃ s',
    update fuel s = Some s' ∧
    ∀ x, x ∈ l →
         ∃ f fl path,
           getFlatNode s' x = Some f ∧ f ∈ dataNodes (treeControl s') ∧
           flatObjects s' !! f = Some fl ∧ node fl = x ∧
           getNodePath fuel s' x = Some path ∧
           level fl = Z.of_nat (length path) - 1 ∧
           hasChildren s' f = Some (has_children (objects s') x) ∧
           isRoot s' f = Some (bool_decide (x ∈ _data s')).
Proof.
  intros Htree Hone. pose proof Htree as [Hd Hnd].
  destruct (update_total fuel s l Hd) as [s' Hupd]. exists s'. split; [done|].
  pose proof (update_flat_step _ _ _ Hupd) as [Hone' _]. specialize (Hone' Hone).
  pose proof (update_flattened _ _ _ _ Hone Hd Hupd) as Hflat.
  pose proof (update_same_tree _ _ _ Hupd) as (Hobj & Hdata & _).
  set (depth := λ x : ref,
         Z.of_nat (length (default [] (getNodePath fuel s x))) - 1).
  assert (∀ r, r ∈ _data s → depth r = 0) as Hroots.
  { intros r Hr. unfold depth, getNodePath.
    rewrite (getParent_root fuel s l r Htree Hr). simpl.
    by rewrite getNodePath_loop_None. }
  assert (∀ p c, p ∈ l → c ∈ children_list (objects s) p → depth c = depth p + 1)
    as Hdepth.
  { intros p c Hp Hc.
    destruct (getNodePath_child fuel s l p c Htree Hp Hc) as (pp & Hpp & _ & Hpc).
    unfold depth. rewrite Hpp, Hpc. simpl. rewrite length_app. simpl. lia. }
  intros x Hx.
  destruct (flattened_flat_node s' l x Hone' Hflat Hx)
    as (f & fl & Hmap & Hf & Hfl & Hnode).
  destruct (update_up_to_date depth fuel s l s' Hone Hd Hroots Hdepth Hupd f Hf)
    as (fl' & Hfl' & Hlvl & Hexp).
  rewrite Hfl in Hfl'. injection Hfl' as <-. rewrite Hnode in Hlvl, Hexp.
  destruct (getNodePath_total fuel s l x Htree) as [path Hpath].
  exists f, fl, path. split_and!; try done.
  - by rewrite (getNodePath_update _ _ _ _ Hupd).
  - rewrite Hlvl. unfold depth. by rewrite Hpath.
  - unfold hasChildren. rewrite Hfl. simpl. by rewrite Hexp.
  - unfold isRoot. rewrite Hfl. simpl. f_equal. rewrite Hlvl, Hdata.
    destruct (decide (x ∈ _data s)) as [Hr|Hr].
    + rewrite Hroots by done. by rewrite !bool_decide_eq_true_2.
    + rewrite (bool_decide_eq_false_2 (x ∈ _data s)) by done.
      apply bool_decide_eq_false_2.
      destruct (tree_root_or_child _ _ _ _ _ Hd Hx) as [?|(p & Hp & Hxp)]; [done|].
      rewrite (Hdepth p x Hp Hxp).
      destruct (getNodePath_child fuel s l p x Htree Hp Hxp) as (pp & Hpp & Hlast & _).
      unfold depth. rewrite Hpp. simpl. destruct pp; [done|]. simpl. lia.
Qed.

Lemma update_flat_nodes_witness :
  ∃ s',
    update 3 Fixture.service = Some s' ∧
    ∀ x, x ∈ [Fixture.A; Fixture.B; Fixture.C] →
         ∃ f fl path,
           getFlatNode s' x = Some f ∧ f ∈ dataNodes (treeControl s') ∧
           flatObjects s' !! f = Some fl ∧ node fl = x ∧
           getNodePath 3 s' x = Some path ∧
           level fl = Z.of_nat (length path) - 1 ∧
           hasChildren s' f = Some (has_children (objects s') x) ∧
           isRoot s' f = Some (bool_decide (x ∈ _data s')).
Proof.
  apply (update_flat_nodes 3 Fixture.service [Fixture.A; Fixture.B; Fixture.C]).
  - tree_shaped_by_computation.
  - apply Fixture_flat_nodes.
Defined.

(** X16: assigning [data] replaces the root array and leaves the objects
    alone; whenever the traversal of the new roots ends, [dataNodes] then
    lists, in depth-first order, the flat nodes that [getFlatNode] returns for
    the nodes below the new roots, and nothing else. *)
Theorem set_data_flattens fuel s nodes l :
  one_flat_per_node s → gather (subtree fuel (objects s)) nodes = Some l →
  ∃ s',
    set_data fuel s nodes = Some s' ∧ _data s' = nodes ∧ objects s' = objects s ∧
    Forall2 (λ f x, getFlatNode s' x = Some f) (dataNodes (treeControl s')) l.
Proof.
  intros Hone Hd. unfold set_data.
  assert (one_flat_per_node (set__data s nodes)) as Hone0 by done.
  destruct (update_total fuel (set__data s nodes) l Hd) as [s' Hupd].
  pose proof (update_flat_step _ _ _ Hupd) as [Hone' _]. specialize (Hone' Hone0).
  pose proof (update_flattened _ _ _ _ Hone0 Hd Hupd) as Hflat.
  pose proof (update_same_tree _ _ _ Hupd) as (Hobj & Hdata & _).
  exists s'. split_and!; [done|done|done|].
  by apply flattened_registered.
Qed.

Lemma set_data_flattens_witness :
  ∃ s',
    set_data 3 Fixture.service [Fixture.B; Fixture.Z] = Some s' ∧
    _data s' = [Fixture.B; Fixture.Z] ∧ objects s' = objects Fixture.service ∧
    Forall2 (λ f x, getFlatNode s' x = Some f) (dataNodes (treeControl s'))
      [Fixture.B; Fixture.C; Fixture.Z].
Proof.
  apply (set_data_flattens 3 Fixture.service [Fixture.B; Fixture.Z]
           [Fixture.B; Fixture.C; Fixture.Z]).
  - apply Fixture_flat_nodes.
  - compute_done.
Defined.

(** X17: for an original below which every object occurs once,
    [cloneAsSiblingBefore] and [cloneAsSiblingAfter] with a sibling of the
    tree return the object they inserted: it is a new object, the result is a
    tree that holds it together with the old objects, it stands right in
    front of, respectively right behind, the sibling in the array that holds
    the sibling, and the two are siblings. *)
Theorem cloneAsSibling_returns_inserted f g fuel s l o lo sib :
  tree_shaped f s l → subtree g (objects s) o = Some lo → NoDup lo → sib ∈ l →
  (f + g ≤ fuel)%nat →
  (∃ s' c l',
     cloneAsSiblingBefore fuel s o sib = Some (s', c) ∧
     objects s !! c = None ∧ tree_shaped fuel s' l' ∧ c ∈ l' ∧
     (∀ x, x ∈ l → x ∈ l') ∧ isSibling fuel s' c sib = Some true ∧
     ∃ pre post,
       _data s' = pre ++ c :: sib :: post ∨
       ∃ p, p ∈ l ∧ children_list (objects s') p = pre ++ c :: sib :: post) ∧
  (∃ s' c l',
     cloneAsSiblingAfter fuel s o sib = Some (s', c) ∧
     objects s !! c = None ∧ tree_shaped fuel s' l' ∧ c ∈ l' ∧
     (∀ x, x ∈ l → x ∈ l') ∧ isSibling fuel s' c sib = Some true ∧
     ∃ pre post,
       _data s' = pre ++ sib :: c :: post ∨
       ∃ p, p ∈ l ∧ children_list (objects s') p = pre ++ sib :: c :: post).
Proof.
  intros Htree Hlo Hndlo Hsib Hle. pose proof Htree as [Hd Hnd].
  destruct (cloneDeep_tree g fuel (objects s) o lo Hlo) as
    (h1 & c & lc & Hc & Hsub & Hlc & Hndc & Hfresh); [lia|].
  assert (∀ x, x ∈ lc → x ∉ l) as Hdisj.
  { intros x Hx Hxl. destruct (tree_allocated _ _ _ _ _ Hd Hxl) as [nd Hal].
    rewrite (Hfresh x Hx) in Hal. done. }
  assert (∀ index, index = 0 ∨ index = 1 →
            ∃ s' l',
              _insertSibling fuel (set_objects s h1) sib c index = Some s' ∧
              objects s !! c = None ∧ tree_shaped fuel s' l' ∧ c ∈ l' ∧
              (∀ x, x ∈ l → x ∈ l') ∧ isSibling fuel s' c sib = Some true ∧
              ∃ pre post,
                _data s' = inserted_at index pre sib post c ∨
                ∃ p, p ∈ l ∧
                     children_list (objects s') p = inserted_at index pre sib post c)
    as Hboth.
  { intros index Hindex.
    destruct (_insertSibling_placed f g fuel (set_objects s h1) l sib c lc index)
      as (s' & l' & Hs' & Htree' & Hperm & Hpar & Hplace); try done.
    { by apply tree_shaped_weaken. }
    exists s', l'. split_and!; try done.
    - apply Hfresh. by eapply subtree_root.
    - rewrite Hperm. apply elem_of_app. right. by eapply subtree_root.
    - intros x Hx. rewrite Hperm. apply elem_of_app. by left.
    - unfold isSibling. rewrite Hpar.
      destruct (getParent_answer fuel s' l' sib (proj1 Htree')) as (res & -> & _).
      simpl. by rewrite bool_decide_eq_true_2. }
  split.
  - destruct (Hboth 0) as (s' & l' & Hs' & H); [by left|].
    exists s', c, l'. split; [|done].
    unfold cloneAsSiblingBefore, insertBefore. rewrite Hc. simpl. by rewrite Hs'.
  - destruct (Hboth 1) as (s' & l' & Hs' & H); [by right|].
    exists s', c, l'. split; [|done].
    unfold cloneAsSiblingAfter, insertAfter. rewrite Hc. simpl. by rewrite Hs'.
Qed.

Lemma cloneAsSibling_returns_inserted_witness :
  (∃ s' c l',
     cloneAsSiblingBefore 6 Fixture.service Fixture.A Fixture.B = Some (s', c) ∧
     objects Fixture.service !! c = None ∧ tree_shaped 6 s' l' ∧ c ∈ l' ∧
     (∀ x, x ∈ [Fixture.A; Fixture.B; Fixture.C] → x ∈ l') ∧
     isSibling 6 s' c Fixture.B = Some true ∧
     ∃ pre post,
       _data s' = pre ++ c :: Fixture.B :: post ∨
       ∃ p, p ∈ [Fixture.A; Fixture.B; Fixture.C] ∧
            children_list (objects s') p = pre ++ c :: Fixture.B :: post) ∧
  (∃ s' c l',
     cloneAsSiblingAfter 6 Fixture.service Fixture.A Fixture.B = Some (s', c) ∧
     objects Fixture.service !! c = None ∧ tree_shaped 6 s' l' ∧ c ∈ l' ∧
     (∀ x, x ∈ [Fixture.A; Fixture.B; Fixture.C] → x ∈ l') ∧
     isSibling 6 s' c Fixture.B = Some true ∧
     ∃ pre post,
       _data s' = pre ++ Fixture.B :: c :: post ∨
       ∃ p, p ∈ [Fixture.A; Fixture.B; Fixture.C] ∧
            children_list (objects s') p = pre ++ Fixture.B :: c :: post).
Proof.
  apply (cloneAsSibling_returns_inserted 3 3 6 Fixture.service
           [Fixture.A; Fixture.B; Fixture.C] Fixture.A
           [Fixture.A; Fixture.B; Fixture.C] Fixture.B).
  - tree_shaped_by_computation.
  - compute_done.
  - compute_done.
  - compute_done.
  - simpl. lia.
Defined.

(** X18: for an original below which every object occurs once, [cloneAsChild]
    with a parent of the tree makes two copies: the result is a tree in which
    the second copy is the last child of the parent, while the object it
    returns is another new object that is not in the tree, so that
    [getParent] of the returned object is null. *)
Theorem cloneAsChild_inserts_second_copy f g fuel s l o lo p :
  tree_shaped f s l → subtree g (objects s) o = Some lo → NoDup lo → p ∈ l →
  (f + g ≤ fuel)%nat →
  ∃ s' c ins l',
    cloneAsChild fuel s o p = Some (s', c) ∧ ins ≠ c ∧
    objects s !! c = None ∧ objects s !! ins = None ∧
    tree_shaped fuel s' l' ∧ (∀ x, x ∈ l → x ∈ l') ∧
    children_list (objects s') p = children_list (objects s) p ++ [ins] ∧
    getParent fuel s' ins = Some (Some p) ∧
    (c ∉ l') ∧ getParent fuel s' c = Some None.
Proof.
  intros Htree Hlo Hndlo Hp Hle. pose proof Htree as [Hd Hnd].
  destruct (cloneDeep_tree g fuel (objects s) o lo Hlo) as
    (h1 & c & lc & Hc & Hsub1 & Hlc & Hndc & Hfresh1); [lia|].
  pose proof (subtree_weaken _ _ _ _ _ Hsub1 Hlo) as Hlo1.
  destruct (cloneDeep_tree g fuel h1 o lo Hlo1) as
    (h2 & ins & li & Hins & Hsub2 & Hli & Hndi & Hfresh2); [lia|].
  assert (objects s ⊆ h2) as Hsub by (by etrans).
  destruct (tree_allocated _ _ _ _ _ Hd Hp) as [nd Hndp].
  pose proof (lookup_weaken _ _ _ _ Hndp Hsub) as Hndp2.
  assert (∀ x, h1 !! x = None → objects s !! x = None) as Hold.
  { intros x Hx. destruct (objects s !! x) as [ndx|] eqn:Hal; [|done].
    by rewrite (lookup_weaken _ _ _ _ Hal Hsub1) in Hx. }
  assert (∀ x, x ∈ li → x ∉ l) as Hdisj.
  { intros x Hx Hxl. destruct (tree_allocated _ _ _ _ _ Hd Hxl) as [ndx Hal].
    rewrite (Hold x (Hfresh2 x Hx)) in Hal. done. }
  destruct (update_after_child_insert f g fuel (set_objects s h2) l p nd ins li
              (default [] (children nd)) [])
    as (s' & l' & Hs' & Hobj & Hdata & Htree' & Hperm); try done.
  { by apply tree_shaped_weaken. }
  { by rewrite app_nil_r. }
  rewrite decide_True in Hperm by done.
  assert (ins ∈ li) as Hii by (by eapply subtree_root).
  assert (is_Some (h1 !! c)) as [ndc Hcal] by (by eapply subtree_allocated).
  assert (children_list (objects s') p = children_list (objects s) p ++ [ins]) as Hcl.
  { rewrite <-(children_list_lookup _ _ _ Hndp).
    unfold children_list, children_of. by rewrite Hobj, lookup_insert_eq. }
  assert (c ∉ l') as Hcl'.
  { rewrite Hperm. intros [Hin|Hin]%elem_of_app.
    - destruct (tree_allocated _ _ _ _ _ Hd Hin) as [ndx Hal].
      rewrite (Hfresh1 c) in Hal; [done|]. by eapply subtree_root.
    - rewrite (Hfresh2 c Hin) in Hcal. done. }
  exists s', c, ins, l'. split_and!; try done.
  - unfold cloneAsChild. rewrite Hc. simpl. rewrite Hins. simpl.
    unfold insertChild. simpl. rewrite (insertChild_store _ _ _ _ Hndp2).
    simpl in Hs'. by rewrite Hs'.
  - intros ->. rewrite (Hfresh2 c Hii) in Hcal. done.
  - apply Hfresh1. by eapply subtree_root.
  - apply Hold, Hfresh2. done.
  - intros x Hx. rewrite Hperm. apply elem_of_app. by left.
  - apply (getParent_child fuel s' l' ins p Htree').
    + rewrite Hperm. apply elem_of_app. by left.
    + rewrite Hcl. apply elem_of_app. right. left.
  - by apply (getParent_absent fuel s' l' c (proj1 Htree')).
Qed.

Lemma cloneAsChild_inserts_second_copy_witness :
  ∃ s' c ins l',
    cloneAsChild 6 Fixture.service Fixture.A Fixture.B = Some (s', c) ∧ ins ≠ c ∧
    objects Fixture.service !! c = None ∧ objects Fixture.service !! ins = None ∧
    tree_shaped 6 s' l' ∧ (∀ x, x ∈ [Fixture.A; Fixture.B; Fixture.C] → x ∈ l') ∧
    children_list (objects s') Fixture.B
    = children_list (objects Fixture.service) Fixture.B ++ [ins] ∧
    getParent 6 s' ins = Some (Some Fixture.B) ∧
    (c ∉ l') ∧ getParent 6 s' c = Some None.
Proof.
  apply (cloneAsChild_inserts_second_copy 3 3 6 Fixture.service
           [Fixture.A; Fixture.B; Fixture.C] Fixture.A
           [Fixture.A; Fixture.B; Fixture.C] Fixture.B).
  - tree_shaped_by_computation.
  - compute_done.
  - compute_done.
  - compute_done.
  - simpl. lia.
Defined.

(** X19: [delete] removes exactly the node and what is below it: an object is
    in the tree afterwards exactly when it was in the tree and the deleted
    node is not on its path, and the objects that remain keep their path. *)
Theorem delete_removes_subtree fuel s l n :
  tree_shaped fuel s l →
  ∃ s' l',
    delete fuel s n = Some s' ∧ tree_shaped fuel s' l' ∧
    ∀ x path,
      getNodePath fuel s x = Some path →
      (x ∈ l' ↔ x ∈ l ∧ n ∉ path) ∧
      (x ∈ l' → getNodePath fuel s' x = Some path).
Proof.
  intros Htree. pose proof Htree as [Hd Hnd].
  destruct (delete_core fuel s l n Htree) as (s1 & Hdel & _).
  destruct (delete_descendants fuel s l n s1 Htree Hdel) as (l' & Hl' & Hsub & Hn & _).
  destruct (update_total fuel s1 l' Hl') as [s' Hupd].
  pose proof (descendants_update _ _ _ Hupd) as Hds. rewrite Hl' in Hds.
  assert (delete fuel s n = Some s') as Hdelete.
  { unfold delete. by rewrite Hdel. }
  assert (tree_shaped fuel s' l') as Htree'.
  { split; [done|]. by eapply sublist_NoDup. }
  exists s', l'. split_and!; [done|done|].
  by apply (delete_survivors fuel s l n s' l').
Qed.

Lemma delete_removes_subtree_witness :
  ∃ s' l',
    delete 3 Fixture.service Fixture.B = Some s' ∧ tree_shaped 3 s' l' ∧
    ∀ x path,
      getNodePath 3 Fixture.service x = Some path →
      (x ∈ l' ↔ x ∈ [Fixture.A; Fixture.B; Fixture.C] ∧ Fixture.B ∉ path) ∧
      (x ∈ l' → getNodePath 3 s' x = Some path).
Proof.
  apply (delete_removes_subtree 3 Fixture.service
           [Fixture.A; Fixture.B; Fixture.C] Fixture.B).
  tree_shaped_by_computation.
Defined.

(** X20: [delete] does not unregister the flat node of the deleted node:
    [getFlatNode] still returns it and its expansion state is kept, but it is
    no longer one of [dataNodes]; and when the deleted node was the only child
    of its parent, [hasChildren] of the flat node of the parent is false
    afterwards. *)
Theorem delete_flat_nodes fuel s l n f :
  tree_shaped fuel s l → one_flat_per_node s → getFlatNode s n = Some f →
  ∃ s',
    delete fuel s n = Some s' ∧
    getFlatNode s' n = Some f ∧ (f ∉ dataNodes (treeControl s')) ∧
    isExpanded (treeControl s') f = isExpanded (treeControl s) f ∧
    ∀ p, p ∈ l → children_list (objects s) p = [n] →
         ∃ fp, getFlatNode s' p = Some fp ∧ fp ∈ dataNodes (treeControl s') ∧
               hasChildren s' fp = Some false.
Proof.
  intros Htree Hone Hf. pose proof Htree as [Hd Hnd]. unfold getFlatNode in *.
  destruct (delete_core fuel s l n Htree) as (s1 & Hdel & _).
  destruct (delete_descendants fuel s l n s1 Htree Hdel) as (l1 & Hl1 & Hsub & Hn & _).
  destruct (update_total fuel s1 l1 Hl1) as [s' Hupd].
  assert (tree_shaped fuel s1 l1) as Htree1.
  { split; [done|]. by eapply sublist_NoDup. }
  assert (tree_shaped fuel s' l1) as Htree'.
  { destruct Htree1 as [? ?]. split; [|done].
    by rewrite (descendants_update _ _ _ Hupd). }
  assert (delete fuel s n = Some s') as Hdelete.
  { unfold delete. by rewrite Hdel. }
  pose proof (_delete_flat _ _ _ _ _ Hdel) as [Hfo Hnm].
  pose proof (_delete_subject _ _ _ _ _ Hdel) as [_ Hctl].
  assert (one_flat_per_node s1) as Hone1.
  { by apply (flat_step_same s s1 Hfo Hnm). }
  pose proof (update_flat_step _ _ _ Hupd) as [Hone' Hkeep]. specialize (Hone' Hone1).
  pose proof (update_flattened _ _ _ _ Hone1 Hl1 Hupd) as Hflat.
  pose proof (update_same_tree _ _ _ Hupd) as (Hobj & _ & Hexp & _).
  assert (nodeMap s' !! n = Some f) as Hf'.
  { apply Hkeep. by rewrite Hnm. }
  exists s'. split_and!; [done|done| | |].
  - intros Hin. destruct (flattened_stands_for s' l1 f Hflat Hin) as (x & Hx & Hst).
    destruct Hone' as [_ Hreg]. destruct (Hreg n f Hf') as (fl & Hfl & Hnode).
    unfold stands_for in Hst. rewrite Hfl in Hst. simpl in Hst.
    injection Hst as <-. rewrite Hnode in Hx. done.
  - unfold isExpanded. by rewrite Hexp, Hctl.
  - intros p Hp Hcl.
    assert (n ∈ children_list (objects s) p) as Hnp by (rewrite Hcl; left).
    destruct (getNodePath_total fuel s l p Htree) as [pp Hpp].
    assert (p ∈ l1) as Hp1.
    { apply (delete_survivors fuel s l n s' l1 Htree Hdelete Htree' Hn p pp Hpp).
      split; [done|]. by apply (child_not_on_parent_path fuel s l p n). }
    destruct (getNodePath_total fuel s1 l1 p Htree1) as [pp1 Hpp1].
    destruct (update_flat_node fuel s1 l1 s' p pp1 Htree1 Hone1 Hupd Hp1 Hpp1)
      as (fp & fl & Hmap & Hin & Hfl & _ & _ & Hexpand).
    exists fp. split_and!; [done|done|].
    unfold hasChildren. rewrite Hfl. simpl. f_equal. rewrite Hexpand.
    destruct (delete_child_effect fuel s l p n Htree Hp Hnp) as (s2 & Hs2 & _ & Hobj2).
    rewrite Hdelete in Hs2. injection Hs2 as <-. rewrite Hobj in Hobj2.
    rewrite Hobj2.
    destruct (tree_allocated _ _ _ _ _ Hd Hp) as [nd Hndp].
    unfold has_children, remove_child, write_array, children_of. simpl.
    rewrite lookup_alter_eq, Hndp. simpl. rewrite Hcl.
    assert (JsArray.splice [n] (JsArray.indexOf [n] n) 1 [] = []) as ->; [|done].
    apply (splice_remove_first [] [] n). by intros ?%elem_of_nil.
Qed.

Lemma delete_flat_nodes_witness :
  ∃ s',
    delete 3 Fixture.service Fixture.C = Some s' ∧
    getFlatNode s' Fixture.C = Some 2%nat ∧
    (2%nat ∉ dataNodes (treeControl s')) ∧
    isExpanded (treeControl s') 2%nat
    = isExpanded (treeControl Fixture.service) 2%nat ∧
    ∀ p, p ∈ [Fixture.A; Fixture.B; Fixture.C] →
         children_list (objects Fixture.service) p = [Fixture.C] →
         ∃ fp, getFlatNode s' p = Some fp ∧ fp ∈ dataNodes (treeControl s') ∧
               hasChildren s' fp = Some false.
Proof.
  apply (delete_flat_nodes 3 Fixture.service [Fixture.A; Fixture.B; Fixture.C]
           Fixture.C 2%nat).
  - tree_shaped_by_computation.
  - apply Fixture_flat_nodes.
  - compute_done.
Defined.

(** X21: after [insertChild] of a new subtree below a node of the tree, the
    parent keeps its flat node, the inserted node has a flat node, both are in
    [dataNodes], [hasChildren] of the flat node of the parent is true, and the
    level of the flat node of the inserted node is the level of the parent's
    plus one. *)
Theorem insertChild_flat_nodes f g fuel s l p n ln :
  tree_shaped f s l → one_flat_per_node s → p ∈ l →
  subtree g (objects s) n = Some ln → NoDup ln → (∀ x, x ∈ ln → x ∉ l) →
  (f + g ≤ fuel)%nat →
  ∃ s' fp fn flp fln,
    insertChild fuel s p n = Some s' ∧
    getFlatNode s' p = Some fp ∧ getFlatNode s' n = Some fn ∧
    (∀ fp0, getFlatNode s p = Some fp0 → fp = fp0) ∧
    fp ∈ dataNodes (treeControl s') ∧ fn ∈ dataNodes (treeControl s') ∧
    flatObjects s' !! fp = Some flp ∧ flatObjects s' !! fn = Some fln ∧
    hasChildren s' fp = Some true ∧ level fln = level flp + 1.
Proof.
  intros Htree Hone Hp Hn Hndn Hdisj Hle. pose proof Htree as [Hd Hnd].
  destruct (tree_allocated _ _ _ _ _ Hd Hp) as [nd Hndp].
  destruct (update_after_child_insert f g fuel s l p nd n ln
              (default [] (children nd)) [])
    as (s' & l' & Hs' & Hobj & Hdata & Htree' & Hperm); try done.
  { by rewrite app_nil_r. }
  rewrite decide_True in Hperm by done.
  set (s0 := set_objects s (<[p := mkTreeNode (name nd)
                                     (Some (default [] (children nd) ++ [n]))]>
                              (objects s))) in *.
  assert (tree_shaped fuel s0 l') as Htree0.
  { destruct Htree' as [Hd' ?]. split; [|done].
    by rewrite <-(descendants_update _ _ _ Hs'). }
  assert (one_flat_per_node s0) as Hone0 by done.
  pose proof (update_flat_step _ _ _ Hs') as [_ Hkeep].
  assert (p ∈ l') as Hp' by (rewrite Hperm; apply elem_of_app; by left).
  assert (n ∈ children_list (objects s0) p) as Hnp.
  { unfold children_list, children_of. simpl. rewrite lookup_insert_eq. simpl.
    apply elem_of_app. right. left. }
  assert (n ∈ l') as Hn' by (by eapply gather_subtree_child; [apply Htree0|..]).
  destruct (getNodePath_child fuel s0 l' p n Htree0 Hp' Hnp) as (pp & Hpp & _ & Hpn).
  destruct (update_flat_node fuel s0 l' s' p pp Htree0 Hone0 Hs' Hp' Hpp)
    as (fp & flp & Hmp & Hinp & Hflp & _ & Hlvlp & Hexpp).
  destruct (update_flat_node fuel s0 l' s' n (pp ++ [n]) Htree0 Hone0 Hs' Hn' Hpn)
    as (fn & fln & Hmn & Hinn & Hfln & _ & Hlvln & _).
  exists s', fp, fn, flp, fln. unfold getFlatNode. split_and!; try done.
  - unfold insertChild. by rewrite (insertChild_store _ _ _ _ Hndp).
  - intros fp0 Hfp0. apply (Hkeep p fp0) in Hfp0. congruence.
  - unfold hasChildren. rewrite Hflp. simpl. f_equal. rewrite Hexpp.
    apply has_children_true. eexists. split.
    + unfold children_of. simpl. rewrite lookup_insert_eq. done.
    + intros Heq. apply app_eq_nil in Heq as [_ ?]. done.
  - rewrite Hlvln, Hlvlp, length_app. simpl. lia.
Qed.

Lemma insertChild_flat_nodes_witness :
  ∃ s' fp fn flp fln,
    insertChild 4 Fixture.service Fixture.C Fixture.D = Some s' ∧
    getFlatNode s' Fixture.C = Some fp ∧ getFlatNode s' Fixture.D = Some fn ∧
    (∀ fp0, getFlatNode Fixture.service Fixture.C = Some fp0 → fp = fp0) ∧
    fp ∈ dataNodes (treeControl s') ∧ fn ∈ dataNodes (treeControl s') ∧
    flatObjects s' !! fp = Some flp ∧ flatObjects s' !! fn = Some fln ∧
    hasChildren s' fp = Some true ∧ level fln = level flp + 1.
Proof.
  apply (insertChild_flat_nodes 3 1 4 Fixture.service
           [Fixture.A; Fixture.B; Fixture.C] Fixture.C Fixture.D [Fixture.D]).
  - tree_shaped_by_computation.
  - apply Fixture_flat_nodes.
  - compute_done.
  - compute_done.
  - compute_done.
  - apply Forall_forall. compute_done.
  - simpl. lia.
Defined.

(** X22: in a tree, inserting after a node that has a next sibling is
    inserting before that sibling, in the root array as in a children array,
    and [insertChild] with a parent that has children is [insertAfter] with
    its last child: the calls end in the same state. *)
Theorem insertion_laws fuel s l n :
  tree_shaped fuel s l →
  (∀ pre sib nxt post,
     _data s = pre ++ sib :: nxt :: post →
     insertAfter fuel s sib n = insertBefore fuel s nxt n) ∧
  (∀ p pre sib nxt post,
     p ∈ l → children_list (objects s) p = pre ++ sib :: nxt :: post →
     insertAfter fuel s sib n = insertBefore fuel s nxt n) ∧
  (∀ p pre c,
     p ∈ l → children_list (objects s) p = pre ++ [c] →
     insertChild fuel s p n = insertAfter fuel s c n).
Proof.
  intros Htree. pose proof Htree as [Hd Hnd].
  assert (∀ k pre sib nxt post,
            NoDup k → k = pre ++ sib :: nxt :: post →
            JsArray.splice k (JsArray.indexOf k sib + 1) 0 [n]
            = JsArray.splice k (JsArray.indexOf k nxt + 0) 0 [n]) as Hsplice.
  { intros k pre sib nxt post Hk ->.
    apply NoDup_app in Hk as (_ & Hpre & Hk).
    apply NoDup_cons in Hk as [Hsn _].
    rewrite splice_insert_after by (intros Hin; apply (Hpre sib Hin); left).
    replace (pre ++ sib :: nxt :: post) with ((pre ++ [sib]) ++ nxt :: post)
      by (by rewrite <-(assoc_L (++))).
    rewrite splice_insert_before; [by rewrite <-(assoc_L (++))|].
    intros [Hin|Hin%list_elem_of_singleton]%elem_of_app.
    - apply (Hpre nxt Hin). right. left.
    - apply Hsn. rewrite Hin. left. }
  assert (∀ p x, p ∈ l → x ∈ children_list (objects s) p →
                 ∃ nd, objects s !! p = Some nd ∧
                       children nd = Some (children_list (objects s) p)) as Harr.
  { intros p x Hp Hx. destruct (tree_allocated _ _ _ _ _ Hd Hp) as [nd Hndp].
    exists nd. split; [done|]. unfold children_list, children_of in *.
    rewrite Hndp in *. simpl in *.
    destruct (children nd); [done|]. by apply elem_of_nil in Hx. }
  split_and!.
  - intros pre sib nxt post Hdata.
    unfold insertAfter, insertBefore, _insertSibling.
    rewrite (getParent_root fuel s l sib Htree), (getParent_root fuel s l nxt Htree).
    + simpl. do 2 f_equal.
      apply (Hsplice _ pre sib nxt post); [|done].
      by eapply tree_roots_NoDup.
    + rewrite Hdata. apply elem_of_app. right. right. left.
    + rewrite Hdata. apply elem_of_app. right. left.
  - intros p pre sib nxt post Hp Hcl.
    assert (sib ∈ children_list (objects s) p) as Hsib.
    { rewrite Hcl. apply elem_of_app. right. left. }
    assert (nxt ∈ children_list (objects s) p) as Hnxt.
    { rewrite Hcl. apply elem_of_app. right. right. left. }
    destruct (Harr p sib Hp Hsib) as (nd & Hndp & Hch).
    unfold insertAfter, insertBefore, _insertSibling.
    rewrite (getParent_child fuel s l sib p Htree Hp Hsib),
            (getParent_child fuel s l nxt p Htree Hp Hnxt).
    simpl. unfold children_of. rewrite Hndp. simpl. rewrite Hch.
    rewrite (Hsplice _ pre sib nxt post); [done| |done].
    by eapply tree_children_NoDup.
  - intros p pre c Hp Hcl.
    assert (c ∈ children_list (objects s) p) as Hc.
    { rewrite Hcl. apply elem_of_app. right. left. }
    destruct (Harr p c Hp Hc) as (nd & Hndp & Hch).
    pose proof (tree_children_NoDup _ _ _ _ p Hd Hnd Hp) as Hndc.
    rewrite Hcl in Hndc. apply NoDup_app in Hndc as (_ & Hpre & _).
    unfold insertChild, insertAfter, _insertSibling.
    rewrite (insertChild_store _ _ _ _ Hndp).
    rewrite (getParent_child fuel s l c p Htree Hp Hc).
    simpl. unfold children_of. rewrite Hndp. simpl. rewrite Hch. simpl.
    rewrite (alter_as_insert _ _ _ _ Hndp). rewrite Hcl.
    rewrite splice_insert_after by (intros Hin; apply (Hpre c Hin); left).
    by rewrite <-(assoc_L (++)).
Qed.

Lemma insertion_laws_witness :
  insertChild 4 Fixture.service Fixture.A Fixture.D
  = insertAfter 4 Fixture.service Fixture.B Fixture.D.
Proof.
  destruct (insertion_laws 4 Fixture.service [Fixture.A; Fixture.B; Fixture.C]
              Fixture.D) as (_ & _ & Hlast).
  { tree_shaped_by_computation. }
  apply (Hlast Fixture.A [] Fixture.B); compute_done.
Defined.
